(** * Competitor analyzer: the crawl frontier and its utilities

    A shallow embedding of the crawl orchestration core of the backend
    ([app/services/crawl_queue.py], [app/services/crawl_utils.py],
    [app/services/price_monitor.py]) together with the properties the
    specification states about it.

    Conventions.  Python [int] is [Z]; [str] is [string], read as a sequence
    of ASCII characters (the library routines modelled below are exact on
    ASCII text); [set] is [gset]; [dict] is [gmap] unless insertion order
    matters, in which case it is an association list; a Python list used as
    an array is a [list] with stdpp's lookup and insert. *)

From Stdlib Require Import ZArith QArith Qround Qabs Lia Lqa ZifyNat Ascii String.
From stdpp Require Import gmap strings list sorting.

Open Scope Z_scope.
Open Scope string_scope.
Open Scope list_scope.
Open Scope nat_scope.

(** Linear arithmetic extended with division by constants (heap indices). *)
Ltac dlia := zify; Z.to_euclidean_division_equations; lia.

(** ** Python's [heapq] on a list

    [heapq] is the standard library's binary min-heap over a Python list.
    The functions below follow [Lib/heapq.py] line by line; [lt] is the
    [__lt__] of the stored items. *)

Module heapq.
Section heapq.
Context {A : Type} (lt : A -> A -> bool).

(** [_siftdown(heap, startpos, pos)]: the loop
    [while pos > startpos] moves parents down until [newitem] fits.
    [pos] decreases at every turn, so [pos] turns are enough: when the
    fuel is spent [pos] is [0] and the loop has ended. *)
Fixpoint _siftdown_loop (fuel : nat) (heap : list A) (newitem : A)
    (startpos pos : nat) : list A :=
  match fuel with
  | S fuel' =>
      if bool_decide (startpos < pos) then
        let parentpos := (pos - 1) / 2 in
        match heap !! parentpos with
        | Some parent =>
            if lt newitem parent
            then _siftdown_loop fuel' (<[pos := parent]> heap) newitem startpos parentpos
            else <[pos := newitem]> heap
        | None => <[pos := newitem]> heap
        end
      else <[pos := newitem]> heap
  | O => <[pos := newitem]> heap
  end.

Definition _siftdown (heap : list A) (startpos pos : nat) : list A :=
  match heap !! pos with
  | Some newitem => _siftdown_loop pos heap newitem startpos pos
  | None => heap
  end.

(** [not heap[childpos] < heap[rightpos]] *)
Definition not_lt_at (heap : list A) (childpos rightpos : nat) : bool :=
  match heap !! childpos, heap !! rightpos with
  | Some c, Some r => negb (lt c r)
  | _, _ => false
  end.

(** The loop of [_siftup(heap, pos)]: bubble the smaller child up until
    a leaf is reached; returns the heap and the position of the leaf.
    [pos] grows at every turn and stays below [endpos]. *)
Fixpoint _siftup_loop (fuel : nat) (heap : list A) (endpos pos : nat)
    : list A * nat :=
  match fuel with
  | S fuel' =>
      let childpos := 2 * pos + 1 in
      if bool_decide (childpos < endpos) then
        let rightpos := childpos + 1 in
        let childpos :=
          if bool_decide (rightpos < endpos) && not_lt_at heap childpos rightpos
          then rightpos else childpos in
        match heap !! childpos with
        | Some c => _siftup_loop fuel' (<[pos := c]> heap) endpos childpos
        | None => (heap, pos)
        end
      else (heap, pos)
  | O => (heap, pos)
  end.

Definition _siftup (heap : list A) (pos : nat) : list A :=
  let endpos := length heap in
  let startpos := pos in
  match heap !! pos with
  | Some newitem =>
      let '(heap1, pos1) := _siftup_loop endpos heap endpos pos in
      _siftdown (<[pos1 := newitem]> heap1) startpos pos1
  | None => heap
  end.

(** [heappush(heap, item)] *)
Definition heappush (heap : list A) (item : A) : list A :=
  let heap := heap ++ [item] in
  _siftdown heap 0 (length heap - 1).

(** [heappop(heap)]; [None] is the [IndexError] of an empty heap. *)
Definition heappop (heap : list A) : option (A * list A) :=
  match last heap with
  | None => None
  | Some lastelt =>
      let heap := removelast heap in
      match heap with
      | returnitem :: _ => Some (returnitem, _siftup (<[0 := lastelt]> heap) 0)
      | [] => Some (lastelt, heap)
      end
  end.
End heapq.
End heapq.

(** ** The crawl queue ([crawl_queue.py]) *)

Inductive CrawlPriority := CRITICAL | HIGH | MEDIUM | LOW | DEFERRED.

Definition CrawlPriority_value (p : CrawlPriority) : Z :=
  match p with
  | CRITICAL => 0 | HIGH => 1 | MEDIUM => 2 | LOW => 3 | DEFERRED => 4
  end%Z.

(** [@dataclass(order=True) class CrawlItem]: only [priority] takes part in
    comparisons, every other field is declared [compare=False].
    [added_at] is the clock reading taken when the item is built. *)
Record CrawlItem := mkCrawlItem {
  priority : Z;
  url : string;
  depth : Z;
  referrer : option string;
  added_at : Z;
  retries : Z;
  metadata : gmap string string
}.

(** The generated [__lt__]: [(self.priority,) < (other.priority,)]. *)
Definition CrawlItem_lt (a b : CrawlItem) : bool := (priority a <? priority b)%Z.

Record CrawlQueue := mkCrawlQueue {
  _queue : list CrawlItem;
  _seen : gset string;
  _in_progress : gset string;
  _completed : gset string;
  _failed : gmap string string;
  max_depth : Z;
  max_retries : Z;
  max_urls : Z
}.

Definition CrawlQueue_init (max_depth max_retries max_urls : Z) : CrawlQueue :=
  mkCrawlQueue [] ∅ ∅ ∅ ∅ max_depth max_retries max_urls.

Definition set_queue (q : CrawlQueue) (h : list CrawlItem) : CrawlQueue :=
  mkCrawlQueue h (_seen q) (_in_progress q) (_completed q) (_failed q)
    (max_depth q) (max_retries q) (max_urls q).
Definition set_seen (q : CrawlQueue) (s : gset string) : CrawlQueue :=
  mkCrawlQueue (_queue q) s (_in_progress q) (_completed q) (_failed q)
    (max_depth q) (max_retries q) (max_urls q).
Definition set_in_progress (q : CrawlQueue) (s : gset string) : CrawlQueue :=
  mkCrawlQueue (_queue q) (_seen q) s (_completed q) (_failed q)
    (max_depth q) (max_retries q) (max_urls q).
Definition set_completed (q : CrawlQueue) (s : gset string) : CrawlQueue :=
  mkCrawlQueue (_queue q) (_seen q) (_in_progress q) s (_failed q)
    (max_depth q) (max_retries q) (max_urls q).
Definition set_failed (q : CrawlQueue) (m : gmap string string) : CrawlQueue :=
  mkCrawlQueue (_queue q) (_seen q) (_in_progress q) (_completed q) m
    (max_depth q) (max_retries q) (max_urls q).

Definition pending_count (q : CrawlQueue) : Z := Z.of_nat (length (_queue q)).
Definition completed_count (q : CrawlQueue) : Z := Z.of_nat (size (_completed q)).
Definition failed_count (q : CrawlQueue) : Z := Z.of_nat (size (_failed q)).
Definition in_progress_count (q : CrawlQueue) : Z := Z.of_nat (size (_in_progress q)).
Definition total_seen (q : CrawlQueue) : Z := Z.of_nat (size (_seen q)).

(** The three admission checks of [add], in the order of the source. *)
Definition add_rejects (q : CrawlQueue) (u : string) (d : Z) : bool :=
  bool_decide (max_urls q <= total_seen q)%Z
  || bool_decide (max_depth q < d)%Z
  || bool_decide (u ∈ _seen q).

(** [add(url, priority, depth, referrer, metadata)]; [now] is the reading
    of [datetime.utcnow] stored in [added_at]; [metadata or {}] turns a
    missing dictionary into the empty one. *)
Definition add (q : CrawlQueue) (u : string) (p : CrawlPriority) (d : Z)
    (ref : option string) (md : option (gmap string string)) (now : Z)
    : bool * CrawlQueue :=
  if bool_decide (max_urls q <= total_seen q)%Z then (false, q)
  else if bool_decide (max_depth q < d)%Z then (false, q)
  else if bool_decide (u ∈ _seen q) then (false, q)
  else
    let q := set_seen q ({[u]} ∪ _seen q) in
    let item := mkCrawlItem (CrawlPriority_value p) u d ref now 0 (default ∅ md) in
    (true, set_queue q (heapq.heappush CrawlItem_lt (_queue q) item)).

(** [add_many(urls, priority, depth, referrer)] *)
Fixpoint add_many (q : CrawlQueue) (urls : list string) (p : CrawlPriority)
    (d : Z) (ref : option string) (now : Z) : Z * CrawlQueue :=
  match urls with
  | [] => (0%Z, q)
  | u :: urls' =>
      let '(ok, q1) := add q u p d ref None now in
      let '(added, q2) := add_many q1 urls' p d ref now in
      ((if ok then 1 else 0) + added, q2)%Z
  end.

(** [get()]: pop until an item is found that is neither completed nor in
    progress.  Every turn of the loop removes one entry, so as many turns as
    there are entries exhaust the queue. *)
Fixpoint get_loop (fuel : nat) (q : CrawlQueue) : option CrawlItem * CrawlQueue :=
  match fuel with
  | S fuel' =>
      match heapq.heappop CrawlItem_lt (_queue q) with
      | Some (item, rest) =>
          let q := set_queue q rest in
          if bool_decide (url item ∈ _completed q) || bool_decide (url item ∈ _in_progress q)
          then get_loop fuel' q
          else (Some item, set_in_progress q ({[url item]} ∪ _in_progress q))
      | None => (None, q)
      end
  | O => (None, q)
  end.

Definition get (q : CrawlQueue) : option CrawlItem * CrawlQueue :=
  get_loop (length (_queue q)) q.

(** [get_batch(size)] *)
Fixpoint get_batch (q : CrawlQueue) (size : nat) : list CrawlItem * CrawlQueue :=
  match size with
  | O => ([], q)
  | S size' =>
      match get q with
      | (Some item, q1) =>
          let '(items, q2) := get_batch q1 size' in (item :: items, q2)
      | (None, q1) => ([], q1)
      end
  end.

(** [complete(url)] *)
Definition complete (q : CrawlQueue) (u : string) : CrawlQueue :=
  let q := set_in_progress q (_in_progress q ∖ {[u]}) in
  set_completed q ({[u]} ∪ _completed q).

(** The item that [fail] puts back. *)
Definition requeued (u : string) (item : CrawlItem) (now : Z) : CrawlItem :=
  mkCrawlItem (Z.min (priority item + 1) (CrawlPriority_value DEFERRED))
    u (depth item) (referrer item) now (retries item + 1) (metadata item).

(** [fail(url, error, item)] *)
Definition fail (q : CrawlQueue) (u error : string) (item : option CrawlItem)
    (now : Z) : CrawlQueue :=
  let q := set_in_progress q (_in_progress q ∖ {[u]}) in
  match item with
  | Some it =>
      if bool_decide (retries it < max_retries q)%Z
      then set_queue q (heapq.heappush CrawlItem_lt (_queue q) (requeued u it now))
      else set_failed q (<[u := error]> (_failed q))
  | None => set_failed q (<[u := error]> (_failed q))
  end.

(** [release(url)] *)
Definition release (q : CrawlQueue) (u : string) : CrawlQueue :=
  set_in_progress q (_in_progress q ∖ {[u]}).

Definition is_empty (q : CrawlQueue) : bool :=
  bool_decide (length (_queue q) = 0) && bool_decide (size (_in_progress q) = 0).

(** [clear()] *)
Definition clear (q : CrawlQueue) : CrawlQueue :=
  mkCrawlQueue [] ∅ ∅ ∅ ∅ (max_depth q) (max_retries q) (max_urls q).

(** ** Python strings

    The [str] methods and the regular expressions the sources use, on ASCII
    text.  A character is a byte; text outside ASCII is carried as its UTF-8
    bytes and is neither case-folded nor treated as white space. *)

Definition code (c : ascii) : nat := nat_of_ascii c.

Definition in_range (lo hi : nat) (c : ascii) : bool :=
  (lo <=? code c)%nat && (code c <=? hi)%nat.

Definition is_upper (c : ascii) : bool := in_range 65 90 c.
Definition is_lower (c : ascii) : bool := in_range 97 122 c.
Definition is_alpha (c : ascii) : bool := is_upper c || is_lower c.
Definition is_digit (c : ascii) : bool := in_range 48 57 c.

(** [str.isspace] and the class [\s]: tab to carriage return, the four
    separators 28..31, and the space. *)
Definition is_space (c : ascii) : bool :=
  in_range 9 13 c || in_range 28 32 c.

(** The class [\w] on ASCII text. *)
Definition is_word (c : ascii) : bool :=
  is_alpha c || is_digit c || Ascii.eqb c "_"%char.

Definition char_lower (c : ascii) : ascii :=
  if is_upper c then ascii_of_nat (code c + 32) else c.

Fixpoint str_map (f : ascii -> ascii) (s : string) : string :=
  match s with
  | EmptyString => EmptyString
  | String c s' => String (f c) (str_map f s')
  end.

Fixpoint str_filter (f : ascii -> bool) (s : string) : string :=
  match s with
  | EmptyString => EmptyString
  | String c s' => if f c then String c (str_filter f s') else str_filter f s'
  end.

Fixpoint str_forall (f : ascii -> bool) (s : string) : bool :=
  match s with
  | EmptyString => true
  | String c s' => f c && str_forall f s'
  end.

(** [c in s] for a one-character [c]. *)
Fixpoint str_has (c : ascii) (s : string) : bool :=
  match s with
  | EmptyString => false
  | String d s' => Ascii.eqb c d || str_has c s'
  end.

(** [s.lower()] *)
Definition str_lower (s : string) : string := str_map char_lower s.

(** [s.lstrip(chars)], the characters given as a predicate. *)
Fixpoint str_lstrip (f : ascii -> bool) (s : string) : string :=
  match s with
  | EmptyString => EmptyString
  | String c s' => if f c then str_lstrip f s' else s
  end.

(** [s.rstrip(chars)] *)
Fixpoint str_rstrip (f : ascii -> bool) (s : string) : string :=
  match s with
  | EmptyString => EmptyString
  | String c s' =>
      match str_rstrip f s' with
      | EmptyString => if f c then EmptyString else String c EmptyString
      | r => String c r
      end
  end.

(** [s.strip()] *)
Definition str_strip (s : string) : string :=
  str_rstrip is_space (str_lstrip is_space s).

(** [s.startswith(p)] and [s.endswith(p)] *)
Fixpoint startswith (p s : string) : bool :=
  match p, s with
  | EmptyString, _ => true
  | String a p', String b s' => Ascii.eqb a b && startswith p' s'
  | String _ _, EmptyString => false
  end.

Fixpoint str_drop (n : nat) (s : string) : string :=
  match n, s with
  | O, _ => s
  | S n', String _ s' => str_drop n' s'
  | S _, EmptyString => EmptyString
  end.

Fixpoint str_take (n : nat) (s : string) : string :=
  match n, s with
  | O, _ => EmptyString
  | S n', String c s' => String c (str_take n' s')
  | S _, EmptyString => EmptyString
  end.

Definition endswith (p s : string) : bool :=
  (String.length p <=? String.length s)%nat
  && String.eqb (str_drop (String.length s - String.length p) s) p.

(** [s[:-n]] *)
Definition str_drop_end (n : nat) (s : string) : string :=
  str_take (String.length s - n) s.

(** [s.find(c)]: the index of the first [c], or [None] for [-1]. *)
Fixpoint str_find (c : ascii) (s : string) : option nat :=
  match s with
  | EmptyString => None
  | String d s' => if Ascii.eqb c d then Some O else S <$> str_find c s'
  end.

(** [s.rindex(c)]: the index of the last [c]; [None] is its [ValueError]. *)
Fixpoint str_rindex (c : ascii) (s : string) : option nat :=
  match s with
  | EmptyString => None
  | String d s' =>
      match str_rindex c s' with
      | Some i => Some (S i)
      | None => if Ascii.eqb c d then Some O else None
      end
  end.

(** [s.split(sep)] for a one-character separator. *)
Fixpoint str_split (sep : ascii) (s : string) : list string :=
  match s with
  | EmptyString => [EmptyString]
  | String c s' =>
      if Ascii.eqb c sep then EmptyString :: str_split sep s'
      else match str_split sep s' with
           | h :: t => String c h :: t
           | [] => [String c EmptyString]
           end
  end.

(** [s.split(sep, 1)] when [sep] occurs: the text before the first [sep]
    and the text after it. *)
Fixpoint str_split1 (sep : ascii) (s : string) : option (string * string) :=
  match s with
  | EmptyString => None
  | String c s' =>
      if Ascii.eqb c sep then Some (EmptyString, s')
      else match str_split1 sep s' with
           | Some (a, b) => Some (String c a, b)
           | None => None
           end
  end.

(** [sep.join(parts)] *)
Fixpoint str_join (sep : string) (parts : list string) : string :=
  match parts with
  | [] => EmptyString
  | [p] => p
  | p :: rest => p +:+ sep +:+ str_join sep rest
  end.

(** [s.replace(c, d)] for one-character [c] and [d]. *)
Definition str_replace (c d : ascii) (s : string) : string :=
  str_map (fun x => if Ascii.eqb x c then d else x) s.

(** [s.replace(c, '')] *)
Definition str_remove (c : ascii) (s : string) : string :=
  str_filter (fun x => negb (Ascii.eqb x c)) s.

(** [x in l] for a list of strings. *)
Definition str_in (x : string) (l : list string) : bool :=
  existsb (String.eqb x) l.

(** The longest prefix whose characters satisfy [f], and the rest. *)
Fixpoint str_span (f : ascii -> bool) (s : string) : string * string :=
  match s with
  | EmptyString => (EmptyString, EmptyString)
  | String c s' =>
      if f c then let '(a, b) := str_span f s' in (String c a, b)
      else (EmptyString, s)
  end.

(** ** [urllib.parse] (CPython 3.11), as far as [normalize] uses it

    [urlparse], [urlunparse], [parse_qs] and [urlencode] with the arguments
    that [normalize] gives them. *)

Record ParseResult := mkParseResult {
  pr_scheme : string;
  pr_netloc : string;
  pr_path : string;
  pr_params : string;
  pr_query : string;
  pr_fragment : string
}.

Definition scheme_chars (c : ascii) : bool :=
  is_alpha c || is_digit c || str_has c "+-.".

Definition uses_params : list string :=
  [""; "ftp"; "hdl"; "prospero"; "http"; "imap"; "https"; "shttp"; "rtsp";
   "rtspu"; "sip"; "sips"; "mms"; "sftp"; "tel"].

Definition uses_netloc : list string :=
  [""; "ftp"; "http"; "gopher"; "nntp"; "telnet"; "imap"; "wais"; "file";
   "mms"; "https"; "shttp"; "snews"; "prospero"; "rtsp"; "rtspu"; "rsync";
   "svn"; "svn+ssh"; "sftp"; "nfs"; "git"; "git+ssh"; "ws"; "wss"].

(** [_UNSAFE_URL_BYTES_TO_REMOVE]: tab, carriage return, line feed. *)
Definition is_unsafe_url_byte (c : ascii) : bool :=
  (code c =? 9)%nat || (code c =? 13)%nat || (code c =? 10)%nat.

(** [_splitnetloc(url, 2)] on a [url] that starts with two slashes: the
    network location runs up to the first of [/], [?], [#]. *)
Definition _splitnetloc (url : string) : string * string :=
  str_span (fun c => negb (str_has c "/?#")) (str_drop 2 url).

Section urlparse.
(** [_check_bracketed_netloc(netloc)] succeeds: the text between the square
    brackets is an IPv6 or IPvFuture literal (checked by the [ipaddress]
    module). *)
Variable bracketed_netloc_ok : string -> bool.

(** [urlsplit(url)]: leading C0 controls and spaces and all tabs and line
    breaks are removed first.  [None] is the [ValueError] raised for a
    network location with an unmatched square bracket or with an invalid
    literal between the brackets. *)
Definition urlsplit (url : string) : option (string * string * string * string * string) :=
  let url := str_lstrip (in_range 0 32) url in
  let url := str_filter (fun c => negb (is_unsafe_url_byte c)) url in
  let '(scheme, url) :=
    match str_find ":" url with
    | Some i =>
        if (0 <? i)%nat
           && match url with String c _ => is_alpha c | EmptyString => false end
           && str_forall scheme_chars (str_take i url)
        then (str_lower (str_take i url), str_drop (i + 1) url)
        else (EmptyString, url)
    | None => (EmptyString, url)
    end in
  let '(netloc, url) :=
    if startswith "//" url then _splitnetloc url else (EmptyString, url) in
  if xorb (str_has "[" netloc) (str_has "]" netloc) then None
  else if str_has "[" netloc && str_has "]" netloc && negb (bracketed_netloc_ok netloc)
  then None
  else
    let '(url, fragment) :=
      match str_split1 "#" url with
      | Some (a, b) => (a, b)
      | None => (url, EmptyString)
      end in
    let '(url, query) :=
      match str_split1 "?" url with
      | Some (a, b) => (a, b)
      | None => (url, EmptyString)
      end in
    Some (scheme, netloc, url, query, fragment).

(** [_splitparams(url)]: the parameters start at the first [;] of the last
    path segment. *)
Definition _splitparams (url : string) : string * string :=
  match str_rindex "/" url with
  | Some r =>
      match str_find ";" (str_drop r url) with
      | Some i => (str_take (r + i) url, str_drop (r + i + 1) url)
      | None => (url, EmptyString)
      end
  | None =>
      match str_find ";" url with
      | Some i => (str_take i url, str_drop (i + 1) url)
      | None => (url, EmptyString)
      end
  end.

(** [urlparse(url)] *)
Definition urlparse (url : string) : option ParseResult :=
  match urlsplit url with
  | Some (scheme, netloc, url, query, fragment) =>
      let '(url, params) :=
        if str_in scheme uses_params && str_has ";" url
        then _splitparams url else (url, EmptyString) in
      Some (mkParseResult scheme netloc url params query fragment)
  | None => None
  end.
End urlparse.

(** [urlunsplit((scheme, netloc, url, query, fragment))] *)
Definition urlunsplit (scheme netloc url query fragment : string) : string :=
  let url :=
    if negb (String.eqb netloc "")
       || (negb (String.eqb scheme "") && str_in scheme uses_netloc
           && negb (startswith "//" url))
    then
      let url :=
        if negb (String.eqb url "") && negb (startswith "/" url)
        then "/" +:+ url else url in
      "//" +:+ netloc +:+ url
    else url in
  let url := if negb (String.eqb scheme "") then scheme +:+ ":" +:+ url else url in
  let url := if negb (String.eqb query "") then url +:+ "?" +:+ query else url in
  if negb (String.eqb fragment "") then url +:+ "#" +:+ fragment else url.

(** [urlunparse((scheme, netloc, url, params, query, fragment))] *)
Definition urlunparse (scheme netloc url params query fragment : string) : string :=
  let url := if negb (String.eqb params "") then url +:+ ";" +:+ params else url in
  urlunsplit scheme netloc url query fragment.

Definition hex_value (c : ascii) : option nat :=
  if is_digit c then Some (code c - 48)
  else if in_range 65 70 c then Some (code c - 55)
  else if in_range 97 102 c then Some (code c - 87)
  else None.

(** [unquote(s)]: every [%XX] with two hexadecimal digits becomes the byte
    it names; any other [%] stays.  (The decoded bytes are read as UTF-8.) *)
Fixpoint unquote (s : string) : string :=
  match s with
  | EmptyString => EmptyString
  | String c s' =>
      match s' with
      | String h (String l s'') =>
          if Ascii.eqb c "%" then
            match hex_value h, hex_value l with
            | Some a, Some b => String (ascii_of_nat (16 * a + b)) (unquote s'')
            | _, _ => String c (unquote s')
            end
          else String c (unquote s')
      | _ => String c (unquote s')
      end
  end.

(** [parse_qsl(qs)] with the defaults: fields are separated by [&]; a field
    without [=] or with an empty value is dropped; [+] is a space. *)
Definition parse_qsl (qs : string) : list (string * string) :=
  if String.eqb qs "" then []
  else
    flat_map (fun name_value =>
      match str_split1 "=" name_value with
      | Some (n, v) =>
          if negb (String.eqb v "")
          then [(unquote (str_replace "+" " " n), unquote (str_replace "+" " " v))]
          else []
      | None => []
      end) (str_split "&" qs).

(** [parsed_result[name].append(value)], keeping the order in which the
    names were first met (a [dict] keeps insertion order). *)
Fixpoint dict_append (d : list (string * list string)) (name value : string)
    : list (string * list string) :=
  match d with
  | [] => [(name, [value])]
  | (k, vs) :: d' =>
      if String.eqb k name then (k, vs ++ [value]) :: d'
      else (k, vs) :: dict_append d' name value
  end.

(** [parse_qs(qs)] *)
Definition parse_qs (qs : string) : list (string * list string) :=
  fold_left (fun d nv => dict_append d (fst nv) (snd nv)) (parse_qsl qs) [].

Definition hex_digit (n : nat) : ascii :=
  if (n <? 10)%nat then ascii_of_nat (48 + n) else ascii_of_nat (55 + n).

(** [_ALWAYS_SAFE]: letters, digits and [_.-~]. *)
Definition always_safe (c : ascii) : bool :=
  is_alpha c || is_digit c || str_has c "_.-~".

(** [quote_plus(s, safe='')]: a space becomes [+], every other byte that is
    not always safe becomes [%XX] in upper-case hexadecimal. *)
Fixpoint quote_plus (s : string) : string :=
  match s with
  | EmptyString => EmptyString
  | String c s' =>
      if always_safe c then String c (quote_plus s')
      else if Ascii.eqb c " " then String "+" (quote_plus s')
      else String "%" (String (hex_digit (code c / 16))
             (String (hex_digit (code c mod 16)) (quote_plus s')))
  end.

(** [urlencode(query, doseq=True)] on pairs of a name and a list of values. *)
Definition urlencode (query : list (string * list string)) : string :=
  str_join "&"
    (flat_map (fun kv =>
       map (fun elt => quote_plus (fst kv) +:+ "=" +:+ quote_plus elt) (snd kv))
     query).

(** [sorted(items)] for the items of a dictionary: the names are distinct,
    so the order is that of the names. *)
Fixpoint sorted_insert (kv : string * list string) (l : list (string * list string))
    : list (string * list string) :=
  match l with
  | [] => [kv]
  | kv' :: l' =>
      if String.ltb (fst kv) (fst kv') then kv :: l
      else kv' :: sorted_insert kv l'
  end.

Definition sorted_items (l : list (string * list string)) : list (string * list string) :=
  fold_left (fun acc kv => sorted_insert kv acc) l [].

(** ** The URL normalizer ([crawl_utils.py]) *)

Definition STRIP_PARAMS : list string :=
  ["utm_source"; "utm_medium"; "utm_campaign"; "utm_term"; "utm_content";
   "fbclid"; "gclid"; "msclkid"; "ref"; "source"; "mc_cid"; "mc_eid";
   "sessionid"; "sid"; "jsessionid"; "_ga"; "_gid"].

Section URLNormalizer.
(** [urljoin(base, url)], the resolution of a relative reference, and the
    check of bracketed hosts are taken from the library as they are. *)
Variable urljoin : string -> string -> string.
Variable bracketed_netloc_ok : string -> bool.

(** [URLNormalizer.normalize(url, base_url)]; [None] is the [ValueError]
    of [urlparse]. *)
Definition normalize (url : string) (base_url : option string) : option string :=
  let url :=
    match base_url with
    | Some base =>
        if negb (String.eqb base "")
           && negb (startswith "http://" url || startswith "https://" url)
        then urljoin base url else url
    | None => url
    end in
  match urlparse bracketed_netloc_ok url with
  | None => None
  | Some parsed =>
      let scheme := str_lower (pr_scheme parsed) in
      let netloc := str_lower (pr_netloc parsed) in
      let netloc :=
        if endswith ":80" netloc && String.eqb scheme "http"
        then str_drop_end 3 netloc
        else if endswith ":443" netloc && String.eqb scheme "https"
        then str_drop_end 4 netloc
        else netloc in
      let path := pr_path parsed in
      let path := if String.eqb path "" then "/" else path in
      let path :=
        if negb (String.eqb path "/") && endswith "/" path
        then str_rstrip (Ascii.eqb "/") path else path in
      let fragment := "" in
      let query_params := parse_qs (pr_query parsed) in
      let filtered_params :=
        List.filter (fun kv => negb (str_in (str_lower (fst kv)) STRIP_PARAMS))
          query_params in
      let query :=
        match filtered_params with
        | [] => ""
        | _ => urlencode (sorted_items filtered_params)
        end in
      Some (urlunparse scheme netloc path "" query fragment)
  end.
End URLNormalizer.

(** ** The robots.txt parser ([crawl_utils.py]) *)

(** [crawl_delay] holds the text that [float] accepted; the number itself
    (a binary floating-point value) is not needed below. *)
Record RobotsRule := mkRobotsRule {
  user_agent : string;
  allowed : list string;
  disallowed : list string;
  crawl_delay : option string;
  sitemaps : list string
}.

(** Digits, possibly grouped by single underscores. *)
Fixpoint digitpart_from (prev_digit : bool) (s : string) : bool :=
  match s with
  | EmptyString => prev_digit
  | String c s' =>
      if is_digit c then digitpart_from true s'
      else if Ascii.eqb c "_" then prev_digit && digitpart_from false s'
      else false
  end.

Definition digitpart (s : string) : bool := digitpart_from false s.

Definition drop_sign (s : string) : string :=
  match s with
  | String c s' => if str_has c "+-" then s' else s
  | EmptyString => s
  end.

(** The literals [float(value)] accepts (the value is already stripped):
    a signed decimal number with an optional exponent, or an infinity or a
    NaN; anything else raises [ValueError]. *)
Definition float_literal (value : string) : bool :=
  let s := str_lower (drop_sign value) in
  if str_in s ["inf"; "infinity"; "nan"] then true
  else
    let '(mantissa, exponent_ok) :=
      match str_split1 "e" s with
      | Some (m, e) => (m, digitpart (drop_sign e))
      | None => (s, true)
      end in
    exponent_ok &&
    match str_split1 "." mantissa with
    | Some (i, f) =>
        negb (String.eqb i "" && String.eqb f "")
        && (String.eqb i "" || digitpart i) && (String.eqb f "" || digitpart f)
    | None => digitpart mantissa
    end.

(** ["*" in current_agents or "googlebot" in current_agents] *)
Definition agents_match (current_agents : list string) : bool :=
  str_in "*" current_agents || str_in "googlebot" current_agents.

(** One turn of the loop of [_parse] over the lines of the file; the
    state is the rule being built and [current_agents]. *)
Definition _parse_line (st : RobotsRule * list string) (line : string)
    : RobotsRule * list string :=
  let '(rule, current_agents) := st in
  let line := str_strip line in
  let line :=
    if str_has "#" line then str_strip (hd EmptyString (str_split "#" line)) else line in
  if String.eqb line "" then st
  else
    match str_split1 ":" line with
    | None => st
    | Some (key, value) =>
        let key := str_lower (str_strip key) in
        let value := str_strip value in
        if String.eqb key "user-agent" then
          (rule, current_agents ++ [str_lower value])
        else if String.eqb key "disallow" && agents_match current_agents then
          if negb (String.eqb value "") then
            (mkRobotsRule (user_agent rule) (allowed rule) (disallowed rule ++ [value])
               (crawl_delay rule) (sitemaps rule), current_agents)
          else st
        else if String.eqb key "allow" && agents_match current_agents then
          if negb (String.eqb value "") then
            (mkRobotsRule (user_agent rule) (allowed rule ++ [value]) (disallowed rule)
               (crawl_delay rule) (sitemaps rule), current_agents)
          else st
        else if String.eqb key "crawl-delay" && agents_match current_agents then
          if float_literal value then
            (mkRobotsRule (user_agent rule) (allowed rule) (disallowed rule)
               (Some value) (sitemaps rule), current_agents)
          else st
        else if String.eqb key "sitemap" then
          (mkRobotsRule (user_agent rule) (allowed rule) (disallowed rule)
             (crawl_delay rule) (sitemaps rule ++ [value]), current_agents)
        else st
    end.

(** The line feed that separates the lines. *)
Definition LF : ascii := ascii_of_nat 10.

(** [RobotsParser._parse(content)] *)
Definition _parse (content : string) : RobotsRule :=
  fst (fold_left _parse_line (str_split LF content)
         (mkRobotsRule "*" [] [] None [], [])).

Section RobotsMatching.
(** [bool(re.match(regex, path))] for the regular expression that
    [_matches] builds from a pattern with the wildcard [*]: the work of the
    regular-expression engine. *)
Variable wildcard_match : string -> string -> bool.

(** [_matches(pattern, path)] *)
Definition _matches (pattern path : string) : bool :=
  if str_has "*" pattern then wildcard_match pattern path
  else if endswith "$" pattern then String.eqb path (str_drop_end 1 pattern)
  else startswith pattern path.

(** [is_allowed(rule, path)]: the first matching allow rule wins, then the
    first matching disallow rule. *)
Definition is_allowed (rule : RobotsRule) (path : string) : bool :=
  if existsb (fun pattern => _matches pattern path) (allowed rule) then true
  else if existsb (fun pattern => _matches pattern path) (disallowed rule) then false
  else true.
End RobotsMatching.

(** ** The content fingerprinter ([crawl_utils.py]) *)

(** [re.sub(r'\s+', ' ', text)]: each maximal run of white space becomes one
    space; [in_run] tells that the previous character was white space. *)
Fixpoint collapse_whitespace (in_run : bool) (text : string) : string :=
  match text with
  | EmptyString => EmptyString
  | String c s' =>
      if is_space c
      then if in_run then collapse_whitespace true s'
           else String " " (collapse_whitespace true s')
      else String c (collapse_whitespace false s')
  end.

(** [ContentFingerprinter._normalize_text(text)] *)
Definition _normalize_text (text : string) : string :=
  let text := str_lower text in
  let text := collapse_whitespace false text in
  let text := str_filter (fun c => is_word c || is_space c) text in
  str_strip text.

(** [text.split()]: the maximal runs of characters that are not white
    space; [cur] is the word being read, in reverse. *)
Fixpoint str_words_from (cur : list ascii) (text : string) : list string :=
  let flush := match cur with [] => [] | _ => [string_of_list_ascii (rev cur)] end in
  match text with
  | EmptyString => flush
  | String c s' =>
      if is_space c then flush ++ str_words_from [] s'
      else str_words_from (c :: cur) s'
  end.

Definition str_words (text : string) : list string := str_words_from [] text.

Record Fingerprint := mkFingerprint {
  full_hash : string;
  word_count : Z;
  char_count : Z
}.

Section Fingerprinter.
(** [hashlib.sha256(b).hexdigest()], an external primitive. *)
Variable sha256_hexdigest : string -> string.

(** [ContentFingerprinter.generate(text)]: the exact-change fields of the
    result ([simhash] and [phrase_hash] are computed from the same
    normalized text and do not enter [full_hash]). *)
Definition generate (text : string) : Fingerprint :=
  let normalized := _normalize_text text in
  mkFingerprint (sha256_hexdigest normalized)
    (Z.of_nat (length (str_words normalized)))
    (Z.of_nat (String.length normalized)).
End Fingerprinter.

(** ** Exceptions

    Calls that can raise return a [result]; [try_except] is a [try] whose
    bare [except] clause returns a default. *)

Inductive exn := ValueError | InvalidOperation | ZeroDivisionError.

Inductive result (A : Type) : Type :=
| Return (a : A)
| Raise (e : exn).
Arguments Return {A} a.
Arguments Raise {A} e.

Definition bind {A B : Type} (m : result A) (k : A -> result B) : result B :=
  match m with
  | Return a => k a
  | Raise e => Raise e
  end.

#[export] Instance result_bind : MBind result := fun A B k m => bind m k.
#[export] Instance result_ret : MRet result := fun A a => Return a.

Definition try_except {A : Type} (m : result A) (handler : A) : A :=
  match m with
  | Return a => a
  | Raise _ => handler
  end.

Definition of_option {A : Type} (e : exn) (o : option A) : result A :=
  match o with
  | Some a => Return a
  | None => Raise e
  end.

(** ** [decimal.Decimal]

    A finite decimal is a sign, a coefficient and an exponent; the special
    values are the infinities and the NaNs. *)

Inductive Decimal :=
| DFinite (negative : bool) (coefficient : N) (exponent : Z)
| DInfinity (negative : bool)
| DNaN (signaling : bool).

(** [Decimal(0)] *)
Definition Decimal_zero : Decimal := DFinite false 0%N 0%Z.

Definition digits_to_N (s : string) : N :=
  fold_left (fun acc c => (acc * 10 + N.of_nat (code c - 48))%N)
    (list_ascii_of_string s) 0%N.

(** The integer after the exponent marker: an optional sign and digits. *)
Definition parse_exponent (s : string) : option Z :=
  let digits := drop_sign s in
  if negb (String.eqb digits "") && str_forall is_digit digits
  then Some (if startswith "-" s then - Z.of_N (digits_to_N digits)
             else Z.of_N (digits_to_N digits))%Z
  else None.

(** [Decimal(s)] for a string: white space around the text and underscores
    are dropped, letters match in either case.  [InvalidOperation] is
    raised for any other text.  (The limits on the size of the exponent are
    not modelled.) *)
Definition Decimal_of_string (s : string) : result Decimal :=
  let s := str_lower (str_remove "_" (str_strip s)) in
  let negative := startswith "-" s in
  let s := drop_sign s in
  if str_in s ["inf"; "infinity"] then Return (DInfinity negative)
  else if startswith "nan" s && str_forall is_digit (str_drop 3 s)
  then Return (DNaN false)
  else if startswith "snan" s && str_forall is_digit (str_drop 4 s)
  then Return (DNaN true)
  else
    let '(int, rest) := str_span is_digit s in
    let '(frac, rest) :=
      match rest with
      | String c rest' =>
          if Ascii.eqb c "." then str_span is_digit rest' else (EmptyString, rest)
      | EmptyString => (EmptyString, rest)
      end in
    if String.eqb int "" && String.eqb frac "" then Raise InvalidOperation
    else
      let exp :=
        match rest with
        | EmptyString => Some 0%Z
        | String c rest' => if Ascii.eqb c "e" then parse_exponent rest' else None
        end in
      match exp with
      | Some e =>
          Return (DFinite negative (digits_to_N (int +:+ frac))
                    (e - Z.of_nat (String.length frac)))
      | None => Raise InvalidOperation
      end.

(** The coefficient of a finite decimal scaled to the exponent [e], which
    is at most its own: the decimal is that integer times [10^e]. *)
Definition scaled_to (e : Z) (negative : bool) (coefficient : N) (exponent : Z) : Z :=
  ((if negative then -1 else 1) * Z.of_N coefficient * 10 ^ (exponent - e))%Z.

(** [a > b]; an ordering comparison that involves a NaN raises
    [InvalidOperation]. *)
Definition Decimal_gt (a b : Decimal) : result bool :=
  match a, b with
  | DNaN _, _ | _, DNaN _ => Raise InvalidOperation
  | DInfinity na, DInfinity nb => Return (negb na && nb)
  | DInfinity na, DFinite _ _ _ => Return (negb na)
  | DFinite _ _ _, DInfinity nb => Return nb
  | DFinite na ca ea, DFinite nb cb eb =>
      let e := Z.min ea eb in
      Return (scaled_to e nb cb eb <? scaled_to e na ca ea)%Z
  end.

(** The value of a finite decimal as a rational number. *)
Definition Decimal_value (negative : bool) (coefficient : N) (exponent : Z) : Q :=
  let c := ((if negative then -1 else 1) * Z.of_N coefficient)%Z in
  if (0 <=? exponent)%Z then inject_Z (c * 10 ^ exponent)
  else (c # Z.to_pos (10 ^ (- exponent))).

(** ** The price monitor ([price_monitor.py]) *)

(** [re.sub(r'[\$€£¥₹\s]', '', price_str)]: the dollar sign, white space
    and the UTF-8 encodings of the pound and yen signs (two bytes) and of
    the euro and rupee signs (three bytes) are deleted. *)
Fixpoint strip_currency (s : string) : string :=
  match s with
  | EmptyString => EmptyString
  | String c s1 =>
      if Ascii.eqb c "$" || is_space c then strip_currency s1
      else
        match s1 with
        | String c2 s2 =>
            if (code c =? 194)%nat && ((code c2 =? 163)%nat || (code c2 =? 165)%nat)
            then strip_currency s2
            else
              match s2 with
              | String c3 s3 =>
                  if (code c =? 226)%nat && (code c2 =? 130)%nat
                     && ((code c3 =? 172)%nat || (code c3 =? 185)%nat)
                  then strip_currency s3
                  else String c (strip_currency s1)
              | EmptyString => String c (strip_currency s1)
              end
        | EmptyString => String c (strip_currency s1)
        end
  end.

(** The text that [normalize_price] hands to [Decimal]: the separators are
    read as the European or the US format.  [rindex] raises [ValueError]
    when the character does not occur. *)
Definition cleaned_price (price_str : string) : result string :=
  let cleaned := strip_currency price_str in
  if str_has "," cleaned && str_has "." cleaned then
    i ← of_option ValueError (str_rindex "," cleaned);
    j ← of_option ValueError (str_rindex "." cleaned);
    if (j <? i)%nat
    then Return (str_replace "," "." (str_remove "." cleaned))
    else Return (str_remove "," cleaned)
  else if str_has "," cleaned then
    let parts := str_split "," cleaned in
    if (String.length (List.last parts EmptyString) =? 2)%nat
    then Return (str_replace "," "." cleaned)
    else Return (str_remove "," cleaned)
  else Return cleaned.

(** [PriceMonitor.normalize_price(price_str)] *)
Definition normalize_price (price_str : string) : result Decimal :=
  cleaned ← cleaned_price price_str;
  Return (try_except (Decimal_of_string cleaned) Decimal_zero).

(** [needle in text] *)
Fixpoint str_contains (needle text : string) : bool :=
  startswith needle text ||
  match text with
  | EmptyString => false
  | String _ text' => str_contains needle text'
  end.

(** The euro, pound, yen and rupee signs as UTF-8 text. *)
Definition EURO : string := String (ascii_of_nat 226) (String (ascii_of_nat 130) (String (ascii_of_nat 172) "")).
Definition POUND : string := String (ascii_of_nat 194) (String (ascii_of_nat 163) "").
Definition YEN : string := String (ascii_of_nat 194) (String (ascii_of_nat 165) "").
Definition RUPEE : string := String (ascii_of_nat 226) (String (ascii_of_nat 130) (String (ascii_of_nat 185) "")).

Definition CURRENCY_PATTERNS : list (string * string) :=
  [("$", "USD"); (EURO, "EUR"); (POUND, "GBP"); (YEN, "JPY"); (RUPEE, "INR");
   ("USD", "USD"); ("EUR", "EUR"); ("GBP", "GBP")].

(** [extract_currency(text)] *)
Definition extract_currency (text : string) : string :=
  match List.find (fun sc => str_contains (fst sc) text) CURRENCY_PATTERNS with
  | Some (_, code) => code
  | None => "USD"
  end.

(** What the HTML parser and the regular expressions find for one selected
    element: its stripped text; the groups that the price patterns capture
    in it, pattern by pattern; the product name found near it; and, when it
    has a parent, the first price captured in the struck-out text and the
    number of the first discount pattern that matches the parent's text. *)
Record Parent := mkParent {
  strike_match : option string;
  discount_match : option Z
}.

Record Element := mkElement {
  el_text : string;
  el_matches : list string;
  el_product_name : option string;
  el_parent : option Parent
}.

Record PriceData := mkPriceData {
  product_name : string;
  price : Decimal;
  original_price : option Decimal;
  currency : string;
  is_on_sale : bool;
  discount_percent : option Z;
  source_url : string
}.

Section ExtractPrices.
(** [int((1 - float(price) / float(original_price)) * 100)], a
    floating-point computation. *)
Variable float_discount : Decimal -> Decimal -> Z.

(** The original price read from the struck-out text of the parent, and
    the sale flag and discount it implies. *)
Definition strike_info (price : Decimal) (parent : Parent)
    : result (option Decimal * bool * option Z) :=
  match strike_match parent with
  | Some orig =>
      original_price ← normalize_price orig;
      higher ← Decimal_gt original_price price;
      if higher : bool
      then Return (Some original_price, true, Some (float_discount price original_price))
      else Return (Some original_price, false, None)
  | None => Return (None, false, None)
  end.

(** [original_price], [is_on_sale] and [discount_percent] for a price: a
    discount stated in the parent's text overrides the computed one. *)
Definition sale_info (price : Decimal) (parent : option Parent)
    : result (option Decimal * bool * option Z) :=
  match parent with
  | Some parent =>
      found ← strike_info price parent;
      let '(original_price, is_on_sale, discount_percent) := found in
      match discount_match parent with
      | Some d => Return (original_price, true, Some d)
      | None => Return (original_price, is_on_sale, discount_percent)
      end
  | None => Return (None, false, None)
  end.

(** The body of the innermost loop of [extract_prices] for one captured
    group: the record to append, if the price is positive. *)
Definition price_record (url : string) (element : Element) (match_ : string)
    : result (option PriceData) :=
  price ← normalize_price match_;
  positive ← Decimal_gt price Decimal_zero;
  if positive : bool then
    let product_name := el_product_name element in
    let currency := extract_currency (el_text element) in
    sale ← sale_info price (el_parent element);
    let '(original_price, is_on_sale, discount_percent) := sale in
    Return (Some (mkPriceData
      (match product_name with
       | Some name => if String.eqb name "" then "Product on " +:+ url else name
       | None => "Product on " +:+ url
       end)
      price original_price currency is_on_sale discount_percent url))
  else Return None.

(** The loop over the captured groups of one element. *)
Fixpoint element_prices (url : string) (element : Element) (matches : list string)
    (prices : list PriceData) : result (list PriceData) :=
  match matches with
  | [] => Return prices
  | m :: matches' =>
      r ← price_record url element m;
      element_prices url element matches'
        (match r with Some p => prices ++ [p] | None => prices end)
  end.

(** The loop over the selected elements; [found_elements] holds the texts
    already processed. *)
Fixpoint extract_prices_loop (url : string) (elements : list Element)
    (found_elements : gset string) (prices : list PriceData)
    : result (list PriceData) :=
  match elements with
  | [] => Return prices
  | element :: elements' =>
      if bool_decide (el_text element ∈ found_elements)
      then extract_prices_loop url elements' found_elements prices
      else
        prices ← element_prices url element (el_matches element) prices;
        extract_prices_loop url elements' ({[el_text element]} ∪ found_elements) prices
  end.

(** [PriceMonitor.extract_prices(html, url)], on the elements selected
    from [html]. *)
Definition extract_prices (elements : list Element) (url : string)
    : result (list PriceData) :=
  extract_prices_loop url elements ∅ [].
End ExtractPrices.

(** *** Tracking price changes

    [process_prices] compares each extracted price with the latest stored
    price of the same product.  Prices are finite decimals; their
    arithmetic is read as exact arithmetic on rational numbers (for stored
    prices, twelve digits with two decimals, the rounding of [Decimal] and of
    [float] never changes the comparison with the threshold). *)

Inductive PriceChangeType := INCREASE | DECREASE | NEW | DISCONTINUED.

Inductive AlertSeverity := SEV_LOW | SEV_MEDIUM | SEV_HIGH | SEV_CRITICAL.

(** [self.price_change_threshold = 0.01] *)
Definition price_change_threshold : Q := 1 # 100.

(** The arguments of the call [PriceAlert(...)] (the identifier of the new
    price row apart). *)
Record PriceAlert := mkPriceAlert {
  change_type : PriceChangeType;
  old_price : option Q;
  new_price : Q;
  change_percent : option Q
}.

(** The arguments of the call [Alert(...)] that the comparison decides:
    the severity and the title. *)
Record Alert := mkAlert {
  severity : AlertSeverity;
  title : string
}.

(** The entry appended to [results['alerts']]. *)
Record AlertEntry := mkAlertEntry {
  ae_product : string;
  ae_old_price : Q;
  ae_new_price : Q;
  ae_change_percent : Q
}.

Record Results := mkResults {
  res_new : Z;
  res_updated : Z;
  res_unchanged : Z;
  res_alerts : list AlertEntry
}.

(** [round(x, 2)], to the nearest hundredth, ties to even. *)
Definition round2 (x : Q) : Q :=
  let y := (x * 100)%Q in
  let f := Qfloor y in
  let r := (y - inject_Z f)%Q in
  let n :=
    if Qle_bool r (1 # 2) && negb (Qeq_bool r (1 # 2)) then f
    else if Qeq_bool r (1 # 2) then (if Z.even f then f else f + 1)%Z
    else (f + 1)%Z in
  (n # 100).

Section ProcessPrices.
(** The persistence layer: building a [PriceAlert] or an [Alert] row from
    the given arguments and adding it to the session.  What the object
    relational mapper does with the arguments is outside this file. *)
Variable PriceAlert_add : PriceAlert -> result unit.
Variable Alert_add : Alert -> result unit.
(** The value that the price column, a [Numeric(12, 2)], keeps of a price. *)
Variable Numeric_12_2 : Q -> Q.

(** The body of the loop of [process_prices] after the new price row has
    been stored: [existing] is the latest stored price of the product, if
    any.  Returns the updated [results].  Dividing by a stored price of
    zero raises. *)
Definition process_price (existing : option Q) (name : string) (new_price_val : Q)
    (results : Results) : result Results :=
  match existing with
  | Some old_price =>
      if negb (Qeq_bool old_price new_price_val) then
        if Qeq_bool old_price 0 then Raise ZeroDivisionError
        else
          let change_percent := ((new_price_val - old_price) / old_price * 100)%Q in
          if Qle_bool (price_change_threshold * 100) (Qabs change_percent) then
            let change_type :=
              if Qle_bool change_percent 0 then DECREASE else INCREASE in
            _ ← PriceAlert_add
                  (mkPriceAlert change_type (Some old_price) new_price_val
                     (Some (round2 change_percent)));
            let severity :=
              if Qle_bool (Qabs change_percent) 10 then SEV_MEDIUM else SEV_HIGH in
            _ ← Alert_add
                  (mkAlert severity
                     ((if Qle_bool change_percent 0
                       then "Price Decreased: " else "Price Increased: ")
                      +:+ str_take 50 name));
            Return (mkResults (res_new results) (res_updated results + 1)
                      (res_unchanged results)
                      (res_alerts results ++
                         [mkAlertEntry name old_price new_price_val change_percent]))
          else
            Return (mkResults (res_new results) (res_updated results)
                      (res_unchanged results + 1) (res_alerts results))
      else
        Return (mkResults (res_new results) (res_updated results)
                  (res_unchanged results + 1) (res_alerts results))
  | None =>
      _ ← PriceAlert_add (mkPriceAlert NEW None new_price_val None);
      Return (mkResults (res_new results + 1) (res_updated results)
                (res_unchanged results) (res_alerts results))
  end.

(** [process_prices] over the extracted prices: each price is stored, then
    compared with the row that was the latest before it.  [db] holds the
    stored price rows of the competitor, latest first. *)
Fixpoint process_prices (extracted : list (string * Q)) (db : list (string * Q))
    (results : Results) : result (list (string * Q) * Results) :=
  match extracted with
  | [] => Return (db, results)
  | (name, new_price_val) :: extracted' =>
      let existing := snd <$> List.find (fun row => String.eqb (fst row) name) db in
      let db := (name, Numeric_12_2 new_price_val) :: db in
      results ← process_price existing name new_price_val results;
      process_prices extracted' db results
  end.
End ProcessPrices.

(** ** Saving and restoring the crawl state ([crawl_queue.py]) *)

(** [CrawlQueue.get_stats()] *)
Record Stats := mkStats {
  stats_pending : Z;
  stats_in_progress : Z;
  stats_completed : Z;
  stats_failed : Z;
  stats_total_seen : Z;
  stats_max_urls : Z
}.

Definition get_stats (q : CrawlQueue) : Stats :=
  mkStats (pending_count q) (in_progress_count q) (completed_count q)
    (failed_count q) (total_seen q) (max_urls q).

(** What [save_state] keeps of a queued item. *)
Record ItemData := mkItemData {
  data_url : string;
  data_priority : Z;
  data_depth : Z;
  data_retries : Z
}.

Definition item_data (item : CrawlItem) : ItemData :=
  mkItemData (url item) (priority item) (depth item) (retries item).

(** The dictionary that [save_state] builds.  The scan identifier is a
    UUID, a 128-bit number; [timestamp] is the reading of the clock. *)
Record SavedState := mkSavedState {
  state_scan_id : N;
  state_timestamp : Z;
  state_queue : list ItemData;
  state_completed : list string;
  state_failed : gmap string string;
  state_stats : Stats
}.

(** [CrawlStateManager._states] *)
Definition CrawlStateManager : Type := gmap N SavedState.

(** [save_state(scan_id, queue)]: the state and the manager holding it. *)
Definition save_state (states : CrawlStateManager) (scan_id : N) (queue : CrawlQueue)
    (now : Z) : SavedState * CrawlStateManager :=
  let state :=
    mkSavedState scan_id now (item_data <$> _queue queue)
      (elements (_completed queue)) (_failed queue) (get_stats queue) in
  (state, <[scan_id := state]> states).

(** The item that [restore_state] builds from saved data: no referrer, no
    metadata, and a new [added_at]. *)
Definition restored_item (now : Z) (d : ItemData) : CrawlItem :=
  mkCrawlItem (data_priority d) (data_url d) (data_depth d) None now (data_retries d) ∅.

(** [restore_state(scan_id, queue)]: [False] and the queue as it was for an
    unknown scan; otherwise the queue is cleared and filled from the saved
    state, past the admission checks of [add]. *)
Definition restore_state (states : CrawlStateManager) (scan_id : N) (queue : CrawlQueue)
    (now : Z) : bool * CrawlQueue :=
  match states !! scan_id with
  | None => (false, queue)
  | Some state =>
      let queue := clear queue in
      let queue :=
        fold_left (fun q u =>
                     set_completed (set_seen q ({[u]} ∪ _seen q)) ({[u]} ∪ _completed q))
          (state_completed state) queue in
      let queue := set_failed queue (state_failed state) in
      let queue :=
        fold_left (fun q u => set_seen q ({[u]} ∪ _seen q))
          (fst <$> map_to_list (_failed queue)) queue in
      let queue :=
        fold_left (fun q d =>
                     let item := restored_item now d in
                     let q := set_seen q ({[url item]} ∪ _seen q) in
                     set_queue q (heapq.heappush CrawlItem_lt (_queue q) item))
          (state_queue state) queue in
      (true, queue)
  end.

(** [clear_state(scan_id)]: [pop] with a default, so an unknown scan is no
    error. *)
Definition clear_state (states : CrawlStateManager) (scan_id : N) : CrawlStateManager :=
  delete scan_id states.

(** ** Integers in base 16 *)

(** The digit of [d < 16], in lower case as [format(n, 'x')] writes it. *)
Definition hex_char (d : N) : ascii :=
  if (d <? 10)%N then ascii_of_N (48 + d) else ascii_of_N (87 + d).

(** The digits of [n], most significant first, put before [acc]; a number
    has no more hexadecimal digits than bits. *)
Fixpoint to_hex_loop (fuel : nat) (n : N) (acc : string) : string :=
  match fuel with
  | O => acc
  | S fuel' =>
      if (n =? 0)%N then acc
      else to_hex_loop fuel' (n / 16)%N (String (hex_char (n mod 16)%N) acc)
  end.

Definition to_hex (n : N) : string :=
  if (n =? 0)%N then "0" else to_hex_loop (N.to_nat (N.size n)) n "".

Fixpoint str_repeat (c : ascii) (k : nat) : string :=
  match k with
  | O => EmptyString
  | S k' => String c (str_repeat c k')
  end.

(** [format(n, '0{width}x')] for [n >= 0]: at least [width] digits, padded
    with zeros on the left. *)
Definition format_hex (width : nat) (n : N) : string :=
  str_repeat "0" (width - String.length (to_hex n)) +:+ to_hex n.

(** Hexadecimal digits in which single underscores may separate digits;
    [after_digit] tells that an underscore may come next. *)
Fixpoint hex_digits_from (after_digit : bool) (acc : N) (s : string) : option N :=
  match s with
  | EmptyString => if after_digit then Some acc else None
  | String c s' =>
      match hex_value c with
      | Some d => hex_digits_from true (acc * 16 + N.of_nat d)%N s'
      | None =>
          if Ascii.eqb c "_" && after_digit then hex_digits_from false acc s'
          else None
      end
  end.

(** The white space that [int] strips: tab to carriage return, and the
    space. *)
Definition is_int_space (c : ascii) : bool :=
  in_range 9 13 c || Ascii.eqb c " ".

(** [int(s, 16)]: white space around the text is dropped; a sign and the
    prefix [0x] are optional, and one underscore may follow the prefix;
    anything else raises [ValueError]. *)
Definition int_base16 (s : string) : result Z :=
  let s := str_rstrip is_int_space (str_lstrip is_int_space s) in
  let negative := startswith "-" s in
  let s := drop_sign s in
  let digits :=
    if startswith "0x" s || startswith "0X" s then
      match str_drop 2 s with
      | String c s' => if Ascii.eqb c "_" then s' else String c s'
      | EmptyString => EmptyString
      end
    else s in
  match digits with
  | String c _ =>
      if Ascii.eqb c "_" then Raise ValueError
      else
        match hex_digits_from false 0 digits with
        | Some n => Return (if negative then - Z.of_N n else Z.of_N n)%Z
        | None => Raise ValueError
        end
  | EmptyString => Raise ValueError
  end.

(** [bin(z).count('1')]: the number of ones in the binary digits of the
    absolute value. *)
Fixpoint popcount_pos (p : positive) : nat :=
  match p with
  | xH => 1
  | xO p' => popcount_pos p'
  | xI p' => S (popcount_pos p')
  end.

Definition popcount (z : Z) : nat :=
  match z with
  | Z0 => 0
  | Zpos p | Zneg p => popcount_pos p
  end.

(** ** Similarity fingerprints ([crawl_utils.py]) *)

(** [Counter(items)]: the distinct items with their counts, in the order
    in which they were first met. *)
Fixpoint counter_add (counts : list (string * nat)) (x : string) : list (string * nat) :=
  match counts with
  | [] => [(x, 1)]
  | (k, c) :: counts' =>
      if String.eqb k x then (k, S c) :: counts'
      else (k, c) :: counter_add counts' x
  end.

Definition Counter (items : list string) : list (string * nat) :=
  fold_left counter_add items [].

(** The place of an entry in a list sorted by decreasing count: behind the
    entries that count as much. *)
Fixpoint insert_by_count (x : string * nat) (sorted : list (string * nat))
    : list (string * nat) :=
  match sorted with
  | [] => [x]
  | y :: sorted' =>
      if snd y <? snd x then x :: sorted
      else y :: insert_by_count x sorted'
  end.

(** [counter.most_common(n)]: the [n] entries with the highest counts,
    highest first; entries with equal counts stay in the order in which they
    were first met. *)
Definition most_common (n : nat) (counts : list (string * nat)) : list (string * nat) :=
  take n (fold_left (fun sorted x => insert_by_count x sorted) counts []).

(** [[' '.join(words[i:i+3]) for i in range(len(words) - 2)]] *)
Fixpoint ngrams3 (words : list string) : list string :=
  match words with
  | a :: (b :: c :: _) as rest => str_join " " [a; b; c] :: ngrams3 rest
  | _ => []
  end.

(** [ContentFingerprinter._extract_phrases(text, n)] *)
Definition _extract_phrases (text : string) (n : nat) : list string :=
  let words := str_words text in
  if length words <? 3 then words
  else fst <$> most_common n (Counter (ngrams3 words)).

(** One turn of the outer loop of [_simhash]: the counter of every bit
    goes up when the bit is set in [h] and down when it is not. *)
Definition simhash_vote (v : list Z) (h : N) : list Z :=
  imap (fun i x => if N.testbit h (N.of_nat i) then x + 1 else x - 1)%Z v.

(** The second loop of [_simhash]: the bits whose counter is not
    negative. *)
Definition simhash_bits (bits : nat) (v : list Z) : N :=
  fold_left (fun fingerprint i =>
               if bool_decide (0 <= v !!! i)%Z
               then N.lor fingerprint (N.shiftl 1 (N.of_nat i))
               else fingerprint)
    (seq 0 bits) 0%N.

Record Fingerprints := mkFingerprints {
  fp_full_hash : string;
  fp_simhash : string;
  fp_phrase_hash : string;
  fp_word_count : Z;
  fp_char_count : Z
}.

Section Similarity.
(** [hashlib.sha256(b).hexdigest()], and the digest of MD5 as a number,
    [int(hashlib.md5(b).hexdigest(), 16)], whose [hexdigest] is that number
    in 32 hexadecimal digits: external primitives. *)
Variable sha256_hexdigest : string -> string.
Variable md5 : string -> N.

(** [ContentFingerprinter._simhash(text, bits)] *)
Definition _simhash (text : string) (bits : nat) : string :=
  let features := str_words text in
  let v := fold_left (fun v feature => simhash_vote v (md5 feature)) features
             (replicate bits 0%Z) in
  format_hex (bits / 4) (simhash_bits bits v).

(** [ContentFingerprinter.generate(text)] with all its fields. *)
Definition generate_all (text : string) : Fingerprints :=
  let normalized := _normalize_text text in
  mkFingerprints
    (sha256_hexdigest normalized)
    (_simhash normalized 64)
    (format_hex 32 (md5 (str_join " " (_extract_phrases normalized 10))))
    (Z.of_nat (length (str_words normalized)))
    (Z.of_nat (String.length normalized)).
End Similarity.

(** [ContentFingerprinter.compare(fp1, fp2)]: [1.0] for equal full hashes,
    otherwise one minus the share of the 64 bits in which the simhashes
    differ.  The division by 64 and the subtraction are exact in floating
    point. *)
Definition compare (fp1 fp2 : Fingerprints) : result Q :=
  if String.eqb (fp_full_hash fp1) (fp_full_hash fp2) then Return 1%Q
  else
    h1 ← int_base16 (fp_simhash fp1);
    h2 ← int_base16 (fp_simhash fp2);
    let distance := popcount (Z.lxor h1 h2) in
    Return (1 - inject_Z (Z.of_nat distance) / 64)%Q.

(** ** URL utilities and link extraction ([crawl_utils.py]) *)

Definition SKIP_EXTENSIONS : list string :=
  [".pdf"; ".doc"; ".docx"; ".xls"; ".xlsx"; ".ppt"; ".pptx";
   ".zip"; ".rar"; ".tar"; ".gz"; ".7z";
   ".jpg"; ".jpeg"; ".png"; ".gif"; ".webp"; ".svg"; ".ico";
   ".mp3"; ".mp4"; ".avi"; ".mov"; ".wmv"; ".flv";
   ".css"; ".js"; ".json"; ".xml";
   ".exe"; ".dmg"; ".apk"].

(** [any(x in url_lower for x in needles)] *)
Definition contains_any (needles : list string) (text : string) : bool :=
  existsb (fun x => str_contains x text) needles.

(** [LinkExtractor._categorize_link(url, element)]; of the element only
    its text is read, and the text is not used. *)
Definition _categorize_link (url : string) (element_text : string) : string :=
  let url_lower := str_lower url in
  let text := str_lower element_text in
  if contains_any ["/about"; "/contact"; "/team"; "/careers"] url_lower then "navigation"
  else if contains_any ["/product"; "/shop"; "/store"; "/item"; "/buy"] url_lower
  then "product"
  else if contains_any ["/blog"; "/post"; "/article"; "/news"] url_lower then "content"
  else if contains_any ["/pricing"; "/plans"; "/subscribe"] url_lower then "pricing"
  else if contains_any ["/docs"; "/help"; "/support"; "/faq"] url_lower
  then "documentation"
  else if contains_any ["/login"; "/signup"; "/register"; "/signin"] url_lower then "auth"
  else "general".

(** An [a] element with an [href]: the attribute, the stripped text and
    the values of [rel]. *)
Record Anchor := mkAnchor {
  href : string;
  anchor_text : string;
  rel : list string
}.

(** An entry of the list that [extract_links] returns. *)
Record Link := mkLink {
  link_url : string;
  link_text : string;
  link_type : string;
  is_internal : bool;
  link_depth : nat;
  nofollow : bool
}.

(** [not href or href.startswith(('javascript:', 'mailto:', 'tel:', '#'))] *)
Definition skipped_href (href : string) : bool :=
  String.eqb href ""
  || startswith "javascript:" href || startswith "mailto:" href
  || startswith "tel:" href || startswith "#" href.

Section URLUtilities.
Variable urljoin : string -> string -> string.
Variable bracketed_netloc_ok : string -> bool.

(** [URLNormalizer.get_domain(url)]; [None] is the [ValueError] of
    [urlparse]. *)
Definition get_domain (url : string) : option string :=
  parsed ← urlparse bracketed_netloc_ok url;
  Some (str_lower (pr_netloc parsed)).

(** [URLNormalizer.is_same_domain(url1, url2)] *)
Definition is_same_domain (url1 url2 : string) : option bool :=
  domain1 ← get_domain url1;
  domain2 ← get_domain url2;
  Some (String.eqb domain1 domain2).

(** [URLNormalizer.get_url_depth(url)] *)
Definition get_url_depth (url : string) : option nat :=
  parsed ← urlparse bracketed_netloc_ok url;
  let path := str_rstrip (Ascii.eqb "/") (str_lstrip (Ascii.eqb "/") (pr_path parsed)) in
  Some (if String.eqb path "" then 0 else length (str_split "/" path)).

(** The loop of [extract_links] over the anchors; [None] is a [ValueError]
    raised by [urlparse] on one of the links. *)
Fixpoint extract_links_loop (base_url base_domain : string) (same_domain_only : bool)
    (anchors : list Anchor) (seen : gset string) (links : list Link)
    : option (list Link) :=
  match anchors with
  | [] => Some links
  | a :: anchors' =>
      let href := str_strip (href a) in
      if skipped_href href
      then extract_links_loop base_url base_domain same_domain_only anchors' seen links
      else
        normalized ← normalize urljoin bracketed_netloc_ok href (Some base_url);
        if bool_decide (normalized ∈ seen)
        then extract_links_loop base_url base_domain same_domain_only anchors' seen links
        else
          let lower_normalized := str_lower normalized in
          if existsb (fun ext => endswith ext lower_normalized) SKIP_EXTENSIONS
          then extract_links_loop base_url base_domain same_domain_only anchors' seen links
          else
            link_domain ← get_domain normalized;
            if same_domain_only && negb (String.eqb link_domain base_domain)
            then extract_links_loop base_url base_domain same_domain_only anchors' seen links
            else
              let link_type := _categorize_link normalized (anchor_text a) in
              depth ← get_url_depth normalized;
              extract_links_loop base_url base_domain same_domain_only anchors'
                ({[normalized]} ∪ seen)
                (links ++ [mkLink normalized (str_take 200 (anchor_text a)) link_type
                             (String.eqb link_domain base_domain) depth
                             (str_in "nofollow" (rel a))])
  end.

(** [LinkExtractor.extract_links(html, base_url, same_domain_only)] on the
    anchors found in [html]. *)
Definition extract_links (anchors : list Anchor) (base_url : string)
    (same_domain_only : bool) : option (list Link) :=
  base_domain ← get_domain base_url;
  extract_links_loop base_url base_domain same_domain_only anchors ∅ [].
End URLUtilities.

(** ** URL priorities ([crawl_queue.py]) *)

(** The regular expressions of [PRIORITY_PATTERNS] are sequences of these
    items: a literal character, an optional character [c?], digits [\d+],
    any text on one line [.*], and the end of the text [$]. *)
Inductive re_item :=
| Lit (c : ascii)
| Opt (c : ascii)
| Digits
| AnyText
| End.

(** A pattern; [from_start] tells that it begins with [^]. *)
Record Pattern := mkPattern {
  from_start : bool;
  items : list re_item
}.

Definition lits (s : string) : list re_item := Lit <$> list_ascii_of_string s.

(** Whether the items match a prefix of [s]. *)
Fixpoint match_here (p : list re_item) (s : string) {struct p} : bool :=
  match p with
  | [] => true
  | Lit c :: p' =>
      match s with
      | String d s' => Ascii.eqb c d && match_here p' s'
      | EmptyString => false
      end
  | Opt c :: p' =>
      match_here p' s
      || match s with
         | String d s' => Ascii.eqb c d && match_here p' s'
         | EmptyString => false
         end
  | Digits :: p' =>
      (fix digits (s : string) : bool :=
         match s with
         | String d s' => is_digit d && (match_here p' s' || digits s')
         | EmptyString => false
         end) s
  | AnyText :: p' =>
      (fix any (s : string) : bool :=
         match_here p' s
         || match s with
            | String d s' => negb (Ascii.eqb d LF) && any s'
            | EmptyString => false
            end) s
  | End :: p' =>
      (String.eqb s "" || String.eqb s (String LF "")) && match_here p' s
  end.

Fixpoint search_from (p : list re_item) (s : string) : bool :=
  match_here p s
  || match s with
     | String _ s' => search_from p s'
     | EmptyString => false
     end.

(** [bool(re.search(pattern, s))] *)
Definition re_search (p : Pattern) (s : string) : bool :=
  if from_start p then match_here (items p) s else search_from (items p) s.

Definition anywhere (s : string) : Pattern := mkPattern false (lits s).

Definition PRIORITY_PATTERNS : list (CrawlPriority * list Pattern) :=
  [(CRITICAL,
    [mkPattern true (lits "/" ++ [End]);
     mkPattern true (lits "/home" ++ [Opt "/"; End]);
     mkPattern true (lits "/index.htm" ++ [Opt "l"; End])]);
   (HIGH,
    [anywhere "/pricing"; anywhere "/plans";
     mkPattern false (lits "/product" ++ [Opt "s"; Lit "/"]);
     anywhere "/features"; anywhere "/shop"; anywhere "/store"; anywhere "/buy"]);
   (MEDIUM,
    [anywhere "/blog/";
     mkPattern false (lits "/post" ++ [Opt "s"; Lit "/"]);
     mkPattern false (lits "/article" ++ [Opt "s"; Lit "/"]);
     anywhere "/news/"; anywhere "/case-study"; anywhere "/solutions"]);
   (LOW,
    [anywhere "/about"; anywhere "/team"; anywhere "/careers"; anywhere "/contact";
     anywhere "/privacy"; anywhere "/terms"; anywhere "/legal"; anywhere "/docs/";
     anywhere "/help/"; anywhere "/support/"; anywhere "/faq"]);
   (DEFERRED,
    [anywhere "/tag/"; anywhere "/category/"; anywhere "/author/";
     mkPattern false (lits "/page/" ++ [Digits]);
     mkPattern false (lits "?" ++ [AnyText] ++ lits "page=");
     anywhere "/archive/"])].

(** [type_priorities.get(link_type, CrawlPriority.MEDIUM)] *)
Definition type_priority (link_type : string) : CrawlPriority :=
  if String.eqb link_type "pricing" then HIGH
  else if String.eqb link_type "product" then HIGH
  else if String.eqb link_type "content" then MEDIUM
  else if String.eqb link_type "documentation" then LOW
  else if String.eqb link_type "navigation" then LOW
  else if String.eqb link_type "auth" then DEFERRED
  else MEDIUM.

(** The priority of the first tier one of whose patterns is found in
    [path]. *)
Definition pattern_priority (path : string) : option CrawlPriority :=
  fst <$> List.find (fun tier => existsb (fun p => re_search p path) (snd tier))
            PRIORITY_PATTERNS.

Section URLPrioritizer.
Variable bracketed_netloc_ok : string -> bool.

(** [URLPrioritizer.get_priority(url, link_type)]; [None] is the
    [ValueError] of [urlparse]. *)
Definition get_priority (url : string) (link_type : option string)
    : option CrawlPriority :=
  parsed ← urlparse bracketed_netloc_ok url;
  let path := str_lower (pr_path parsed) in
  match pattern_priority path with
  | Some priority => Some priority
  | None =>
      match link_type with
      | Some t => if String.eqb t "" then Some MEDIUM else Some (type_priority t)
      | None => Some MEDIUM
      end
  end.
End URLPrioritizer.

(** ** Wildcards in robots rules ([crawl_utils.py]) *)

(** The regular expression that [_matches] builds from a pattern with a
    wildcard: [re.escape] makes every character a literal, each [*] becomes
    [.*], and a [$] that ends the pattern becomes the end of the text. *)
Fixpoint wildcard_items (pattern : string) : list re_item :=
  match pattern with
  | EmptyString => []
  | String c rest =>
      (if Ascii.eqb c "*" then AnyText
       else if Ascii.eqb c "$" && String.eqb rest "" then End
       else Lit c) :: wildcard_items rest
  end.

(** [bool(re.match(regex, path))] for that expression. *)
Definition wildcard_match (pattern path : string) : bool :=
  match_here (wildcard_items pattern) path.

(** * The vocabulary of the properties *)

(** ** Sequences of calls on a queue *)

(** The operations of the queue as data, to speak of sequences of calls. *)
Inductive Op :=
| OpAdd (u : string) (p : CrawlPriority) (d : Z) (ref : option string)
    (md : option (gmap string string)) (now : Z)
| OpGet
| OpComplete (u : string)
| OpFail (u error : string) (item : option CrawlItem) (now : Z)
| OpRelease (u : string)
| OpClear.

Definition step (q : CrawlQueue) (op : Op) : CrawlQueue :=
  match op with
  | OpAdd u p d ref md now => snd (add q u p d ref md now)
  | OpGet => snd (get q)
  | OpComplete u => complete q u
  | OpFail u error item now => fail q u error item now
  | OpRelease u => release q u
  | OpClear => clear q
  end.

Definition run (q : CrawlQueue) (ops : list Op) : CrawlQueue := fold_left step ops q.

Definition is_clear (op : Op) : bool :=
  match op with OpClear => true | _ => false end.

Definition is_fail (op : Op) : bool :=
  match op with OpFail _ _ _ _ => true | _ => false end.

(** The states of a queue: those reached from a fresh queue by any calls. *)
Inductive reachable : CrawlQueue -> Prop :=
| reachable_init md mr mu : reachable (CrawlQueue_init md mr mu)
| reachable_step q op : reachable q -> reachable (step q op).

(** The protocol of a crawl session: a URL is handed out by [get], then
    reported once, by [complete], [fail] or [release].  In particular
    [fail] is called for a URL that is in progress. *)
Definition legal (q : CrawlQueue) (op : Op) : Prop :=
  match op with
  | OpFail u _ _ _ => u ∈ _in_progress q
  | _ => True
  end.

Inductive in_protocol : CrawlQueue -> Prop :=
| in_protocol_init md mr mu : in_protocol (CrawlQueue_init md mr mu)
| in_protocol_step q op : in_protocol q -> legal q op -> in_protocol (step q op).

(** What the protocol maintains: a URL is queued at most once, a queued URL
    is not in progress, and whatever is queued or in progress has been
    seen. *)
Definition tracked (q : CrawlQueue) : Prop :=
  NoDup (url <$> _queue q)
  /\ (forall x, x ∈ _queue q -> url x ∉ _in_progress q)
  /\ (forall x, x ∈ _queue q -> url x ∈ _seen q)
  /\ _in_progress q ⊆ _seen q.

(** A fetch that fails, as the fetch executor reports it: the next item is
    taken with [get] and handed back with [fail]. *)
Definition fetch_failed (q : CrawlQueue) (error : string) (now : Z) : CrawlQueue :=
  match get q with
  | (Some item, q1) => fail q1 (url item) error (Some item) now
  | (None, q1) => q1
  end.

(** The three reasons for which [add] refuses a URL. *)
Definition add_refused (q : CrawlQueue) (u : string) (d : Z) : Prop :=
  (max_urls q <= total_seen q)%Z \/ (max_depth q < d)%Z \/ u ∈ _seen q.

(** An item that [get] may hand out: neither completed nor in progress. *)
Definition eligible (q : CrawlQueue) (x : CrawlItem) : Prop :=
  (url x ∉ _completed q) /\ (url x ∉ _in_progress q).

(** ** The heap invariant

    The items are ordered by an integer key (for a [CrawlItem], its
    priority).  [heap_ok] is the invariant of [heapq]: no item is smaller
    than its parent. *)

Definition parent (i : nat) : nat := (i - 1) / 2.

Section heap_vocabulary.
Context {A : Type} (key : A -> Z).

Definition key_lt (a b : A) : bool := (key a <? key b)%Z.

Definition heap_ok (h : list A) : Prop :=
  forall i x p, 0 < i -> h !! i = Some x -> h !! parent i = Some p ->
    (key p <= key x)%Z.

(** The state of [_siftdown] while [newitem] travels up: position [k] is a
    hole that [newitem] would fill.  With [newitem] in the hole, every item
    but the one in the hole respects its parent, and the children of the
    hole respect the parent of the hole. *)
Definition sd_inv (h : list A) (k : nat) (newitem : A) : Prop :=
  (forall i x p, 0 < i -> i ≠ k ->
     <[k := newitem]> h !! i = Some x -> <[k := newitem]> h !! parent i = Some p ->
     (key p <= key x)%Z)
  /\ (forall c x p, 0 < k -> 0 < c -> parent c = k ->
        h !! c = Some x -> h !! parent k = Some p -> (key p <= key x)%Z).

(** The state of [_siftup] while the hole travels down: every item whose
    parent is not the hole respects its parent, and the children of the
    hole respect the parent of the hole. *)
Definition su_inv (h : list A) (k : nat) : Prop :=
  (forall i x p, 0 < i -> parent i ≠ k ->
     h !! i = Some x -> h !! parent i = Some p -> (key p <= key x)%Z)
  /\ (forall c x p, 0 < k -> 0 < c -> parent c = k ->
        h !! c = Some x -> h !! parent k = Some p -> (key p <= key x)%Z).
End heap_vocabulary.

(** The heap invariant on the queue: the priority is the key. *)
Definition queue_ok (q : CrawlQueue) : Prop := heap_ok priority (_queue q).

(** ** Sample states of the queue *)

(** Four URLs admitted in this order at one tier. *)
Definition four_medium : CrawlQueue :=
  snd (add_many (CrawlQueue_init 5 3 1000) ["a"; "b"; "c"; "d"] MEDIUM 0 None 0).

(** A queue with a LOW and a CRITICAL URL, admitted in this order. *)
Definition low_then_critical : CrawlQueue :=
  run (CrawlQueue_init 5 3 1000)
    [OpAdd "low" LOW 0 None None 0; OpAdd "critical" CRITICAL 0 None None 1].

(** A HIGH URL handed out by [get] on a fresh queue, and its item. *)
Definition high_in_progress : CrawlQueue :=
  run (CrawlQueue_init 5 3 1000) [OpAdd "p" HIGH 0 None None 0; OpGet].

Definition high_item : CrawlItem := mkCrawlItem 1 "p" 0 None 0 0 ∅.

(** The same URL on its last try: three retries have been used. *)
Definition last_try : CrawlItem := mkCrawlItem 4 "p" 0 None 0 3 ∅.

(** A queue that allows no retry, with one URL queued. *)
Definition no_retry_queued : CrawlQueue :=
  run (CrawlQueue_init 5 0 1000) [OpAdd "p" HIGH 0 None None 0].

(** A queue that allows one retry, in which the item handed out is reported
    failed twice. *)
Definition reported_twice : CrawlQueue :=
  run (CrawlQueue_init 5 1 1000)
    [OpAdd "p" HIGH 0 None None 0; OpGet;
     OpFail "p" "timeout" (Some high_item) 1;
     OpFail "p" "timeout" (Some high_item) 2].

(** ** Prices *)

(** The relative change of a price, as a fraction of the old price. *)
Definition relative_delta (old_price new_price : Q) : Q :=
  ((new_price - old_price) / old_price)%Q.

(** The characters that the price patterns capture: digits, the two
    separators and white space. *)
Definition price_char (c : ascii) : bool :=
  is_digit c || Ascii.eqb c "," || Ascii.eqb c "." || is_space c.

Definition price_text (s : string) : bool := str_forall price_char s.

(** The elements whose captured groups, struck-out prices included, are
    made of such characters: what the patterns of [PRICE_PATTERNS] yield. *)
Definition captured_by_patterns (element : Element) : Prop :=
  Forall (fun m => price_text m = true) (el_matches element)
  /\ forall parent orig,
       el_parent element = Some parent -> strike_match parent = Some orig ->
       price_text orig = true.

Definition is_finite (d : Decimal) : Prop :=
  match d with DFinite _ _ _ => True | _ => False end.

(** A record whose price is above zero. *)
Definition positive (p : PriceData) : Prop :=
  Decimal_gt (price p) Decimal_zero = Return true.

Definition digit_or_dot (c : ascii) : bool := is_digit c || Ascii.eqb c ".".

Definition digit_or_sep (c : ascii) : bool := digit_or_dot c || Ascii.eqb c ",".

(** An element with three captured groups: a price, a zero, and text that
    is not a number. *)
Definition sample_element : Element :=
  mkElement "$19.99" ["19.99"; "0.00"; "1.2.3"] (Some "Pro") None.

(** ** Text *)

(** A pad is nothing or one space: what the collapse of white space may
    leave at either end of the words. *)
Definition is_pad (s : string) : Prop := s = "" \/ s = " ".

(** Two layouts of the same words. *)
Definition two_lines : string :=
  "  Plans   and" +:+ String LF "pricing " +:+ String (ascii_of_nat 9) "".

(** A robots.txt file with a block for every crawler and a block for
    another one. *)
Definition robots_two_blocks : string :=
  str_join (String LF "")
    ["User-agent: *"; "Disallow: /private"; "";
     "User-agent: otherbot"; "Disallow: /"; "Crawl-delay: 30"].

(** ** More sample states of the queue *)

(** A session in which one URL has been completed, one has failed for good,
    one is in progress and two are queued. *)
Definition mid_session : CrawlQueue :=
  run (CrawlQueue_init 5 0 1000)
    [OpAdd "done" CRITICAL 0 None None 0; OpAdd "bad" CRITICAL 0 None None 1;
     OpAdd "busy" HIGH 1 (Some "done") None 2; OpAdd "next" MEDIUM 1 None None 3;
     OpAdd "later" LOW 2 None None 4;
     OpGet; OpComplete "done";
     OpGet; OpFail "bad" "timeout" (Some (mkCrawlItem 0 "bad" 0 None 1 0 ∅)) 5;
     OpGet].

(** ** Robots files *)

(** The user agents that a robots.txt file names, in the order of its
    [User-agent] lines: the [current_agents] of [_parse] at the end. *)
Definition agents_named (content : string) : list string :=
  snd (fold_left _parse_line (str_split LF content) (mkRobotsRule "*" [] [] None [], [])).

(** A robots.txt file that addresses another crawler only. *)
Definition robots_other_only : string :=
  str_join (String LF "")
    ["# staging"; "User-agent: otherbot"; "Disallow: /"; "Crawl-delay: 30";
     "Sitemap: https://ex.com/sitemap.xml"].

(** ** Hexadecimal text *)

(** [hex_str s v k]: the text [s] is [k] lower-case hexadecimal digits
    that spell the number [v]. *)
Inductive hex_str : string -> N -> nat -> Prop :=
| hex_str_nil : hex_str "" 0 0
| hex_str_cons d s v k :
    (d < 16)%N -> hex_str s v k ->
    hex_str (String (hex_char d) s) (d * 16 ^ N.of_nat k + v) (S k).

(** ** Phrases *)

(** How often [x] occurs in [l]. *)
Fixpoint occurrences (x : string) (l : list string) : nat :=
  match l with
  | [] => 0
  | y :: l' => (if String.eqb y x then 1 else 0) + occurrences x l'
  end.

(** [counter_of counts l]: [counts] holds each item of [l] once, with the
    number of its occurrences. *)
Definition counter_of (counts : list (string * nat)) (l : list string) : Prop :=
  NoDup (fst <$> counts)
  /\ (forall k, k ∈ fst <$> counts <-> k ∈ l)
  /\ (forall k c, (k, c) ∈ counts -> c = occurrences k l).

(** Entries in the order of decreasing counts. *)
Definition by_count : list (string * nat) -> Prop :=
  StronglySorted (fun a b => snd b <= snd a).

(** ** URLs *)

(** Text in which the character [c] does not occur. *)
Definition without (c : ascii) (s : string) : bool :=
  str_forall (fun d => negb (Ascii.eqb d c)) s.

(** The characters that [quote_plus] writes. *)
Definition quoted_char (c : ascii) : bool :=
  always_safe c || str_has c "+%" || is_digit c || in_range 65 70 c.

(** ** Patterns *)

(** A pattern made of literal and optional characters up to an [$]. *)
Fixpoint ends_text (p : list re_item) : bool :=
  match p with
  | Lit _ :: p' | Opt _ :: p' => ends_text p'
  | End :: _ => true
  | _ => false
  end.

(** The texts that such a pattern matches from their start: [$] matches at
    the end of the text and before a final line feed. *)
Fixpoint words_of (p : list re_item) : list string :=
  match p with
  | Lit c :: p' => String c <$> words_of p'
  | Opt c :: p' => words_of p' ++ (String c <$> words_of p')
  | End :: _ => [""; String LF ""]
  | _ => []
  end.

(** The paths of the highest tier. *)
Definition CRITICAL_PATHS : list string :=
  ["/"; "/home"; "/home/"; "/index.htm"; "/index.html"].

(** The words that mark a page of the second tier wherever they occur. *)
Definition HIGH_WORDS : list string :=
  ["/pricing"; "/plans"; "/features"; "/shop"; "/store"; "/buy"].

(** The pattern [\?.*page=] of the lowest tier. *)
Definition query_page_pattern : Pattern :=
  mkPattern false (lits "?" ++ [AnyText] ++ lits "page=").

(** ** Links *)

(** What holds of an entry [l] returned by [extract_links] for the anchors
    [anchors] of a page at [base_url]: it comes from an anchor whose [href]
    is not skipped, carries the normalized URL of that [href], has none of
    the skipped extensions, and is internal exactly when its domain is the
    domain of the page. *)
Definition link_ok (urljoin : string -> string -> string)
    (bracketed_netloc_ok : string -> bool) (base_url base_domain : string)
    (same_domain_only : bool) (anchors : list Anchor) (l : Link) : Prop :=
  (exists a, a ∈ anchors
     /\ skipped_href (str_strip (href a)) = false
     /\ normalize urljoin bracketed_netloc_ok (str_strip (href a)) (Some base_url)
        = Some (link_url l)
     /\ link_text l = str_take 200 (anchor_text a)
     /\ link_type l = _categorize_link (link_url l) (anchor_text a)
     /\ nofollow l = str_in "nofollow" (rel a))
  /\ existsb (fun ext => endswith ext (str_lower (link_url l))) SKIP_EXTENSIONS = false
  /\ (exists domain, get_domain bracketed_netloc_ok (link_url l) = Some domain
        /\ is_internal l = String.eqb domain base_domain)
  /\ (same_domain_only = true -> is_internal l = true)
  /\ get_url_depth bracketed_netloc_ok (link_url l) = Some (link_depth l).

(** The anchors of a page with a repeated link, a script, a document and a
    link to another site. *)
Definition sample_anchors : list Anchor :=
  [mkAnchor " /pricing/ " "Pricing" [];
   mkAnchor "https://ex.com/pricing?utm_source=nav#plans" "See plans" ["nofollow"];
   mkAnchor "javascript:void(0)" "Menu" [];
   mkAnchor "https://ex.com/files/Report.PDF" "Report" [];
   mkAnchor "https://other.org/about" "Partner" ["noopener"]].

(** A stand-in for [urljoin] that is right for a path on the site
    [https://ex.com]. *)
Definition join_on_site (base url : string) : string := "https://ex.com" +:+ url.

(** ** Sessions that report what they were handed *)

(** A worker reports, with [complete] or [fail], a URL that is in
    progress. *)
Definition reports_in_progress (q : CrawlQueue) (op : Op) : Prop :=
  match op with
  | OpComplete u | OpFail u _ _ _ => u ∈ _in_progress q
  | _ => True
  end.

Inductive in_session : CrawlQueue -> Prop :=
| in_session_init md mr mu : in_session (CrawlQueue_init md mr mu)
| in_session_step q op :
    in_session q -> reports_in_progress q op -> in_session (step q op).

(** The URLs that are queued. *)
Definition queued (q : CrawlQueue) : gset string := list_to_set (url <$> _queue q).

(** Every URL is in at most one of the four states, and has been seen. *)
Definition accounted (q : CrawlQueue) : Prop :=
  NoDup (url <$> _queue q)
  /\ queued q ## _in_progress q /\ queued q ## _completed q
  /\ queued q ## dom (_failed q)
  /\ _in_progress q ## _completed q /\ _in_progress q ## dom (_failed q)
  /\ _completed q ## dom (_failed q)
  /\ queued q ∪ _in_progress q ∪ _completed q ∪ dom (_failed q) ⊆ _seen q.

(** A sequence of calls in which every report is about a URL in progress. *)
Fixpoint all_reported (q : CrawlQueue) (ops : list Op) : bool :=
  match ops with
  | [] => true
  | op :: ops' =>
      match op with
      | OpComplete u | OpFail u _ _ _ => bool_decide (u ∈ _in_progress q)
      | _ => true
      end && all_reported (step q op) ops'
  end.

(** * Properties *)

(** Case analysis on the 256 characters. *)
Ltac by_cases_on_char c :=
  destruct c as [[] [] [] [] [] [] [] []]; try discriminate; try reflexivity.

(** ** The binary heap of [heapq] *)

Section heap_theory.
Context {A : Type} (key : A -> Z).

Lemma parent_lt i : 0 < i -> parent i < i.
Proof. unfold parent. dlia. Qed.

Lemma parent_child i : 0 < i -> i = 2 * parent i + 1 \/ i = 2 * parent i + 2.
Proof. unfold parent. dlia. Qed.

Lemma parent_left k : parent (2 * k + 1) = k.
Proof. unfold parent. dlia. Qed.

Lemma parent_right k : parent (2 * k + 1 + 1) = k.
Proof. unfold parent. dlia. Qed.

Lemma siftdown_loop_S fuel (h : list A) newitem startpos k :
  heapq._siftdown_loop (key_lt key) (S fuel) h newitem startpos k =
    if bool_decide (startpos < k) then
      match h !! parent k with
      | Some p =>
          if key_lt key newitem p
          then heapq._siftdown_loop (key_lt key) fuel (<[k := p]> h) newitem startpos (parent k)
          else <[k := newitem]> h
      | None => <[k := newitem]> h
      end
    else <[k := newitem]> h.
Proof. reflexivity. Qed.

Lemma siftdown_loop_length fuel (h : list A) newitem startpos k :
  length (heapq._siftdown_loop (key_lt key) fuel h newitem startpos k) = length h.
Proof.
  revert h k. induction fuel as [|fuel IH]; intros h k.
  - simpl. by rewrite length_insert.
  - rewrite siftdown_loop_S. case_bool_decide; [|by rewrite length_insert].
    destruct (h !! _) as [p|]; [|by rewrite length_insert].
    destruct (key_lt key newitem p); [|by rewrite length_insert].
    by rewrite IH, length_insert.
Qed.

(** [_siftdown] keeps the items. *)
Lemma siftdown_loop_perm fuel (h : list A) newitem k :
  k < length h ->
  heapq._siftdown_loop (key_lt key) fuel h newitem 0 k ≡ₚ <[k := newitem]> h.
Proof.
  revert h k. induction fuel as [|fuel IH]; intros h k Hk; [done|].
  rewrite siftdown_loop_S.
  case_bool_decide as Hpos; [|done].
  destruct (h !! parent k) as [p|] eqn:Hp; [|done].
  destruct (key_lt key newitem p); [|done].
  pose proof (parent_lt k Hpos) as Hlt.
  rewrite IH by (rewrite length_insert; lia).
  rewrite <- (list_insert_insert_eq h k p newitem).
  apply Permutation_insert_swap.
  - apply list_lookup_insert_eq. done.
  - rewrite list_lookup_insert_ne by lia. done.
Qed.

(** [_siftdown] restores the heap invariant. *)
Lemma siftdown_loop_heap fuel (h : list A) newitem k :
  k <= fuel -> k < length h -> sd_inv key h k newitem ->
  heap_ok key (heapq._siftdown_loop (key_lt key) fuel h newitem 0 k).
Proof.
  revert h k. induction fuel as [|fuel IH]; intros h k Hfuel Hk [Ha Hb].
  - simpl. intros i x p Hi Hx Hp. eapply Ha; eauto. lia.
  - rewrite siftdown_loop_S. case_bool_decide as Hpos.
    2:{ intros i x p Hi Hx Hp. eapply Ha; eauto. lia. }
    pose proof (parent_lt k Hpos) as Hlt.
    destruct (h !! parent k) as [p|] eqn:Hp.
    2:{ apply lookup_ge_None in Hp. lia. }
    destruct (key_lt key newitem p) eqn:Hcmp; unfold key_lt in Hcmp.
    + apply Z.ltb_lt in Hcmp.
      apply IH; [lia|rewrite length_insert; lia|].
      split.
      * intros i x q Hi Hik.
        rewrite !list_lookup_insert, ?length_insert.
        intros Hx Hq.
        destruct (decide (i = k)) as [->|Hne].
        { (* the item moved down sits under [newitem] *)
          repeat case_decide; simplify_eq; try lia. }
        destruct (decide (parent i = k)) as [Hpk|Hpk].
        { (* a child of the old hole now sits under the old parent *)
          repeat case_decide; simplify_eq; try lia.
          eapply (Hb i); eauto. }
        destruct (decide (parent i = parent k)) as [Hpp|Hpp].
        { (* the sibling of the old hole now sits under [newitem] *)
          repeat case_decide; simplify_eq; try lia.
          assert (key p <= key x)%Z; [|lia].
          eapply (Ha i); eauto.
          - rewrite list_lookup_insert_ne by done. done.
          - rewrite Hpp, list_lookup_insert_ne by lia. done. }
        repeat case_decide; simplify_eq; try lia.
        eapply (Ha i); eauto.
        -- rewrite list_lookup_insert_ne by done. done.
        -- rewrite list_lookup_insert_ne by done. done.
      * intros c x q Hpk Hc Hcp Hx Hq.
        pose proof (parent_lt (parent k) Hpk) as Hlt2.
        rewrite list_lookup_insert_ne in Hq by lia.
        assert (Hpq : (key q <= key p)%Z).
        { eapply (Ha (parent k)); eauto; [lia| |].
          - rewrite list_lookup_insert_ne by lia. done.
          - rewrite list_lookup_insert_ne by lia. done. }
        destruct (decide (c = k)) as [->|Hne].
        { rewrite list_lookup_insert_eq in Hx by done. by simplify_eq. }
        rewrite list_lookup_insert_ne in Hx by done.
        assert (key p <= key x)%Z; [|lia].
        eapply (Ha c); eauto.
        -- rewrite list_lookup_insert_ne by done. done.
        -- rewrite Hcp, list_lookup_insert_ne by lia. done.
    + apply Z.ltb_ge in Hcmp.
      intros i x q Hi Hx Hq.
      destruct (decide (i = k)) as [->|Hne]; [|eapply Ha; eauto].
      rewrite list_lookup_insert_eq in Hx by done.
      rewrite list_lookup_insert_ne in Hq by lia. simplify_eq. done.
Qed.

Lemma heappush_perm (h : list A) x : heapq.heappush (key_lt key) h x ≡ₚ x :: h.
Proof.
  unfold heapq.heappush, heapq._siftdown.
  rewrite length_app. simpl.
  replace (length h + 1 - 1) with (length h) by lia.
  rewrite list_lookup_middle by done.
  rewrite siftdown_loop_perm by (rewrite length_app; simpl; lia).
  rewrite list_insert_id by (by apply list_lookup_middle).
  by rewrite Permutation_app_comm.
Qed.

Lemma heappush_heap (h : list A) x : heap_ok key h -> heap_ok key (heapq.heappush (key_lt key) h x).
Proof.
  intros Hh. unfold heapq.heappush, heapq._siftdown.
  rewrite length_app. simpl.
  replace (length h + 1 - 1) with (length h) by lia.
  rewrite list_lookup_middle by done.
  apply siftdown_loop_heap; [done|rewrite length_app; simpl; lia|].
  unfold sd_inv. rewrite list_insert_id by (by apply list_lookup_middle).
  split.
  - intros i y p Hi Hne Hy Hp.
    assert (i < length h).
    { apply lookup_lt_Some in Hy. rewrite length_app in Hy. simpl in Hy. lia. }
    pose proof (parent_lt i Hi).
    rewrite lookup_app_l in Hy, Hp by lia. eauto.
  - intros c y p Hk Hc Hcp Hy Hp.
    apply lookup_lt_Some in Hy. rewrite length_app in Hy. simpl in Hy.
    pose proof (parent_child c Hc). lia.
Qed.

Lemma siftup_loop_S fuel (h : list A) endpos k :
  heapq._siftup_loop (key_lt key) (S fuel) h endpos k =
    if bool_decide (2 * k + 1 < endpos) then
      let childpos :=
        if bool_decide (2 * k + 1 + 1 < endpos)
           && heapq.not_lt_at (key_lt key) h (2 * k + 1) (2 * k + 1 + 1)
        then 2 * k + 1 + 1 else 2 * k + 1 in
      match h !! childpos with
      | Some c => heapq._siftup_loop (key_lt key) fuel (<[k := c]> h) endpos childpos
      | None => (h, k)
      end
    else (h, k).
Proof. reflexivity. Qed.

(** The child that [_siftup] moves up is a child of the hole and is not
    larger than the other child. *)
Lemma siftup_child (h : list A) k :
  2 * k + 1 < length h ->
  let childpos :=
    if bool_decide (2 * k + 1 + 1 < length h)
       && heapq.not_lt_at (key_lt key) h (2 * k + 1) (2 * k + 1 + 1)
    then 2 * k + 1 + 1 else 2 * k + 1 in
  exists c, h !! childpos = Some c /\ parent childpos = k /\ k < childpos
    /\ childpos < length h
    /\ forall i y, parent i = k -> 0 < i -> h !! i = Some y -> (key c <= key y)%Z.
Proof.
  intros Hleft. cbv zeta.
  destruct (lookup_lt_is_Some_2 h (2 * k + 1) Hleft) as [l Hl].
  case_bool_decide as Hright; cbn [andb].
  - destruct (lookup_lt_is_Some_2 h (2 * k + 1 + 1) Hright) as [r Hr].
    unfold heapq.not_lt_at. rewrite Hl, Hr. unfold key_lt.
    destruct (key l <? key r)%Z eqn:Hcmp; cbn [negb].
    + apply Z.ltb_lt in Hcmp. exists l.
      split; [done|]. split; [apply parent_left|]. split; [lia|]. split; [lia|].
      intros i y Hpi Hi Hy. destruct (parent_child i Hi) as [Hc|Hc];
        rewrite Hpi in Hc; subst i.
      * simplify_eq. lia.
      * replace (2 * k + 2) with (2 * k + 1 + 1) in Hy by lia. simplify_eq. lia.
    + apply Z.ltb_ge in Hcmp. exists r.
      split; [done|]. split; [apply parent_right|]. split; [lia|]. split; [lia|].
      intros i y Hpi Hi Hy. destruct (parent_child i Hi) as [Hc|Hc];
        rewrite Hpi in Hc; subst i.
      * simplify_eq. lia.
      * replace (2 * k + 2) with (2 * k + 1 + 1) in Hy by lia. simplify_eq. lia.
  - exists l.
    split; [done|]. split; [apply parent_left|]. split; [lia|]. split; [lia|].
    intros i y Hpi Hi Hy. destruct (parent_child i Hi) as [Hc|Hc];
      rewrite Hpi in Hc; subst i.
    + simplify_eq. lia.
    + apply lookup_lt_Some in Hy. lia.
Qed.

(** The loop of [_siftup] keeps the length and only swaps items; run with
    enough fuel from a state that satisfies the invariant of the travelling
    hole, it ends in a leaf and keeps that invariant. *)
Lemma siftup_loop_spec fuel (h : list A) k newitem :
  k < length h ->
  exists h1 k1,
    heapq._siftup_loop (key_lt key) fuel h (length h) k = (h1, k1)
    /\ length h1 = length h /\ k1 < length h
    /\ <[k1 := newitem]> h1 ≡ₚ <[k := newitem]> h
    /\ (length h <= k + fuel -> su_inv key h k ->
          length h <= 2 * k1 + 1 /\ su_inv key h1 k1).
Proof.
  revert h k. induction fuel as [|fuel IH]; intros h k Hk.
  - exists h, k. simpl. split; [done|]. split; [done|]. split; [done|].
    split; [done|]. intros ? ?. split; [lia|done].
  - rewrite siftup_loop_S. case_bool_decide as Hleft.
    2:{ exists h, k. split; [done|]. split; [done|]. split; [done|].
        split; [done|]. intros ? ?. split; [lia|done]. }
    destruct (siftup_child h k Hleft) as (c & Hc & Hpc & Hkc & Hclen & Hmin).
    cbv zeta in Hc, Hpc, Hkc, Hclen |- *.
    set (childpos := if _ && _ then _ else _) in *.
    rewrite Hc.
    destruct (IH (<[k := c]> h) childpos)
      as (h1 & k1 & Heq & Hlen & Hk1 & Hperm & Hheap).
    { rewrite length_insert. lia. }
    rewrite length_insert in Heq, Hlen, Hk1, Hheap.
    exists h1, k1. split; [done|]. split; [done|]. split; [done|]. split.
    { rewrite Hperm.
      rewrite <- (list_insert_insert_eq h k c newitem).
      apply Permutation_insert_swap.
      + by apply list_lookup_insert_eq.
      + rewrite list_lookup_insert_ne by lia. done. }
    intros Hfuel [Ha Hb]. apply Hheap; [lia|]. split.
    + intros i x p Hi Hpi Hx Hp.
      destruct (decide (parent i = k)) as [Hpk|Hpk].
      * (* a child of the old hole sits under the item moved up *)
        rewrite Hpk, list_lookup_insert_eq in Hp by done. simplify_eq.
        assert (i ≠ k) by (pose proof (parent_lt i Hi); lia).
        rewrite list_lookup_insert_ne in Hx by done. eauto.
      * destruct (decide (i = k)) as [->|Hne].
        -- (* the item moved up sits under the parent of the old hole *)
           rewrite list_lookup_insert_eq in Hx by done. simplify_eq.
           pose proof (parent_lt k Hi).
           rewrite list_lookup_insert_ne in Hp by lia.
           eapply (Hb childpos); eauto. lia.
        -- rewrite list_lookup_insert_ne in Hx by done.
           rewrite list_lookup_insert_ne in Hp by done. eauto.
    + intros d x p Hcpos Hd Hpd Hx Hp.
      rewrite Hpc, list_lookup_insert_eq in Hp by done. simplify_eq.
      assert (d ≠ k) by (pose proof (parent_lt d Hd); lia).
      rewrite list_lookup_insert_ne in Hx by done.
      eapply (Ha d); [done|lia|done|]. by rewrite Hpd.
Qed.

Lemma siftup_root_perm (h : list A) : heapq._siftup (key_lt key) h 0 ≡ₚ h.
Proof.
  unfold heapq._siftup.
  destruct (h !! 0) as [newitem|] eqn:H0; [|done].
  assert (Hlen : 0 < length h) by (by eapply lookup_lt_Some).
  destruct (siftup_loop_spec (length h) h 0 newitem Hlen)
    as (h1 & k1 & -> & Hlen1 & Hk1 & Hperm & _).
  unfold heapq._siftdown.
  rewrite list_lookup_insert_eq by lia.
  rewrite siftdown_loop_perm by (rewrite length_insert; lia).
  rewrite list_insert_insert_eq, Hperm.
  by rewrite list_insert_id.
Qed.

Lemma siftup_root_heap (h : list A) : su_inv key h 0 -> heap_ok key (heapq._siftup (key_lt key) h 0).
Proof.
  intros Hinv. unfold heapq._siftup.
  destruct (h !! 0) as [newitem|] eqn:H0.
  2:{ apply lookup_ge_None in H0. intros i x p _ Hx _.
      apply lookup_lt_Some in Hx. lia. }
  assert (Hlen : 0 < length h) by (by eapply lookup_lt_Some).
  destruct (siftup_loop_spec (length h) h 0 newitem Hlen)
    as (h1 & k1 & -> & Hlen1 & Hk1 & _ & Hheap).
  destruct Hheap as [Hleaf [Ha Hb]]; [lia|done|].
  unfold heapq._siftdown.
  rewrite list_lookup_insert_eq by lia.
  apply siftdown_loop_heap; [done|rewrite length_insert; lia|].
  unfold sd_inv. rewrite list_insert_insert_eq. split.
  - intros i x p Hi Hne Hx Hp.
    rewrite list_lookup_insert_ne in Hx by done.
    destruct (decide (parent i = k1)) as [Hpk|Hpk].
    { apply lookup_lt_Some in Hx. pose proof (parent_child i Hi). lia. }
    rewrite list_lookup_insert_ne in Hp by done. eauto.
  - intros c x p Hk Hc Hpc Hx Hp.
    apply lookup_lt_Some in Hx. rewrite length_insert in Hx.
    pose proof (parent_child c Hc). lia.
Qed.

(** The root of a heap is a least item. *)
Lemma heap_root_min (h : list A) r :
  heap_ok key h -> h !! 0 = Some r -> forall x, x ∈ h -> (key r <= key x)%Z.
Proof.
  intros Hh Hr x [i Hx]%list_elem_of_lookup.
  revert x Hx. induction (lt_wf i) as [i _ IH]. intros x Hx.
  destruct (decide (i = 0)) as [->|Hi]; [by simplify_eq|].
  assert (0 < i) as Hpos by lia.
  pose proof (parent_lt i Hpos) as Hlt.
  destruct (lookup_lt_is_Some_2 h (parent i)) as [p Hp].
  { apply lookup_lt_Some in Hx. lia. }
  specialize (IH _ Hlt p Hp). specialize (Hh i x p Hpos Hx Hp). lia.
Qed.

(** What [heappop] returns: the root, and a heap of the other items. *)
Lemma heappop_Some (h : list A) r rest :
  heapq.heappop (key_lt key) h = Some (r, rest) ->
  h ≡ₚ r :: rest /\ (heap_ok key h -> heap_ok key rest /\ forall x, x ∈ h -> (key r <= key x)%Z).
Proof.
  unfold heapq.heappop. destruct (last h) as [lastelt|] eqn:Hlast; [|done].
  apply last_Some in Hlast as [front ->].
  rewrite removelast_last.
  destruct front as [|returnitem front]; intros ?; simplify_eq.
  - split; [done|]. intros _. split.
    + intros i x p _ Hx _. done.
    + intros x ->%list_elem_of_singleton. lia.
  - simpl. split.
    + rewrite siftup_root_perm. simpl. f_equiv.
      by rewrite Permutation_app_comm.
    + intros Hh. split.
      * apply siftup_root_heap. split.
        -- intros i x p Hi Hpi Hx Hp.
           assert (i ≠ 0) by lia.
           assert (i < S (length front)) by (apply lookup_lt_Some in Hx; simpl in Hx; lia).
           pose proof (parent_lt i Hi).
           destruct i as [|i]; [lia|]. destruct (parent (S i)) as [|j] eqn:Hj; [done|].
           simpl in Hx, Hp.
           apply (Hh (S i) x p); [lia| |].
           ++ simpl. rewrite lookup_app_l by lia. done.
           ++ rewrite Hj. simpl. rewrite lookup_app_l by lia. done.
        -- intros c x p Hk. lia.
      * apply heap_root_min; done.
Qed.

Lemma heappop_None (h : list A) : heapq.heappop (key_lt key) h = None <-> h = [].
Proof.
  unfold heapq.heappop. split.
  - destruct (last h) eqn:Hlast.
    + destruct (removelast h); done.
    + intros _. by apply last_None.
  - intros ->. done.
Qed.

Lemma heap_ok_nil : heap_ok key [].
Proof. intros i x p _ Hx. done. Qed.
End heap_theory.

(** ** The crawl queue: admission and completion *)

Lemma add_refused_spec q u p d ref md now :
  add_refused q u d -> add q u p d ref md now = (false, q).
Proof.
  unfold add_refused, add. intros H.
  repeat case_bool_decide; try reflexivity; tauto.
Qed.

Lemma add_admitted_spec q u p d ref md now :
  ~ add_refused q u d ->
  add q u p d ref md now =
    (true,
     set_queue (set_seen q ({[u]} ∪ _seen q))
       (heapq.heappush CrawlItem_lt (_queue q)
          (mkCrawlItem (CrawlPriority_value p) u d ref now 0 (default ∅ md)))).
Proof.
  unfold add_refused, add. intros H.
  repeat case_bool_decide; try tauto; reflexivity.
Qed.

Lemma get_loop_seen fuel q : _seen (snd (get_loop fuel q)) = _seen q.
Proof.
  revert q. induction fuel as [|fuel IH]; intros q; simpl; [done|].
  destruct (heapq.heappop _ _) as [[item rest]|]; [|done].
  destruct (_ || _); [rewrite IH|]; done.
Qed.

Lemma step_seen q op : is_clear op = false -> _seen q ⊆ _seen (step q op).
Proof.
  destruct op; simpl; intros Hc; try done.
  - unfold add. repeat case_bool_decide; simpl; set_solver.
  - unfold get. by rewrite get_loop_seen.
  - unfold fail. destruct item as [it|]; [case_bool_decide|]; done.
Qed.

Lemma run_seen q ops :
  forallb (fun op => negb (is_clear op)) ops = true -> _seen q ⊆ _seen (run q ops).
Proof.
  revert q. induction ops as [|op ops IH]; intros q; simpl; [done|].
  intros [Hop Hops]%andb_true_iff. apply negb_true_iff in Hop.
  etrans; [by apply step_seen|by apply IH].
Qed.

Lemma complete_unfold q u :
  complete q u =
    mkCrawlQueue (_queue q) (_seen q) (_in_progress q ∖ {[u]})
      ({[u]} ∪ _completed q) (_failed q) (max_depth q) (max_retries q) (max_urls q).
Proof. reflexivity. Qed.

(** ** The crawl queue as a heap of items *)

Lemma push_perm h x : heapq.heappush CrawlItem_lt h x ≡ₚ x :: h.
Proof. exact (heappush_perm priority h x). Qed.

Lemma push_heap h x :
  heap_ok priority h -> heap_ok priority (heapq.heappush CrawlItem_lt h x).
Proof. exact (heappush_heap priority h x). Qed.

Lemma pop_Some h r rest :
  heapq.heappop CrawlItem_lt h = Some (r, rest) ->
  h ≡ₚ r :: rest
  /\ (heap_ok priority h ->
      heap_ok priority rest /\ forall x, x ∈ h -> (priority r <= priority x)%Z).
Proof. exact (heappop_Some priority h r rest). Qed.

Lemma pop_None h : heapq.heappop CrawlItem_lt h = None <-> h = [].
Proof. exact (heappop_None priority h). Qed.

(** What a successful [get] does: it drops a run of items that are not
    eligible, hands out the next one and marks it in progress. *)
Lemma get_loop_Some fuel q x q' :
  get_loop fuel q = (Some x, q') ->
  exists skipped,
    _queue q ≡ₚ (skipped ++ x :: _queue q')
    /\ Forall (fun s => ~ eligible q s) skipped
    /\ eligible q x
    /\ q' = set_in_progress (set_queue q (_queue q')) ({[url x]} ∪ _in_progress q)
    /\ (queue_ok q ->
        queue_ok q' /\ forall y, y ∈ _queue q' -> (priority x <= priority y)%Z).
Proof.
  revert q. induction fuel as [|fuel IH]; intros q; simpl; [done|].
  destruct (heapq.heappop CrawlItem_lt (_queue q)) as [[item rest]|] eqn:Hpop; [|done].
  apply pop_Some in Hpop as [Hperm Hheap].
  destruct (bool_decide (url item ∈ _completed q)
            || bool_decide (url item ∈ _in_progress q)) eqn:Hskip.
  - intros Hget. apply IH in Hget as (skipped & Hp & Hsk & Hel & Hq' & Hok).
    simpl in *. exists (item :: skipped). split; [|split; [|split; [|split]]].
    + rewrite Hperm. simpl. by f_equiv.
    + constructor; [|done].
      unfold eligible. apply orb_true_iff in Hskip as [H|H];
        apply bool_decide_eq_true in H; tauto.
    + done.
    + done.
    + intros Hqok. apply Hok. by apply Hheap.
  - intros ?; simplify_eq. simpl.
    apply orb_false_iff in Hskip as [H1 H2].
    apply bool_decide_eq_false in H1, H2. simpl in *.
    exists []. split; [done|]. split; [done|]. split; [done|]. split; [done|].
    intros Hqok. destruct (Hheap Hqok) as [Hrest Hmin].
    split; [done|]. intros y Hy. apply Hmin. rewrite Hperm. by right.
Qed.

(** A [get] that returns nothing has emptied the queue, and nothing it
    dropped was eligible. *)
Lemma get_loop_None fuel q q' :
  length (_queue q) <= fuel ->
  get_loop fuel q = (None, q') ->
  q' = set_queue q [] /\ Forall (fun s => ~ eligible q s) (_queue q).
Proof.
  revert q. induction fuel as [|fuel IH]; intros q Hlen; simpl.
  - intros [= <-]. destruct q as [h ? ? ? ? ? ? ?]; simpl in *.
    destruct h; [done|simpl in Hlen; lia].
  - destruct (heapq.heappop CrawlItem_lt (_queue q)) as [[item rest]|] eqn:Hpop.
    + apply pop_Some in Hpop as [Hperm _].
      destruct (bool_decide (url item ∈ _completed q)
                || bool_decide (url item ∈ _in_progress q)) eqn:Hskip; [|done].
      intros Hget. apply IH in Hget as [-> Hall].
      2:{ simpl. apply Permutation_length in Hperm. simpl in Hperm. lia. }
      split; [done|]. rewrite Hperm. constructor; [|done].
      unfold eligible. simpl in Hskip. apply orb_true_iff in Hskip as [H|H];
        apply bool_decide_eq_true in H; tauto.
    + apply pop_None in Hpop. intros [= <-].
      destruct q as [h ? ? ? ? ? ? ?]; simpl in *. subst h. done.
Qed.

Lemma get_loop_queue_ok fuel q : queue_ok q -> queue_ok (snd (get_loop fuel q)).
Proof.
  revert q. induction fuel as [|fuel IH]; intros q Hq; simpl; [done|].
  destruct (heapq.heappop CrawlItem_lt (_queue q)) as [[item rest]|] eqn:Hpop; [|done].
  apply pop_Some in Hpop as [_ Hheap]. destruct (Hheap Hq) as [Hrest _].
  destruct (_ || _); [by apply IH|done].
Qed.

Lemma step_queue_ok q op : queue_ok q -> queue_ok (step q op).
Proof.
  intros Hq. destruct op; simpl.
  - unfold add. repeat case_bool_decide; try done. by apply push_heap.
  - by apply get_loop_queue_ok.
  - done.
  - unfold fail. destruct item as [it|]; [|done].
    case_bool_decide; [|done]. by apply push_heap.
  - done.
  - apply heap_ok_nil.
Qed.

Lemma reachable_queue_ok q : reachable q -> queue_ok q.
Proof.
  induction 1 as [| q op _ IH]; [apply heap_ok_nil|by apply step_queue_ok].
Qed.

Lemma reachable_run q ops : reachable q -> reachable (run q ops).
Proof.
  revert q. induction ops as [|op ops IH]; intros q Hq; simpl; [done|].
  apply IH. by constructor.
Qed.

Lemma get_Some q x q' :
  get q = (Some x, q') ->
  exists skipped,
    _queue q ≡ₚ (skipped ++ x :: _queue q')
    /\ Forall (fun s => ~ eligible q s) skipped
    /\ eligible q x
    /\ q' = set_in_progress (set_queue q (_queue q')) ({[url x]} ∪ _in_progress q)
    /\ (queue_ok q ->
        queue_ok q' /\ forall y, y ∈ _queue q' -> (priority x <= priority y)%Z).
Proof. apply get_loop_Some. Qed.

Lemma get_None q q' :
  get q = (None, q') ->
  q' = set_queue q [] /\ Forall (fun s => ~ eligible q s) (_queue q).
Proof. apply get_loop_None. done. Qed.

(** *** The protocol of a crawl session

    A URL is handed out by [get], then reported once: [complete], [fail]
    or [release].  In particular [fail] is called for a URL that is in
    progress.  [tracked] is what such a use maintains: a URL is queued at
    most once, a queued URL is not in progress, and whatever is queued or in
    progress has been seen. *)

Lemma tracked_push q x :
  tracked q -> url x ∉ url <$> _queue q -> url x ∉ _in_progress q -> url x ∈ _seen q ->
  tracked (set_queue q (heapq.heappush CrawlItem_lt (_queue q) x)).
Proof.
  intros (Hnd & Hip & Hseen & Hsub) Hfresh Hnip Hx.
  pose proof (push_perm (_queue q) x) as Hperm.
  unfold tracked. simpl. split; [|split; [|split]].
  - rewrite Hperm. simpl. by constructor.
  - intros y. rewrite Hperm. intros [->|Hy]%elem_of_cons; auto.
  - intros y. rewrite Hperm. intros [->|Hy]%elem_of_cons; auto.
  - done.
Qed.

Lemma tracked_step q op : tracked q -> legal q op -> tracked (step q op).
Proof.
  intros Hq Hlegal. pose proof Hq as (Hnd & Hip & Hseen & Hsub).
  destruct op; simpl in *.
  - (* add *)
    unfold add. repeat case_bool_decide; try done. simpl.
    apply (tracked_push (set_seen q ({[u]} ∪ _seen q))); simpl.
    + unfold tracked. simpl. set_solver.
    + intros (y & Hu & Hy)%list_elem_of_fmap. apply Hseen in Hy. simpl in Hu. congruence.
    + set_solver.
    + set_solver.
  - (* get *)
    destruct (get q) as [[x|] q'] eqn:Hget; simpl.
    + apply get_Some in Hget as (skipped & Hperm & _ & _ & -> & _).
      pose proof Hnd as Hnd'. rewrite Hperm, fmap_app, fmap_cons in Hnd'.
      apply NoDup_app in Hnd' as (_ & _ & Hnd').
      apply NoDup_cons in Hnd' as [Hx Hnd'].
      unfold tracked. simpl. split; [done|]. split; [|split].
      * intros y Hy. assert (y ∈ _queue q) by (rewrite Hperm; set_solver).
        assert (url y ≠ url x).
        { intros Heq. apply Hx. rewrite <- Heq. by apply list_elem_of_fmap_2. }
        specialize (Hip y). set_solver.
      * intros y Hy. apply Hseen. rewrite Hperm. set_solver.
      * assert (url x ∈ _seen q); [|set_solver].
        apply Hseen. rewrite Hperm. set_solver.
    + apply get_None in Hget as [-> _]. unfold tracked. simpl.
      split; [constructor|]. split; [set_solver|]. split; [set_solver|done].
  - (* complete *)
    unfold tracked. simpl. split; [done|]. split; [|split; [done|set_solver]].
    intros x Hx. specialize (Hip x Hx). set_solver.
  - (* fail *)
    unfold fail. destruct item as [it|].
    + case_bool_decide.
      * apply (tracked_push (set_in_progress q (_in_progress q ∖ {[u]}))); simpl.
        -- unfold tracked. simpl. split; [done|]. split; [|split; [done|set_solver]].
           intros x Hx. specialize (Hip x Hx). set_solver.
        -- intros (y & Hu & Hy)%list_elem_of_fmap. apply Hip in Hy. congruence.
        -- set_solver.
        -- set_solver.
      * unfold tracked. simpl. split; [done|]. split; [|split; [done|set_solver]].
        intros x Hx. specialize (Hip x Hx). set_solver.
    + unfold tracked. simpl. split; [done|]. split; [|split; [done|set_solver]].
      intros x Hx. specialize (Hip x Hx). set_solver.
  - (* release *)
    unfold tracked. simpl. split; [done|]. split; [|split; [done|set_solver]].
    intros x Hx. specialize (Hip x Hx). set_solver.
  - (* clear *)
    unfold tracked. simpl. split; [constructor|]. set_solver.
Qed.

Lemma in_protocol_tracked q : in_protocol q -> tracked q.
Proof.
  induction 1 as [| q op _ IH Hl].
  - unfold tracked. simpl. split; [constructor|]. set_solver.
  - by apply tracked_step.
Qed.

Lemma in_protocol_reachable q : in_protocol q -> reachable q.
Proof. induction 1; by constructor. Qed.

Lemma in_protocol_run q ops :
  in_protocol q -> forallb (fun op => negb (is_fail op)) ops = true ->
  in_protocol (run q ops).
Proof.
  revert q. induction ops as [|op ops IH]; intros q Hq Hall; simpl; [done|].
  simpl in Hall. apply andb_true_iff in Hall as [Hop Hall].
  apply IH; [|done]. constructor; [done|]. by destruct op.
Qed.

(** *** Claims about the crawl queue *)

(** C1 (amended).  In every state reached from a fresh queue by any calls,
    a [get] that returns an item returns a queued, eligible item whose
    priority value is the least among the eligible queued items, and a
    [get] that follows returns an item that is not more urgent: items leave
    in tier order.  A [get] that returns nothing has found no eligible item
    and leaves the queue empty.  (Nothing is promised about the order of two
    items of one tier.) *)
Theorem get_tier_order (q : CrawlQueue) :
  reachable q ->
  (forall x q', get q = (Some x, q') ->
     (x ∈ _queue q) /\ eligible q x
     /\ (forall y, y ∈ _queue q -> eligible q y -> (priority x <= priority y)%Z)
     /\ (forall y, y ∈ _queue q' -> (priority x <= priority y)%Z)
     /\ (forall y q'', get q' = (Some y, q'') -> (priority x <= priority y)%Z))
  /\ (forall q', get q = (None, q') ->
        Forall (fun y => ~ eligible q y) (_queue q) /\ _queue q' = []).
Proof.
  intros Hq%reachable_queue_ok. split.
  - intros x q' Hget.
    apply get_Some in Hget as (skipped & Hperm & Hsk & Hel & Hq' & Hok).
    destruct (Hok Hq) as [Hq'ok Hmin].
    split; [rewrite Hperm; set_solver|]. split; [done|]. split; [|split; [done|]].
    + intros y Hy Hely. rewrite Hperm in Hy.
      apply elem_of_app in Hy as [Hy|Hy].
      * rewrite Forall_forall in Hsk. by destruct (Hsk y Hy).
      * apply elem_of_cons in Hy as [->|Hy]; [lia|by apply Hmin].
    + intros y q'' Hget'.
      apply get_Some in Hget' as (skipped' & Hperm' & _).
      apply Hmin. rewrite Hperm'. set_solver.
  - intros q' Hget. apply get_None in Hget as [-> Hall]. done.
Qed.

(** C1, as stated, fails: of four URLs admitted at the same tier in the
    order a, b, c, d, [get] returns c before b. *)
Lemma fifo_within_tier_counterexample :
  fst (add_many (CrawlQueue_init 5 3 1000) ["a"; "b"; "c"; "d"] MEDIUM 0 None 0) = 4%Z
  /\ map priority (_queue four_medium) = [2; 2; 2; 2]%Z
  /\ map url (fst (get_batch four_medium 4)) = ["a"; "c"; "b"; "d"]
  /\ map url (fst (get_batch four_medium 4)) ≠ ["a"; "b"; "c"; "d"].
Proof. vm_compute. repeat split; try reflexivity. discriminate. Qed.

Lemma get_tier_order_witness :
  exists x q',
    get low_then_critical = (Some x, q') /\ url x = "critical"
    /\ forall y, y ∈ _queue q' -> (priority x <= priority y)%Z.
Proof.
  eexists _, _. split; [vm_compute; reflexivity|]. split; [reflexivity|].
  assert (Hr : reachable low_then_critical).
  { apply reachable_run. constructor. }
  intros y Hy.
  destruct (get_tier_order low_then_critical Hr) as [Hsome _].
  edestruct Hsome as (_ & _ & _ & Hmin & _); [vm_compute; reflexivity|].
  by apply Hmin.
Defined.



(** C3.  [add] refuses a URL, returning false and leaving the queue as it
    was, exactly when the seen set has reached [max_urls], or the depth
    exceeds [max_depth], or the URL has been seen; otherwise it returns true,
    marks the URL seen and pushes its item on the heap.  Once a URL has been
    admitted, every later [add] of it is refused, whatever calls come in
    between (short of [clear]) and whatever tier and depth are given. *)
Theorem add_admission (q : CrawlQueue) (u : string) (p : CrawlPriority) (d : Z)
    (ref : option string) (md : option (gmap string string)) (now : Z) :
  (add_refused q u d -> add q u p d ref md now = (false, q))
  /\ (~ add_refused q u d ->
      add q u p d ref md now =
        (true,
         set_queue (set_seen q ({[u]} ∪ _seen q))
           (heapq.heappush CrawlItem_lt (_queue q)
              (mkCrawlItem (CrawlPriority_value p) u d ref now 0 (default ∅ md))))
      /\ (u ∈ _seen (snd (add q u p d ref md now)))
      /\ (mkCrawlItem (CrawlPriority_value p) u d ref now 0 (default ∅ md)
            ∈ _queue (snd (add q u p d ref md now))))
  /\ (fst (add q u p d ref md now) = false <-> add_refused q u d)
  /\ (fst (add q u p d ref md now) = true ->
      forall ops p' d' ref' md' now',
        forallb (fun op => negb (is_clear op)) ops = true ->
        add (run (snd (add q u p d ref md now)) ops) u p' d' ref' md' now'
          = (false, run (snd (add q u p d ref md now)) ops)).
Proof.
  split; [apply add_refused_spec|]. split; [|split].
  - intros Hadm. rewrite add_admitted_spec by done. simpl.
    split; [done|]. split; [set_solver|]. rewrite push_perm. set_solver.
  - split.
    + intros Hf. unfold add_refused.
      unfold add in Hf. repeat case_bool_decide; simpl in Hf; try discriminate; tauto.
    + intros Href. by rewrite add_refused_spec.
  - intros Ht ops p' d' ref' md' now' Hops.
    apply add_refused_spec. right. right.
    apply (run_seen _ ops Hops).
    unfold add in Ht |- *. repeat case_bool_decide; simpl in *; try discriminate.
    set_solver.
Qed.

Lemma add_admission_witness :
  fst (add (CrawlQueue_init 5 3 1000) "u" MEDIUM 0 None None 0) = true
  /\ add (run (snd (add (CrawlQueue_init 5 3 1000) "u" MEDIUM 0 None None 0))
            [OpGet; OpComplete "u"]) "u" CRITICAL 1 None None 9
     = (false, run (snd (add (CrawlQueue_init 5 3 1000) "u" MEDIUM 0 None None 0))
                 [OpGet; OpComplete "u"])
  /\ add (CrawlQueue_init 5 3 1000) "u" MEDIUM 6 None None 0
     = (false, CrawlQueue_init 5 3 1000).
Proof.
  split; [vm_compute; reflexivity|]. split.
  - destruct (add_admission (CrawlQueue_init 5 3 1000) "u" MEDIUM 0 None None 0)
      as (_ & _ & _ & Hlater).
    apply Hlater; vm_compute; reflexivity.
  - destruct (add_admission (CrawlQueue_init 5 3 1000) "u" MEDIUM 6 None None 0)
      as (Href & _).
    apply Href. right. left. vm_compute. reflexivity.
Defined.

(** C4 (amended).  [complete] takes the URL out of [in_progress] and puts it
    in [completed], whether or not it was in progress, and raises nothing.
    For a URL that is not in progress, the seen set, the queue, [in_progress]
    and [failed] stay as they were and the URL joins [completed]: the call
    changes nothing only if the URL was completed already.  For a URL that is
    in progress, it moves from [in_progress] to [completed]. *)
Theorem complete_effect (q : CrawlQueue) (u : string) :
  complete q u =
    mkCrawlQueue (_queue q) (_seen q) (_in_progress q ∖ {[u]})
      ({[u]} ∪ _completed q) (_failed q) (max_depth q) (max_retries q) (max_urls q)
  /\ (u ∉ _in_progress q ->
      _in_progress (complete q u) = _in_progress q
      /\ _completed (complete q u) = {[u]} ∪ _completed q
      /\ (complete q u = q <-> u ∈ _completed q))
  /\ (u ∈ _in_progress q ->
      (u ∉ _in_progress (complete q u)) /\ (u ∈ _completed (complete q u))).
Proof.
  split; [reflexivity|]. split.
  - intros Hu. simpl. split; [set_solver|]. split; [done|].
    destruct q as [h s ip c f md mr mu].
    unfold complete, set_completed, set_in_progress. simpl in *. split.
    + intros [= Hip Hc]. set_solver.
    + intros Hc. f_equal; set_solver.
  - intros Hu. simpl. set_solver.
Qed.

(** C4, as stated, fails: completing a URL that is not in progress changes
    the state, the URL becomes completed. *)
Lemma complete_not_in_progress_counterexample :
  ("u" ∉ _in_progress (CrawlQueue_init 5 3 1000))
  /\ _completed (CrawlQueue_init 5 3 1000) = ∅
  /\ _completed (complete (CrawlQueue_init 5 3 1000) "u") = {["u"]}
  /\ complete (CrawlQueue_init 5 3 1000) "u" ≠ CrawlQueue_init 5 3 1000.
Proof.
  split; [set_solver|]. split; [reflexivity|]. split.
  - unfold complete. simpl. set_solver.
  - intros Heq.
    assert (H : "u" ∈ _completed (CrawlQueue_init 5 3 1000)).
    { rewrite <- Heq. unfold complete. simpl. set_solver. }
    simpl in H. set_solver.
Qed.

Lemma complete_effect_witness :
  ("p" ∈ _in_progress high_in_progress)
  /\ ("p" ∉ _in_progress (complete high_in_progress "p"))
  /\ ("p" ∈ _completed (complete high_in_progress "p"))
  /\ ("z" ∉ _in_progress high_in_progress)
  /\ _in_progress (complete high_in_progress "z") = _in_progress high_in_progress
  /\ _completed (complete high_in_progress "z") = {["z"]} ∪ _completed high_in_progress.
Proof.
  assert (Hp : "p" ∈ _in_progress high_in_progress) by (vm_compute; reflexivity).
  assert (Hz : "z" ∉ _in_progress high_in_progress) by (vm_compute; discriminate).
  destruct (complete_effect high_in_progress "p") as (_ & _ & Hin).
  destruct (complete_effect high_in_progress "z") as (_ & Hout & _).
  destruct (Hin Hp) as [H1 H2]. destruct (Hout Hz) as (H3 & H4 & _).
  repeat split; done.
Defined.

(** *** Retry exhaustion *)

Lemma heappush_nil (x : CrawlItem) : heapq.heappush CrawlItem_lt [] x = [x].
Proof. reflexivity. Qed.

Lemma get_singleton (q : CrawlQueue) (x : CrawlItem) :
  _queue q = [x] -> _completed q = ∅ -> _in_progress q = ∅ ->
  get q = (Some x, set_in_progress (set_queue q []) {[url x]}).
Proof.
  destruct q as [h s ip c f md mr mu]. simpl. intros -> -> ->.
  unfold get. simpl.
  rewrite !bool_decide_eq_false_2 by set_solver. simpl.
  unfold set_in_progress, set_queue. simpl. do 2 f_equal. set_solver.
Qed.

(** One failed fetch of the only queued URL: with retries left the URL is
    queued again with one retry more. *)
Lemma fetch_failed_retry (q : CrawlQueue) (x : CrawlItem) (error : string) (now : Z) :
  _queue q = [x] -> _completed q = ∅ -> _in_progress q = ∅ ->
  (retries x < max_retries q)%Z ->
  fetch_failed q error now =
    set_queue q [requeued (url x) x now].
Proof.
  intros Hq Hc Hip Hlt. unfold fetch_failed. rewrite (get_singleton q x) by done.
  destruct q as [h s ip c f md mr mu]. simpl in *. subst.
  unfold fail. simpl. rewrite bool_decide_eq_true_2 by done.
  unfold set_queue, set_in_progress. simpl. f_equal. set_solver.
Qed.

(** One failed fetch of the only queued URL, without retries left: the URL
    ends in [failed]. *)
Lemma fetch_failed_terminal (q : CrawlQueue) (x : CrawlItem) (error : string) (now : Z) :
  _queue q = [x] -> _completed q = ∅ -> _in_progress q = ∅ ->
  (max_retries q <= retries x)%Z ->
  fetch_failed q error now =
    set_failed (set_queue q []) (<[url x := error]> (_failed q)).
Proof.
  intros Hq Hc Hip Hge. unfold fetch_failed. rewrite (get_singleton q x) by done.
  destruct q as [h s ip c f md mr mu]. simpl in *. subst.
  unfold fail. simpl. rewrite bool_decide_eq_false_2 by lia.
  unfold set_queue, set_in_progress, set_failed. simpl. f_equal. set_solver.
Qed.

Lemma fetch_failed_rounds (q : CrawlQueue) (x : CrawlItem) (error : string) (now : Z)
    (k : nat) :
  _queue q = [x] -> _completed q = ∅ -> _in_progress q = ∅ ->
  (retries x + Z.of_nat k <= max_retries q)%Z ->
  exists y,
    Nat.iter k (fun q => fetch_failed q error now) q = set_queue q [y]
    /\ url y = url x /\ retries y = (retries x + Z.of_nat k)%Z.
Proof.
  intros Hq Hc Hip. induction k as [|k IH]; intros Hk.
  - exists x. simpl. split; [|split; [done|lia]].
    destruct q; simpl in *; by subst.
  - destruct IH as (y & Hiter & Hurl & Hret); [lia|].
    rewrite Nat.iter_succ, Hiter.
    rewrite (fetch_failed_retry _ y) by (simpl; done || lia).
    exists (requeued (url y) y now). simpl. split; [done|]. split; [done|]. lia.
Qed.

(** A URL admitted to a fresh queue and failing at every fetch ends in
    [failed] after [max_retries + 1] fetches, with nothing queued and
    nothing in progress. *)
Theorem retry_exhaustion (md mr mu : Z) (u error : string) (p : CrawlPriority)
    (d now : Z) :
  (0 <= mr)%Z -> (0 < mu)%Z -> (d <= md)%Z ->
  fst (add (CrawlQueue_init md mr mu) u p d None None now) = true
  /\ _failed (Nat.iter (Z.to_nat mr + 1) (fun q => fetch_failed q error now)
               (snd (add (CrawlQueue_init md mr mu) u p d None None now))) !! u
     = Some error
  /\ _queue (Nat.iter (Z.to_nat mr + 1) (fun q => fetch_failed q error now)
              (snd (add (CrawlQueue_init md mr mu) u p d None None now))) = []
  /\ _in_progress (Nat.iter (Z.to_nat mr + 1) (fun q => fetch_failed q error now)
                     (snd (add (CrawlQueue_init md mr mu) u p d None None now))) = ∅
  /\ is_empty (Nat.iter (Z.to_nat mr + 1) (fun q => fetch_failed q error now)
                 (snd (add (CrawlQueue_init md mr mu) u p d None None now))) = true.
Proof.
  intros Hmr Hmu Hd.
  assert (Hadd : add (CrawlQueue_init md mr mu) u p d None None now =
            (true, mkCrawlQueue [mkCrawlItem (CrawlPriority_value p) u d None now 0 ∅]
                     ({[u]} ∪ ∅) ∅ ∅ ∅ md mr mu)).
  { rewrite add_admitted_spec; [done|].
    unfold add_refused, total_seen. cbn [_seen max_urls max_depth CrawlQueue_init].
    rewrite size_empty. intros [H|[H|H]]; [lia|lia|set_solver]. }
  rewrite Hadd. simpl fst. simpl snd. split; [done|].
  rewrite Nat.add_1_r, !Nat.iter_succ.
  edestruct (fetch_failed_rounds
               (mkCrawlQueue [mkCrawlItem (CrawlPriority_value p) u d None now 0 ∅]
                  ({[u]} ∪ ∅) ∅ ∅ ∅ md mr mu)
               (mkCrawlItem (CrawlPriority_value p) u d None now 0 ∅)
               error now (Z.to_nat mr)) as (y & -> & Hurl & Hret);
    [done|done|done|simpl; lia|].
  simpl in Hurl, Hret.
  rewrite (fetch_failed_terminal _ y) by (simpl; done || lia).
  simpl. rewrite Hurl. rewrite lookup_insert_eq. repeat split; try done.
Qed.

(** The default queue ([max_depth = 5], [max_retries = 3],
    [max_urls = 1000]): a URL is given up after four failed fetches. *)
Lemma retry_exhaustion_witness :
  fst (add (CrawlQueue_init 5 3 1000) "u" MEDIUM 0 None None 0) = true
  /\ _failed (Nat.iter (Z.to_nat 3 + 1) (fun q => fetch_failed q "timeout" 0)
               (snd (add (CrawlQueue_init 5 3 1000) "u" MEDIUM 0 None None 0))) !! "u"
     = Some "timeout"
  /\ _queue (Nat.iter (Z.to_nat 3 + 1) (fun q => fetch_failed q "timeout" 0)
              (snd (add (CrawlQueue_init 5 3 1000) "u" MEDIUM 0 None None 0))) = []
  /\ _in_progress (Nat.iter (Z.to_nat 3 + 1) (fun q => fetch_failed q "timeout" 0)
                     (snd (add (CrawlQueue_init 5 3 1000) "u" MEDIUM 0 None None 0))) = ∅
  /\ is_empty (Nat.iter (Z.to_nat 3 + 1) (fun q => fetch_failed q "timeout" 0)
                 (snd (add (CrawlQueue_init 5 3 1000) "u" MEDIUM 0 None None 0))) = true.
Proof. apply (retry_exhaustion 5 3 1000 "u" "timeout" MEDIUM 0 0); lia. Defined.

(** Outside the protocol: when the item handed out is reported failed
    twice, the URL is queued twice; once a copy has used up its retries the
    URL is recorded in [failed] while the other copy stays queued. *)
Lemma fail_twice_leaves_copy :
  map url (_queue reported_twice) = ["p"; "p"]
  /\ exists item q,
       get reported_twice = (Some item, q)
       /\ retries item = max_retries q
       /\ _failed (fail q "p" "timeout" (Some item) 3) !! "p" = Some "timeout"
       /\ map url (_queue (fail q "p" "timeout" (Some item) 3)) = ["p"].
Proof.
  split; [vm_compute; reflexivity|].
  eexists _, _. split; [vm_compute; reflexivity|].
  split; [reflexivity|]. split; vm_compute; reflexivity.
Qed.

(** *** Invariants of a session *)

(** In a session that follows the protocol the queue is a heap on the
    priorities, a URL is queued at most once, a queued URL is not in
    progress, and every URL that is queued or in progress has been seen. *)
Theorem frontier_invariant (q : CrawlQueue) :
  in_protocol q ->
  queue_ok q
  /\ NoDup (url <$> _queue q)
  /\ (forall x, x ∈ _queue q -> url x ∉ _in_progress q)
  /\ (forall x, x ∈ _queue q -> url x ∈ _seen q)
  /\ _in_progress q ⊆ _seen q.
Proof.
  intros Hq. split.
  - by apply reachable_queue_ok, in_protocol_reachable.
  - by apply in_protocol_tracked.
Qed.

Lemma frontier_invariant_witness :
  queue_ok low_then_critical /\ NoDup (url <$> _queue low_then_critical).
Proof.
  destruct (frontier_invariant low_then_critical) as (Hok & Hnd & _).
  { apply in_protocol_run; [constructor|reflexivity]. }
  split; done.
Defined.

(** The seen set only grows: every call but [clear] keeps what has been
    seen, and [clear] empties it. *)
Theorem seen_monotone (q : CrawlQueue) (op : Op) :
  if is_clear op then _seen (step q op) = ∅ else _seen q ⊆ _seen (step q op).
Proof.
  destruct (is_clear op) eqn:Hop.
  - by destruct op.
  - by apply step_seen.
Qed.

(** *** Bulk admission and the capacity of the seen set *)

Lemma add_seen_size q u p d ref md now :
  total_seen (snd (add q u p d ref md now))
  = (total_seen q + if fst (add q u p d ref md now) then 1 else 0)%Z.
Proof.
  unfold add. repeat case_bool_decide; simpl; try lia.
  unfold total_seen. simpl.
  rewrite size_union by set_solver. rewrite size_singleton. lia.
Qed.

Lemma add_seen_subseteq q u p d ref md now :
  _seen (snd (add q u p d ref md now)) ⊆ {[u]} ∪ _seen q.
Proof. unfold add. repeat case_bool_decide; simpl; set_solver. Qed.

(** [add_many] returns the number of URLs it admitted, which is the
    growth of the seen set: a URL that was seen before, or that occurs
    earlier in the same list, is not counted, and nothing but URLs of the
    list becomes seen. *)
Theorem add_many_count (q : CrawlQueue) (urls : list string) (p : CrawlPriority)
    (d : Z) (ref : option string) (now : Z) :
  fst (add_many q urls p d ref now)
    = (total_seen (snd (add_many q urls p d ref now)) - total_seen q)%Z
  /\ (0 <= fst (add_many q urls p d ref now) <= Z.of_nat (length urls))%Z
  /\ _seen q ⊆ _seen (snd (add_many q urls p d ref now))
  /\ _seen (snd (add_many q urls p d ref now)) ⊆ list_to_set urls ∪ _seen q.
Proof.
  revert q. induction urls as [|u urls IH]; intros q.
  - simpl. split; [lia|]. split; [lia|]. set_solver.
  - cbn [add_many].
    pose proof (add_seen_size q u p d ref None now) as Hsize.
    pose proof (add_seen_subseteq q u p d ref None now) as Hsub.
    pose proof (step_seen q (OpAdd u p d ref None now) eq_refl) as Hmono.
    simpl in Hmono.
    destruct (add q u p d ref None now) as [ok q1]. simpl in Hsize, Hsub, Hmono.
    specialize (IH q1).
    destruct (add_many q1 urls p d ref now) as [added q2]. simpl in IH |- *.
    destruct IH as (Hc & Hb & Hm & Hs).
    split; [destruct ok; lia|]. split; [destruct ok; lia|].
    split; set_solver.
Qed.

Lemma step_max_urls q op : max_urls (step q op) = max_urls q.
Proof.
  destruct op; simpl.
  - unfold add. by repeat case_bool_decide.
  - destruct (get q) as [[x|] q'] eqn:Hget; simpl.
    + by apply get_Some in Hget as (_ & _ & _ & _ & -> & _).
    + by apply get_None in Hget as [-> _].
  - done.
  - unfold fail. destruct item as [it|]; [case_bool_decide|]; done.
  - done.
  - done.
Qed.

Lemma step_capacity q op :
  (0 <= max_urls q)%Z -> (total_seen q <= max_urls q)%Z ->
  (total_seen (step q op) <= max_urls q)%Z.
Proof.
  intros Hmu Hq. destruct op; simpl.
  - rewrite add_seen_size. unfold add.
    repeat case_bool_decide; simpl; lia.
  - unfold total_seen, get. by rewrite get_loop_seen.
  - done.
  - unfold fail. destruct item as [it|]; [case_bool_decide|]; done.
  - done.
  - unfold total_seen, clear. cbn [_seen]. rewrite size_empty. lia.
Qed.

(** The seen set is bounded: whatever calls are made on a queue built with
    a capacity [max_urls >= 0], the number of URLs seen never exceeds it,
    and the capacity itself never changes. *)
Theorem seen_within_capacity (md mr mu : Z) (ops : list Op) :
  (0 <= mu)%Z ->
  (total_seen (run (CrawlQueue_init md mr mu) ops) <= mu)%Z
  /\ max_urls (run (CrawlQueue_init md mr mu) ops) = mu.
Proof.
  intros Hmu.
  assert (H : forall q, max_urls q = mu -> (total_seen q <= mu)%Z ->
            (total_seen (run q ops) <= mu)%Z /\ max_urls (run q ops) = mu).
  { induction ops as [|op ops IH]; intros q Hq Hs; simpl; [done|].
    apply IH.
    - by rewrite step_max_urls.
    - rewrite <- Hq. apply step_capacity; lia. }
  apply H; [done|]. unfold total_seen, CrawlQueue_init. cbn [_seen].
  rewrite size_empty. lia.
Qed.

Lemma seen_within_capacity_witness :
  (total_seen (run (CrawlQueue_init 5 3 2)
                 [OpAdd "a" HIGH 0 None None 0; OpAdd "b" HIGH 0 None None 0;
                  OpAdd "c" HIGH 0 None None 0; OpGet; OpComplete "a";
                  OpAdd "d" HIGH 0 None None 0]) <= 2)%Z
  /\ max_urls (run (CrawlQueue_init 5 3 2)
                 [OpAdd "a" HIGH 0 None None 0; OpAdd "b" HIGH 0 None None 0;
                  OpAdd "c" HIGH 0 None None 0; OpGet; OpComplete "a";
                  OpAdd "d" HIGH 0 None None 0]) = 2%Z.
Proof. apply (seen_within_capacity 5 3 2); lia. Defined.

(** *** Tiers never overflow *)

Lemma step_priority_bound q op :
  (forall x, x ∈ _queue q -> (priority x <= CrawlPriority_value DEFERRED)%Z) ->
  forall x, x ∈ _queue (step q op) -> (priority x <= CrawlPriority_value DEFERRED)%Z.
Proof.
  intros Hq x. destruct op; simpl.
  - unfold add. repeat case_bool_decide; simpl; auto.
    rewrite push_perm. intros [->|Hx]%elem_of_cons; [|by auto].
    simpl. by destruct p.
  - destruct (get q) as [[y|] q'] eqn:Hget; simpl.
    + apply get_Some in Hget as (skipped & Hperm & _).
      intros Hx. apply Hq. rewrite Hperm. set_solver.
    + apply get_None in Hget as [-> _]. simpl. set_solver.
  - auto.
  - unfold fail. destruct item as [it|]; [case_bool_decide|]; simpl; auto.
    rewrite push_perm. intros [->|Hx]%elem_of_cons; [|by auto].
    simpl. lia.
  - auto.
  - simpl. set_solver.
Qed.

(** However often a URL fails, and whatever item [fail] is given, no queued
    item ever has a priority value beyond that of the lowest tier. *)
Theorem priority_never_overflows (q : CrawlQueue) :
  reachable q ->
  forall x, x ∈ _queue q -> (priority x <= CrawlPriority_value DEFERRED)%Z.
Proof.
  induction 1 as [| q op _ IH].
  - simpl. set_solver.
  - by apply step_priority_bound.
Qed.

Lemma priority_never_overflows_witness :
  Forall (fun x => (priority x <= CrawlPriority_value DEFERRED)%Z)
    (_queue (run (CrawlQueue_init 5 3 1000)
               [OpAdd "p" DEFERRED 0 None None 0; OpGet;
                OpFail "p" "timeout" (Some (mkCrawlItem 4 "p" 0 None 0 0 ∅)) 1])).
Proof.
  apply Forall_forall. apply priority_never_overflows.
  apply reachable_run. constructor.
Defined.

(** *** Batches *)

Lemma get_batch_spec (n : nat) :
  forall q items q',
    queue_ok q -> get_batch q n = (items, q') ->
    length items <= n
    /\ StronglySorted (fun x y => (priority x <= priority y)%Z) items
    /\ (forall x, x ∈ items -> x ∈ _queue q /\ eligible q x)
    /\ NoDup (url <$> items)
    /\ _in_progress q' = list_to_set (url <$> items) ∪ _in_progress q
    /\ _completed q' = _completed q
    /\ (length items < n -> _queue q' = [])
    /\ (forall x y, x ∈ items -> y ∈ _queue q' -> (priority x <= priority y)%Z)
    /\ queue_ok q'
    /\ (forall y, y ∈ _queue q' -> y ∈ _queue q).
Proof.
  induction n as [|n IH]; intros q items q' Hok Hb; simpl in Hb.
  - injection Hb as <- <-. simpl.
    split; [lia|]. split; [constructor|]. split; [set_solver|].
    split; [constructor|]. split; [set_solver|]. split; [done|].
    split; [lia|]. split; [set_solver|]. done.
  - destruct (get q) as [[x|] q1] eqn:Hget.
    + destruct (get_batch q1 n) as [items' q2] eqn:Hb'.
      injection Hb as <- <-.
      apply get_Some in Hget as (skipped & Hperm & _ & Hel & Hq1 & Hheap).
      destruct (Hheap Hok) as [Hok1 Hmin].
      destruct (IH q1 items' q2 Hok1 Hb')
        as (Hlen & Hsort & Hmem & Hnd & Hip & Hc & Hshort & Hrest & Hok2 & Hsub).
      assert (Hq1sub : forall y, y ∈ _queue q1 -> y ∈ _queue q).
      { intros y Hy. rewrite Hperm. set_solver. }
      assert (Hip1 : _in_progress q1 = {[url x]} ∪ _in_progress q) by (by rewrite Hq1).
      assert (Hc1 : _completed q1 = _completed q) by (by rewrite Hq1).
      split; [simpl; lia|]. split.
      { constructor; [done|]. apply Forall_forall. intros y Hy.
        apply Hmin. by apply Hmem. }
      split.
      { intros y [->|Hy]%elem_of_cons.
        - split; [rewrite Hperm; set_solver|done].
        - destruct (Hmem y Hy) as [Hyq [Hyc Hyp]]. split; [by apply Hq1sub|].
          split; [by rewrite <- Hc1|]. rewrite Hip1 in Hyp. set_solver. }
      split.
      { rewrite fmap_cons. constructor; [|done].
        intros (y & Hu & Hy)%list_elem_of_fmap.
        destruct (Hmem y Hy) as [_ [_ Hyp]]. rewrite Hip1 in Hyp. set_solver. }
      split; [rewrite Hip, Hip1, fmap_cons; set_solver|].
      split; [by rewrite Hc|].
      split; [intros Hl; apply Hshort; simpl in Hl; lia|].
      split.
      { intros a y [->|Ha]%elem_of_cons Hy; [|by eapply Hrest].
        apply Hmin. by apply Hsub. }
      split; [done|]. auto.
    + injection Hb as <- <-.
      apply get_None in Hget as [-> _]. simpl.
      split; [lia|]. split; [constructor|]. split; [set_solver|].
      split; [constructor|]. split; [set_solver|]. split; [done|].
      split; [done|]. split; [set_solver|]. split; [apply heap_ok_nil|set_solver].
Qed.

(** [get_batch(size)] hands out at most [size] items, the most urgent
    first, no URL twice (even one that is queued twice), and marks them all
    in progress; nothing left in the queue is more urgent than an item of the
    batch, and a batch shorter than [size] means that the queue has been
    drained. *)
Theorem get_batch_order (q : CrawlQueue) (size : nat) :
  reachable q ->
  length (fst (get_batch q size)) <= size
  /\ StronglySorted (fun x y => (priority x <= priority y)%Z) (fst (get_batch q size))
  /\ NoDup (url <$> fst (get_batch q size))
  /\ (forall x, x ∈ fst (get_batch q size) ->
        x ∈ _queue q /\ eligible q x /\ url x ∈ _in_progress (snd (get_batch q size)))
  /\ (forall x y, x ∈ fst (get_batch q size) -> y ∈ _queue (snd (get_batch q size)) ->
        (priority x <= priority y)%Z)
  /\ (length (fst (get_batch q size)) < size -> _queue (snd (get_batch q size)) = []).
Proof.
  intros Hq%reachable_queue_ok.
  destruct (get_batch q size) as [items q'] eqn:Hb. simpl.
  destruct (get_batch_spec size q items q' Hq Hb)
    as (Hlen & Hsort & Hmem & Hnd & Hip & _ & Hshort & Hrest & _).
  split; [done|]. split; [done|]. split; [done|]. split.
  { intros x Hx. destruct (Hmem x Hx) as [Hxq Hel]. split; [done|]. split; [done|].
    rewrite Hip. apply elem_of_union_l, elem_of_list_to_set.
    by apply list_elem_of_fmap_2. }
  split; done.
Qed.

Lemma get_batch_order_witness :
  map url (fst (get_batch low_then_critical 5)) = ["critical"; "low"]
  /\ NoDup (url <$> fst (get_batch low_then_critical 5))
  /\ _queue (snd (get_batch low_then_critical 5)) = [].
Proof.
  destruct (get_batch_order low_then_critical 5) as (_ & _ & Hnd & _ & _ & Hshort).
  { apply reachable_run. constructor. }
  split; [vm_compute; reflexivity|]. split; [done|].
  apply Hshort. vm_compute. lia.
Defined.

(** *** Reports outside the protocol *)

Lemma fail_requeue (q : CrawlQueue) (u error : string) (item : CrawlItem) (now : Z) :
  (retries item < max_retries q)%Z ->
  fail q u error (Some item) now
  = set_queue (set_in_progress q (_in_progress q ∖ {[u]}))
      (heapq.heappush CrawlItem_lt (_queue q) (requeued u item now)).
Proof.
  intros Hlt. unfold fail. simpl. by rewrite bool_decide_eq_true_2 by done.
Qed.

(** [fail] does not look at what is queued: with retries left it pushes
    the URL, so reporting the same item failed twice leaves the URL queued
    twice. *)
Theorem fail_twice_queues_twice (q : CrawlQueue) (u error : string)
    (item : CrawlItem) (now now' : Z) :
  (retries item < max_retries q)%Z ->
  url <$> _queue (fail (fail q u error (Some item) now) u error (Some item) now')
    ≡ₚ u :: u :: (url <$> _queue q).
Proof.
  intros Hlt. rewrite (fail_requeue q) by done.
  rewrite fail_requeue by done. simpl.
  rewrite push_perm. simpl. by rewrite push_perm.
Qed.

Lemma fail_twice_queues_twice_witness :
  url <$> _queue (fail (fail high_in_progress "p" "timeout" (Some high_item) 1)
                    "p" "timeout" (Some high_item) 2)
    ≡ₚ "p" :: "p" :: (url <$> _queue high_in_progress).
Proof. apply fail_twice_queues_twice. vm_compute. reflexivity. Defined.

(** ** Saving and restoring the crawl state *)

Section heap_rebuild.
Context {A : Type} (key : A -> Z).

(** An item that respects its parent stays where [heappush] appends it. *)
Lemma heappush_in_place (h : list A) (x : A) :
  heap_ok key (h ++ [x]) -> heapq.heappush (key_lt key) h x = h ++ [x].
Proof.
  intros Hok. unfold heapq.heappush, heapq._siftdown.
  rewrite length_app. simpl. replace (length h + 1 - 1) with (length h) by lia.
  assert (Hx : (h ++ [x]) !! length h = Some x).
  { rewrite lookup_app_r by lia. by rewrite Nat.sub_diag. }
  rewrite Hx.
  destruct (length h) as [|n] eqn:Hn.
  - simpl. by apply list_insert_id.
  - rewrite siftdown_loop_S. rewrite bool_decide_eq_true_2 by lia.
    destruct ((h ++ [x]) !! parent (S n)) as [p|] eqn:Hp; [|by apply list_insert_id].
    unfold key_lt.
    assert (key p <= key x)%Z by (eapply (Hok (S n)); [lia|done|done]).
    replace (key x <? key p)%Z with false by (symmetry; apply Z.ltb_ge; lia).
    by apply list_insert_id.
Qed.

Lemma heap_ok_prefix (h : list A) (x : A) : heap_ok key (h ++ [x]) -> heap_ok key h.
Proof.
  intros Hok i y p Hi Hy Hp.
  apply (Hok i y p Hi); apply lookup_app_l_Some; done.
Qed.

(** Pushing the items of a heap in the order of its array gives the same
    array. *)
Lemma heappush_in_order (h : list A) :
  heap_ok key h -> fold_left (heapq.heappush (key_lt key)) h [] = h.
Proof.
  induction h as [|x h IH] using rev_ind; intros Hok; [done|].
  rewrite fold_left_app. simpl.
  rewrite IH by (by eapply heap_ok_prefix).
  by apply heappush_in_place.
Qed.
End heap_rebuild.

Lemma heap_ok_fmap {A B : Type} (key : A -> Z) (key' : B -> Z) (g : A -> B) (h : list A) :
  (forall x, key' (g x) = key x) -> heap_ok key h -> heap_ok key' (g <$> h).
Proof.
  intros Hg Hok i y p Hi Hy Hp.
  apply list_lookup_fmap_Some in Hy as (y0 & -> & Hy0).
  apply list_lookup_fmap_Some in Hp as (p0 & -> & Hp0).
  rewrite !Hg. by eapply Hok.
Qed.

Lemma restore_completed_spec (l : list string) (q : CrawlQueue) :
  fold_left (fun q u =>
               set_completed (set_seen q ({[u]} ∪ _seen q)) ({[u]} ∪ _completed q)) l q
  = set_completed (set_seen q (list_to_set l ∪ _seen q)) (list_to_set l ∪ _completed q).
Proof.
  revert q. induction l as [|u l IH]; intros q; simpl.
  - destruct q. unfold set_completed, set_seen. simpl. f_equal; set_solver.
  - rewrite IH. unfold set_completed, set_seen. simpl. f_equal; set_solver.
Qed.

Lemma restore_failed_spec (l : list string) (q : CrawlQueue) :
  fold_left (fun q u => set_seen q ({[u]} ∪ _seen q)) l q
  = set_seen q (list_to_set l ∪ _seen q).
Proof.
  revert q. induction l as [|u l IH]; intros q; simpl.
  - destruct q. unfold set_seen. simpl. f_equal; set_solver.
  - rewrite IH. unfold set_seen. simpl. f_equal; set_solver.
Qed.

Lemma restore_queue_spec (now : Z) (l : list ItemData) (q : CrawlQueue) :
  fold_left (fun q d =>
               let item := restored_item now d in
               let q := set_seen q ({[url item]} ∪ _seen q) in
               set_queue q (heapq.heappush CrawlItem_lt (_queue q) item)) l q
  = set_queue (set_seen q (list_to_set (data_url <$> l) ∪ _seen q))
      (fold_left (heapq.heappush CrawlItem_lt) (restored_item now <$> l) (_queue q)).
Proof.
  revert q. induction l as [|d l IH]; intros q; simpl.
  - destruct q. unfold set_queue, set_seen. simpl. f_equal; set_solver.
  - rewrite IH. unfold set_queue, set_seen. simpl. f_equal; set_solver.
Qed.

Lemma item_data_restored (now : Z) (d : ItemData) : item_data (restored_item now d) = d.
Proof. by destruct d. Qed.

(** What [restore_state] makes of a state saved from a queue that is a
    heap. *)
Lemma restore_saved (states : CrawlStateManager) (scan_id : N) (q target : CrawlQueue)
    (ts now : Z) :
  queue_ok q ->
  restore_state (snd (save_state states scan_id q ts)) scan_id target now
  = (true,
     mkCrawlQueue (restored_item now <$> (item_data <$> _queue q))
       (list_to_set (url <$> _queue q) ∪ (dom (_failed q) ∪ (_completed q ∪ ∅)))
       ∅ (_completed q ∪ ∅) (_failed q)
       (max_depth target) (max_retries target) (max_urls target)).
Proof.
  intros Hok. unfold restore_state, save_state. cbn [snd].
  unfold CrawlStateManager in *.
  rewrite lookup_insert_eq. cbn [state_completed state_failed state_queue].
  rewrite restore_completed_spec.
  cbn [set_failed set_completed set_seen clear _queue _seen _in_progress _completed
       _failed max_depth max_retries max_urls].
  rewrite restore_failed_spec.
  rewrite restore_queue_spec.
  unfold set_queue, set_seen, set_failed, set_completed, clear.
  cbn [_queue _seen _in_progress _completed _failed max_depth max_retries max_urls].
  f_equal. f_equal.
  - change CrawlItem_lt with (key_lt priority).
    apply heappush_in_order.
    apply (heap_ok_fmap data_priority); [done|].
    by apply (heap_ok_fmap priority).
  - rewrite list_to_set_elements_L.
    assert (Hdom : list_to_set (fst <$> map_to_list (_failed q)) = dom (_failed q)).
    { apply set_eq. intros u. rewrite elem_of_list_to_set, elem_of_dom.
      rewrite list_elem_of_fmap. split.
      - intros ([k v] & -> & Hkv). apply elem_of_map_to_list in Hkv. by eexists.
      - intros [v Hv]. exists (u, v). split; [done|]. by apply elem_of_map_to_list. }
    rewrite Hdom. by rewrite <- list_fmap_compose.
  - by rewrite list_to_set_elements_L.
Qed.

(** Round trip: restoring a state saved from a queue gives back its queued
    items (URL, priority, depth and retries, in the same heap order), its
    completed set and its failed map.  Nothing is in progress afterwards, the
    seen set is rebuilt from the three, and the limits are those of the queue
    restored into. *)
Theorem save_restore_round_trip (states : CrawlStateManager) (scan_id : N)
    (q target : CrawlQueue) (ts now : Z) :
  reachable q ->
  fst (restore_state (snd (save_state states scan_id q ts)) scan_id target now) = true
  /\ item_data <$> _queue (snd (restore_state (snd (save_state states scan_id q ts))
                                  scan_id target now))
     = item_data <$> _queue q
  /\ _completed (snd (restore_state (snd (save_state states scan_id q ts))
                        scan_id target now)) = _completed q
  /\ _failed (snd (restore_state (snd (save_state states scan_id q ts))
                     scan_id target now)) = _failed q
  /\ _in_progress (snd (restore_state (snd (save_state states scan_id q ts))
                          scan_id target now)) = ∅
  /\ _seen (snd (restore_state (snd (save_state states scan_id q ts))
                   scan_id target now))
     = list_to_set (url <$> _queue q) ∪ dom (_failed q) ∪ _completed q
  /\ max_urls (snd (restore_state (snd (save_state states scan_id q ts))
                      scan_id target now)) = max_urls target
  /\ queue_ok (snd (restore_state (snd (save_state states scan_id q ts))
                      scan_id target now)).
Proof.
  intros Hq%reachable_queue_ok. rewrite restore_saved by done. simpl.
  split; [done|]. split.
  { rewrite <- list_fmap_compose. rewrite <- (list_fmap_id (item_data <$> _queue q)) at 2.
    apply list_fmap_ext. intros i d _. apply item_data_restored. }
  split; [set_solver|]. split; [done|]. split; [done|]. split; [set_solver|].
  split; [done|].
  unfold queue_ok. simpl.
  apply (heap_ok_fmap data_priority); [done|].
  by apply (heap_ok_fmap priority).
Qed.

Lemma save_restore_round_trip_witness :
  map data_url (item_data <$> _queue mid_session) = ["next"; "later"]
  /\ _in_progress mid_session = {["busy"]}
  /\ item_data <$> _queue (snd (restore_state (snd (save_state ∅ 7 mid_session 10)) 7
                                  (CrawlQueue_init 3 1 50) 11))
     = item_data <$> _queue mid_session
  /\ _completed (snd (restore_state (snd (save_state ∅ 7 mid_session 10)) 7
                        (CrawlQueue_init 3 1 50) 11)) = {["done"]}
  /\ _in_progress (snd (restore_state (snd (save_state ∅ 7 mid_session 10)) 7
                          (CrawlQueue_init 3 1 50) 11)) = ∅.
Proof.
  destruct (save_restore_round_trip ∅ 7 mid_session (CrawlQueue_init 3 1 50) 10 11)
    as (_ & Hq & Hc & _ & Hip & _).
  { apply reachable_run. constructor. }
  split; [vm_compute; reflexivity|]. split; [vm_compute; reflexivity|].
  split; [done|]. split; [|done].
  rewrite Hc. vm_compute. reflexivity.
Defined.

(** What a saved state does not hold: a URL that was only seen or in
    progress (neither queued, completed nor failed) when the state was
    saved is unknown after the restore, and [add] admits it again. *)
Theorem restore_forgets_in_progress (states : CrawlStateManager) (scan_id : N)
    (q target : CrawlQueue) (ts now : Z) (u : string) (p : CrawlPriority) (d : Z)
    (ref : option string) (md : option (gmap string string)) (now' : Z) :
  reachable q ->
  u ∉ url <$> _queue q -> u ∉ _completed q -> _failed q !! u = None ->
  (u ∉ _seen (snd (restore_state (snd (save_state states scan_id q ts))
                     scan_id target now)))
  /\ ((total_seen (snd (restore_state (snd (save_state states scan_id q ts))
                          scan_id target now)) < max_urls target)%Z ->
      (d <= max_depth target)%Z ->
      fst (add (snd (restore_state (snd (save_state states scan_id q ts))
                       scan_id target now)) u p d ref md now') = true).
Proof.
  intros Hq%reachable_queue_ok Hqu Hc Hf.
  rewrite restore_saved by done. cbn [snd].
  assert (Hu : u ∉ list_to_set (url <$> _queue q)
                   ∪ (dom (_failed q) ∪ (_completed q ∪ (∅ : gset string)))).
  { apply not_elem_of_dom in Hf. rewrite !not_elem_of_union, elem_of_list_to_set.
    set_solver. }
  split; [done|].
  intros Hcap Hd. rewrite add_admitted_spec; [done|].
  unfold add_refused. cbn [_seen max_urls max_depth]. unfold total_seen in *.
  intros [H|[H|H]]; [lia|lia|done].
Qed.

Lemma restore_forgets_in_progress_witness :
  ("busy" ∈ _in_progress mid_session)
  /\ ("busy" ∈ _seen mid_session)
  /\ fst (add mid_session "busy" HIGH 1 None None 12) = false
  /\ fst (add (snd (restore_state (snd (save_state ∅ 7 mid_session 10)) 7
                      (CrawlQueue_init 3 1 50) 11)) "busy" HIGH 1 None None 12) = true.
Proof.
  split; [vm_compute; reflexivity|]. split; [vm_compute; reflexivity|].
  split; [vm_compute; reflexivity|].
  apply restore_forgets_in_progress.
  - apply reachable_run. constructor.
  - vm_compute. intros H. repeat (apply elem_of_cons in H as [H|H]; [discriminate|]).
    by apply elem_of_nil in H.
  - vm_compute. discriminate.
  - vm_compute. reflexivity.
  - vm_compute. reflexivity.
  - vm_compute. discriminate.
Defined.

(** The manager is a store keyed by scan: restoring an unknown scan returns
    [False] and leaves the queue as it was, also after [clear_state]; saving
    or clearing one scan does not change what another scan restores. *)
Theorem states_keyed_by_scan (states : CrawlStateManager) (scan_id other : N)
    (q saved : CrawlQueue) (ts now : Z) :
  (states !! scan_id = None -> restore_state states scan_id q now = (false, q))
  /\ restore_state (clear_state states scan_id) scan_id q now = (false, q)
  /\ (scan_id ≠ other ->
      restore_state (clear_state states scan_id) other q now
        = restore_state states other q now
      /\ restore_state (snd (save_state states scan_id saved ts)) other q now
        = restore_state states other q now).
Proof.
  unfold restore_state, clear_state, save_state, CrawlStateManager in *. cbn [snd].
  split; [by intros ->|]. split; [by rewrite lookup_delete_eq|].
  intros Hne. by rewrite lookup_delete_ne, lookup_insert_ne.
Qed.

(** *** The accounts of a session *)

Lemma queued_push q x :
  queued (set_queue q (heapq.heappush CrawlItem_lt (_queue q) x)) = {[url x]} ∪ queued q.
Proof.
  unfold queued. simpl. apply set_eq. intros u.
  rewrite elem_of_list_to_set, push_perm, fmap_cons. set_solver.
Qed.

Lemma accounted_push q x :
  accounted q -> url x ∉ queued q -> url x ∉ _in_progress q -> url x ∉ _completed q ->
  url x ∉ dom (_failed q) -> url x ∈ _seen q ->
  accounted (set_queue q (heapq.heappush CrawlItem_lt (_queue q) x)).
Proof.
  intros (Hnd & H1 & H2 & H3 & H4 & H5 & H6 & H7) Hq Hip Hc Hf Hs.
  unfold accounted. rewrite queued_push. simpl.
  split.
  { rewrite push_perm, fmap_cons. constructor; [|done].
    intros Hin. apply Hq. unfold queued. by apply elem_of_list_to_set. }
  repeat split; set_solver.
Qed.

Lemma accounted_step q op : accounted q -> reports_in_progress q op -> accounted (step q op).
Proof.
  intros Hq Hop. pose proof Hq as (Hnd & H1 & H2 & H3 & H4 & H5 & H6 & H7).
  destruct op; simpl in *.
  - unfold add. repeat case_bool_decide; try done. simpl.
    apply (accounted_push (set_seen q ({[u]} ∪ _seen q))); simpl.
    + unfold accounted, queued in *. simpl. repeat split; try done. set_solver.
    + unfold queued in *. simpl. set_solver.
    + set_solver.
    + set_solver.
    + set_solver.
    + set_solver.
  - destruct (get q) as [[x|] q'] eqn:Hget; simpl.
    + apply get_Some in Hget as (skipped & Hperm & _ & _ & -> & _).
      assert (Hsub : forall u, u ∈ url <$> _queue q' -> u ∈ url <$> _queue q).
      { intros u Hu. rewrite Hperm, fmap_app, fmap_cons. set_solver. }
      assert (Hx : url x ∈ queued q).
      { unfold queued. apply elem_of_list_to_set.
        rewrite Hperm, fmap_app, fmap_cons. set_solver. }
      pose proof Hnd as Hnd'. rewrite Hperm, fmap_app, fmap_cons in Hnd'.
      apply NoDup_app in Hnd' as (_ & _ & Hnd').
      apply NoDup_cons in Hnd' as [Hxq Hnd'].
      assert (Hq' : forall u, u ∈ queued (set_in_progress (set_queue q (_queue q'))
                                            ({[url x]} ∪ _in_progress q)) ->
                    u ∈ queued q /\ u <> url x).
      { unfold queued. simpl. intros u Hu%elem_of_list_to_set. split.
        - apply elem_of_list_to_set. by apply Hsub.
        - intros ->. done. }
      unfold accounted. simpl. split; [done|].
      repeat split; intros u; try (specialize (Hq' u)); set_solver.
    + apply get_None in Hget as [-> _]. unfold accounted, queued in *. simpl.
      split; [constructor|]. repeat split; set_solver.
  - unfold accounted, queued in *. simpl. split; [done|]. repeat split; set_solver.
  - unfold fail. destruct item as [it|].
    + case_bool_decide.
      * apply (accounted_push (set_in_progress q (_in_progress q ∖ {[u]}))); simpl.
        -- unfold accounted, queued in *. simpl. split; [done|]. repeat split; set_solver.
        -- unfold queued in *. simpl. set_solver.
        -- set_solver.
        -- set_solver.
        -- set_solver.
        -- set_solver.
      * unfold accounted, queued in *. simpl. rewrite dom_insert_L.
        split; [done|]. repeat split; set_solver.
    + unfold accounted, queued in *. simpl. rewrite dom_insert_L.
      split; [done|]. repeat split; set_solver.
  - unfold accounted, queued in *. simpl. split; [done|]. repeat split; set_solver.
  - unfold accounted, queued. simpl. split; [constructor|]. repeat split; set_solver.
Qed.

Lemma in_session_accounted q : in_session q -> accounted q.
Proof.
  induction 1 as [| q op _ IH Hl].
  - unfold accounted, queued. simpl. split; [constructor|]. repeat split; set_solver.
  - by apply accounted_step.
Qed.

Lemma in_session_run (ops : list Op) : forall q,
  in_session q -> all_reported q ops = true -> in_session (run q ops).
Proof.
  induction ops as [|op ops IH]; intros q Hq Hok; [done|].
  cbn [all_reported] in Hok. apply andb_true_iff in Hok as [Hop Hok].
  simpl. apply IH; [|done].
  constructor; [done|].
  destruct op; simpl; try done; by apply bool_decide_eq_true in Hop.
Qed.

(** In a session whose workers report only URLs that are in progress,
    every URL is in at most one of the states queued, in progress, completed
    and failed, and every such URL has been seen; so the counts of
    [get_stats] add up to no more than [total_seen]. *)
Theorem session_accounts (q : CrawlQueue) :
  in_session q ->
  accounted q
  /\ (stats_pending (get_stats q) + stats_in_progress (get_stats q)
      + stats_completed (get_stats q) + stats_failed (get_stats q)
      <= stats_total_seen (get_stats q))%Z.
Proof.
  intros Hq%in_session_accounted. split; [done|].
  destruct Hq as (Hnd & H1 & H2 & H3 & H4 & H5 & H6 & H7).
  unfold get_stats, pending_count, in_progress_count, completed_count, failed_count,
    total_seen. simpl.
  apply subseteq_size in H7.
  rewrite !size_union in H7 by set_solver.
  unfold queued in H7. rewrite size_list_to_set in H7 by done.
  rewrite length_fmap in H7. rewrite size_dom in H7. lia.
Qed.

Lemma session_accounts_witness :
  get_stats mid_session = mkStats 2 1 1 1 5 1000
  /\ accounted mid_session.
Proof.
  split; [vm_compute; reflexivity|].
  apply session_accounts. apply in_session_run; [constructor|].
  vm_compute. reflexivity.
Defined.

(** ** The price monitor *)

Lemma Qle_bool_false (x y : Q) : Qle_bool x y = false <-> (y < x)%Q.
Proof.
  split.
  - intros H. apply Qnot_le_lt. intros Hle. apply Qle_bool_iff in Hle. congruence.
  - intros H. destruct (Qle_bool x y) eqn:E; [|done].
    apply Qle_bool_iff in E. exfalso. by apply (Qlt_not_le y x).
Qed.

Lemma Qeq_bool_false (x y : Q) : Qeq_bool x y = false <-> ~ (x == y)%Q.
Proof.
  split.
  - intros H Heq. apply Qeq_bool_iff in Heq. congruence.
  - intros H. destruct (Qeq_bool x y) eqn:E; [|done].
    apply Qeq_bool_iff in E. done.
Qed.

Lemma change_percent_threshold (old_price new_price : Q) :
  (price_change_threshold * 100 <= Qabs ((new_price - old_price) / old_price * 100)
   <-> price_change_threshold <= Qabs (relative_delta old_price new_price))%Q.
Proof.
  unfold relative_delta. rewrite Qabs_Qmult.
  change (Qabs 100) with 100%Q. split; intros H.
  - apply Qmult_le_r in H; [done|reflexivity].
  - apply Qmult_le_r; [reflexivity|done].
Qed.

Lemma change_percent_sign (old_price new_price : Q) :
  (0 < old_price)%Q ->
  ((new_price - old_price) / old_price * 100 <= 0 <-> new_price <= old_price)%Q.
Proof.
  intros Hold. split; intros H.
  - assert (H1 : ((new_price - old_price) / old_price <= 0)%Q).
    { apply (Qmult_le_r _ _ 100); [reflexivity|]. by rewrite Qmult_0_l. }
    assert (H2 : (new_price - old_price <= 0)%Q).
    { apply (Qmult_le_r _ _ (/ old_price)); [by apply Qinv_lt_0_compat|].
      by rewrite Qmult_0_l. }
    lra.
  - assert (H1 : (new_price - old_price <= 0)%Q) by lra.
    assert (H2 : ((new_price - old_price) / old_price <= 0)%Q).
    { unfold Qdiv. rewrite <- (Qmult_0_l (/ old_price)).
      apply Qmult_le_r; [by apply Qinv_lt_0_compat|done]. }
    rewrite <- (Qmult_0_l 100). apply Qmult_le_r; [reflexivity|done].
Qed.




(** *** Price parsing *)

Lemma str_rindex_has c s : str_has c s = true -> exists i, str_rindex c s = Some i.
Proof.
  induction s as [|d s IH]; simpl; [done|].
  destruct (str_rindex c s) as [i|]; [by eauto|].
  destruct (Ascii.eqb c d); simpl; [by eauto|].
  intros H. destruct (IH H) as [i Hi]. done.
Qed.

Lemma cleaned_price_total s : exists c, cleaned_price s = Return c.
Proof.
  unfold cleaned_price.
  destruct (str_has "," (strip_currency s)) eqn:Hc;
    destruct (str_has "." (strip_currency s)) eqn:Hd; simpl.
  - destruct (str_rindex_has _ _ Hc) as [i ->].
    destruct (str_rindex_has _ _ Hd) as [j ->]. simpl.
    destruct (j <? i)%nat; eauto.
  - destruct (_ =? 2)%nat; eauto.
  - eauto.
  - eauto.
Qed.

Lemma normalize_price_total s :
  exists c, cleaned_price s = Return c
    /\ normalize_price s = Return (try_except (Decimal_of_string c) Decimal_zero).
Proof.
  destruct (cleaned_price_total s) as [c Hc]. exists c. split; [done|].
  unfold normalize_price. by rewrite Hc.
Qed.

Lemma price_record_positive fd url element m r :
  price_record fd url element m = Return (Some r) -> positive r.
Proof.
  unfold price_record, positive.
  destruct (normalize_price m) as [p|]; simpl; [|done].
  destruct (Decimal_gt p Decimal_zero) as [[]|] eqn:Hgt; simpl; try done.
  destruct (sale_info fd p (el_parent element)) as [[[o s] d]|]; simpl; [|done].
  intros [= <-]. done.
Qed.

Lemma element_prices_positive fd url element matches prices prices' :
  Forall positive prices ->
  element_prices fd url element matches prices = Return prices' ->
  Forall positive prices'.
Proof.
  revert prices. induction matches as [|m matches IH]; intros prices Hp; simpl.
  - by intros [= <-].
  - destruct (price_record fd url element m) as [[r|]|] eqn:Hr; simpl; [| |done].
    + apply IH. apply Forall_app. split; [done|].
      constructor; [|done]. by eapply price_record_positive.
    + by apply IH.
Qed.

Lemma extract_prices_loop_positive fd url elements found prices prices' :
  Forall positive prices ->
  extract_prices_loop fd url elements found prices = Return prices' ->
  Forall positive prices'.
Proof.
  revert found prices. induction elements as [|el elements IH]; intros found prices Hp; simpl.
  - by intros [= <-].
  - case_bool_decide; [by apply IH|].
    destruct (element_prices fd url el (el_matches el) prices) as [ps|] eqn:He; simpl; [|done].
    apply IH. by eapply element_prices_positive.
Qed.

Lemma str_forall_impl (P Q : ascii -> bool) s :
  (forall c, P c = true -> Q c = true) -> str_forall P s = true -> str_forall Q s = true.
Proof.
  intros HPQ. induction s as [|c s IH]; simpl; [done|].
  intros [Hc Hs]%andb_true_iff. rewrite (HPQ c Hc). by apply IH.
Qed.

Lemma str_forall_filter (P Q f : ascii -> bool) s :
  (forall c, P c = true -> f c = true -> Q c = true) ->
  str_forall P s = true -> str_forall Q (str_filter f s) = true.
Proof.
  intros HPQ. induction s as [|c s IH]; simpl; [done|].
  intros [Hc Hs]%andb_true_iff. destruct (f c) eqn:Hf; simpl; [|by apply IH].
  rewrite (HPQ c Hc Hf). by apply IH.
Qed.

Lemma str_forall_map (P Q : ascii -> bool) (f : ascii -> ascii) s :
  (forall c, P c = true -> Q (f c) = true) ->
  str_forall P s = true -> str_forall Q (str_map f s) = true.
Proof.
  intros HPQ. induction s as [|c s IH]; simpl; [done|].
  intros [Hc Hs]%andb_true_iff. rewrite (HPQ c Hc). by apply IH.
Qed.

Lemma str_forall_lstrip (P f : ascii -> bool) s :
  str_forall P s = true -> str_forall P (str_lstrip f s) = true.
Proof.
  induction s as [|c s IH]; simpl; [done|].
  intros H. destruct (f c); [|done].
  apply andb_true_iff in H as [_ H]. by apply IH.
Qed.

Lemma str_forall_rstrip (P f : ascii -> bool) s :
  str_forall P s = true -> str_forall P (str_rstrip f s) = true.
Proof.
  induction s as [|c s IH]; simpl; [done|].
  intros [Hc Hs]%andb_true_iff. specialize (IH Hs).
  destruct (str_rstrip f s) as [|d r].
  - destruct (f c); simpl; [done|]. by rewrite Hc.
  - simpl in *. by rewrite Hc, IH.
Qed.

Lemma price_char_plain c :
  price_char c = true ->
  Ascii.eqb c "$" = false /\ (code c =? 194)%nat = false /\ (code c =? 226)%nat = false.
Proof. by_cases_on_char c; repeat split. Qed.

Lemma price_char_not_space c :
  price_char c = true -> negb (is_space c) = true -> digit_or_sep c = true.
Proof. by_cases_on_char c. Qed.

Lemma digit_or_sep_no_comma c :
  digit_or_sep c = true -> negb (Ascii.eqb c ",") = true -> digit_or_dot c = true.
Proof. by_cases_on_char c. Qed.

Lemma digit_or_sep_comma_to_dot c :
  digit_or_sep c = true -> digit_or_dot (if Ascii.eqb c "," then "."%char else c) = true.
Proof. by_cases_on_char c. Qed.

Lemma digit_or_dot_plain c :
  digit_or_dot c = true ->
  is_space c = false /\ Ascii.eqb c "_" = false /\ char_lower c = c
  /\ Ascii.eqb "-" c = false /\ str_has c "+-" = false
  /\ Ascii.eqb "i" c = false /\ Ascii.eqb "n" c = false /\ Ascii.eqb "s" c = false.
Proof. by_cases_on_char c; repeat split. Qed.

Lemma digit_or_sep_without_comma s :
  str_has "," s = false -> str_forall digit_or_sep s = true ->
  str_forall digit_or_dot s = true.
Proof.
  induction s as [|a s IH]; cbn [str_has str_forall]; [done|].
  intros [H1 H2]%orb_false_iff [H3 H4]%andb_true_iff.
  rewrite IH by done. rewrite andb_true_r.
  apply digit_or_sep_no_comma; [done|]. by rewrite Ascii.eqb_sym, H1.
Qed.

Lemma strip_currency_price_text s :
  price_text s = true ->
  strip_currency s = str_filter (fun c => negb (is_space c)) s.
Proof.
  unfold price_text. induction s as [|c s1 IH]; [done|].
  intros [Hc Hs]%andb_true_iff. specialize (IH Hs).
  destruct (price_char_plain c Hc) as (H1 & H2 & H3).
  cbn [strip_currency str_filter]. rewrite H1, H2, H3. cbn [orb andb].
  destruct (is_space c); cbn [negb]; [done|].
  rewrite <- IH. destruct s1 as [|c2 [|c3 s3]]; done.
Qed.

Lemma cleaned_price_digits m :
  price_text m = true ->
  exists c, cleaned_price m = Return c /\ str_forall digit_or_dot c = true.
Proof.
  intros Hm.
  assert (Hsep : str_forall digit_or_sep (strip_currency m) = true).
  { rewrite strip_currency_price_text by done.
    eapply str_forall_filter; [|exact Hm]. apply price_char_not_space. }
  assert (Hremove : str_forall digit_or_dot (str_remove "," (strip_currency m)) = true).
  { eapply str_forall_filter; [|exact Hsep]. apply digit_or_sep_no_comma. }
  assert (Hreplace : forall s, str_forall digit_or_sep s = true ->
            str_forall digit_or_dot (str_replace "," "." s) = true).
  { intros s Hs. eapply str_forall_map; [|exact Hs]. apply digit_or_sep_comma_to_dot. }
  unfold cleaned_price.
  destruct (str_has "," (strip_currency m)) eqn:Hc;
    destruct (str_has "." (strip_currency m)) eqn:Hd; cbn [andb].
  - destruct (str_rindex_has _ _ Hc) as [i ->].
    destruct (str_rindex_has _ _ Hd) as [j ->]. simpl.
    destruct (j <? i)%nat; eexists; (split; [reflexivity|]); [|done].
    apply Hreplace. eapply str_forall_filter; [|exact Hsep]. by intros c ->.
  - destruct (_ =? 2)%nat; eexists; (split; [reflexivity|]); [|done].
    by apply Hreplace.
  - eexists. split; [reflexivity|]. by apply digit_or_sep_without_comma.
  - eexists. split; [reflexivity|]. by apply digit_or_sep_without_comma.
Qed.

(** [Decimal] reads a text of digits and points as a finite number, or
    rejects it: no infinity and no NaN is spelt with these characters. *)
Lemma Decimal_of_digits c :
  str_forall digit_or_dot c = true ->
  match Decimal_of_string c with
  | Return d => is_finite d
  | Raise _ => True
  end.
Proof.
  intros Hc. unfold Decimal_of_string.
  set (s := str_lower (str_remove "_" (str_strip c))).
  assert (Hs : str_forall digit_or_dot s = true).
  { unfold s, str_lower, str_remove, str_strip.
    eapply str_forall_map; [|eapply str_forall_filter;
      [|apply str_forall_rstrip, str_forall_lstrip, Hc]].
    - intros a Ha. destruct (digit_or_dot_plain a Ha) as (_ & _ & -> & _). exact Ha.
    - intros a Ha _. exact Ha. }
  clearbody s. clear c Hc.
  assert (Hsign : drop_sign s = s).
  { destruct s as [|a s]; [done|]. simpl in Hs. apply andb_true_iff in Hs as [Ha _].
    destruct (digit_or_dot_plain a Ha) as (_ & _ & _ & _ & Hpm & _).
    unfold drop_sign. by rewrite Hpm. }
  rewrite Hsign.
  assert (Hinf : str_in s ["inf"; "infinity"] = false).
  { destruct s as [|a s]; [done|]. simpl in Hs. apply andb_true_iff in Hs as [Ha _].
    destruct (digit_or_dot_plain a Ha) as (_ & _ & _ & _ & _ & Hi & _).
    unfold str_in. simpl.
    rewrite !(Ascii.eqb_sym a), Hi. done. }
  rewrite Hinf.
  assert (Hnan : startswith "nan" s = false).
  { destruct s as [|a s]; [done|]. simpl in Hs. apply andb_true_iff in Hs as [Ha _].
    destruct (digit_or_dot_plain a Ha) as (_ & _ & _ & _ & _ & _ & Hn & _).
    cbn [startswith]. by rewrite Hn. }
  assert (Hsnan : startswith "snan" s = false).
  { destruct s as [|a s]; [done|]. simpl in Hs. apply andb_true_iff in Hs as [Ha _].
    destruct (digit_or_dot_plain a Ha) as (_ & _ & _ & _ & _ & _ & _ & Hsn).
    cbn [startswith]. by rewrite Hsn. }
  rewrite Hnan, Hsnan. cbn [andb].
  destruct (str_span is_digit s) as [int rest].
  destruct (match rest with
            | EmptyString => (EmptyString, rest)
            | String a rest' =>
                if Ascii.eqb a "." then str_span is_digit rest' else (EmptyString, rest)
            end) as [frac rest2].
  destruct (String.eqb int "" && String.eqb frac ""); [done|].
  destruct (match rest2 with
            | EmptyString => Some 0%Z
            | String a rest' => if Ascii.eqb a "e" then parse_exponent rest' else None
            end); done.
Qed.

Lemma normalize_price_finite m :
  price_text m = true -> exists d, normalize_price m = Return d /\ is_finite d.
Proof.
  intros Hm. destruct (cleaned_price_digits m Hm) as (c & Hc & Hdigits).
  unfold normalize_price. rewrite Hc. simpl.
  eexists. split; [reflexivity|].
  pose proof (Decimal_of_digits c Hdigits) as Hd.
  destruct (Decimal_of_string c); simpl; done.
Qed.

Lemma Decimal_gt_finite a b :
  is_finite a -> is_finite b -> exists r, Decimal_gt a b = Return r.
Proof. destruct a, b; simpl; try done; eauto. Qed.

Lemma price_record_total fd url element m :
  captured_by_patterns element -> price_text m = true ->
  exists r, price_record fd url element m = Return r.
Proof.
  intros [_ Hstrike] Hm. unfold price_record.
  destruct (normalize_price_finite m Hm) as (p & -> & Hp). simpl.
  destruct (Decimal_gt_finite p Decimal_zero Hp I) as [[] ->]; simpl; [|by eauto].
  unfold sale_info. destruct (el_parent element) as [parent|] eqn:Hparent; simpl; [|by eauto].
  unfold strike_info. destruct (strike_match parent) as [orig|] eqn:Horig; simpl.
  - destruct (normalize_price_finite orig (Hstrike _ _ eq_refl Horig)) as (o & -> & Ho).
    simpl. destruct (Decimal_gt_finite o p Ho Hp) as [[] ->]; simpl;
      destruct (discount_match parent); simpl; eauto.
  - destruct (discount_match parent); simpl; eauto.
Qed.

Lemma element_prices_total fd url element matches prices :
  captured_by_patterns element ->
  Forall (fun m => price_text m = true) matches ->
  exists prices', element_prices fd url element matches prices = Return prices'.
Proof.
  intros Hel. revert prices. induction matches as [|m matches IH]; intros prices Hall; simpl.
  - eauto.
  - inversion Hall as [|? ? Hm Hms]; subst.
    destruct (price_record_total fd url element m Hel Hm) as [r ->]. simpl.
    by apply IH.
Qed.

Lemma extract_prices_loop_total fd url elements found prices :
  Forall captured_by_patterns elements ->
  exists prices', extract_prices_loop fd url elements found prices = Return prices'.
Proof.
  revert found prices. induction elements as [|el elements IH]; intros found prices Hall; simpl.
  - eauto.
  - inversion Hall as [|? ? Hel Hels]; subst.
    case_bool_decide; [by apply IH|].
    destruct (element_prices_total fd url el (el_matches el) prices Hel) as [ps ->];
      [by destruct Hel|].
    simpl. by apply IH.
Qed.



(** *** Counting the tracked prices *)

Lemma process_price_counts (PriceAlert_add : PriceAlert -> result unit)
    (Alert_add : Alert -> result unit) (existing : option Q) (name : string)
    (new_price_val : Q) (results results' : Results) :
  process_price PriceAlert_add Alert_add existing name new_price_val results
    = Return results' ->
  (res_new results' + res_updated results' + res_unchanged results'
   = res_new results + res_updated results + res_unchanged results + 1)%Z
  /\ (res_new results <= res_new results')%Z
  /\ (res_updated results <= res_updated results')%Z
  /\ (res_unchanged results <= res_unchanged results')%Z
  /\ (Z.of_nat (length (res_alerts results')) - res_updated results'
      = Z.of_nat (length (res_alerts results)) - res_updated results)%Z
  /\ (existing = None <-> res_new results' = res_new results + 1)%Z.
Proof.
  unfold process_price. destruct existing as [old|].
  - destruct (negb (Qeq_bool old new_price_val)).
    + destruct (Qeq_bool old 0); [done|].
      destruct (Qle_bool _ _).
      * destruct (PriceAlert_add _); [|done]. cbn.
        destruct (Alert_add _); [|done]. cbn.
        intros [= <-]. cbn. rewrite length_app. cbn.
        repeat split; try lia; done.
      * intros [= <-]. cbn. repeat split; try lia; done.
    + intros [= <-]. cbn. repeat split; try lia; done.
  - destruct (PriceAlert_add _); [|done]. cbn.
    intros [= <-]. cbn. repeat split; try lia; done.
Qed.





(** ** The content fingerprinter *)

Lemma str_app_cons (x : ascii) (a b : string) : String x a +:+ b = String x (a +:+ b).
Proof. reflexivity. Qed.

Lemma str_app_nil_l (a : string) : "" +:+ a = a.
Proof. reflexivity. Qed.

Lemma str_app_assoc (a b c : string) : (a +:+ b) +:+ c = a +:+ (b +:+ c).
Proof.
  induction a as [|x a IH]; [done|]. by rewrite !str_app_cons, IH.
Qed.

Lemma str_app_nil_r (a : string) : a +:+ "" = a.
Proof. induction a as [|x a IH]; [done|]. by rewrite str_app_cons, IH. Qed.

Lemma str_filter_app f (a b : string) :
  str_filter f (a +:+ b) = str_filter f a +:+ str_filter f b.
Proof.
  induction a as [|x a IH]; [done|]. rewrite str_app_cons. cbn [str_filter].
  destruct (f x); by rewrite ?str_app_cons, IH.
Qed.

Lemma string_of_list_snoc (l : list ascii) (c : ascii) :
  string_of_list_ascii (l ++ [c]) = string_of_list_ascii l +:+ String c "".
Proof.
  induction l as [|x l IH]; [done|]. cbn [app string_of_list_ascii].
  by rewrite IH, str_app_cons.
Qed.

Lemma str_rstrip_app_space (y : string) :
  str_rstrip is_space (y +:+ " ") = str_rstrip is_space y.
Proof.
  induction y as [|d y IH]; [done|].
  rewrite str_app_cons. cbn [str_rstrip]. by rewrite IH.
Qed.

Lemma str_strip_app_space (x : string) : str_strip (x +:+ " ") = str_strip x.
Proof.
  unfold str_strip. induction x as [|c x IH]; [done|].
  rewrite str_app_cons. cbn [str_lstrip]. destruct (is_space c); [done|].
  rewrite <- str_app_cons. apply str_rstrip_app_space.
Qed.

Lemma str_strip_pad (ld x tr : string) :
  is_pad ld -> is_pad tr -> str_strip (ld +:+ x +:+ tr) = str_strip x.
Proof.
  intros [->| ->] [->| ->]; rewrite ?str_app_nil_l, ?str_app_nil_r.
  - done.
  - apply str_strip_app_space.
  - done.
  - rewrite str_app_cons, str_app_nil_l. unfold str_strip at 1. cbn [str_lstrip].
    change (is_space " ") with true. cbn iota. apply str_strip_app_space.
Qed.

Lemma str_join_cons (w : string) (ws : list string) :
  str_join " " (w :: ws) = w +:+ (match ws with [] => "" | _ => " " +:+ str_join " " ws end).
Proof. destruct ws; cbn [str_join]; [by rewrite str_app_nil_r|done]. Qed.

Lemma str_words_from_nonempty (cur : list ascii) (t : string) :
  cur ≠ [] -> str_words_from cur t ≠ [].
Proof.
  revert cur. induction t as [|c t IH]; intros cur Hcur.
  - destruct cur; [done|]. simpl. done.
  - cbn [str_words_from]. destruct (is_space c).
    + destruct cur; [done|]. done.
    + by apply IH.
Qed.

(** The collapse of white space writes the words of the text, one space
    apart, and at most one space after them. *)
Lemma collapse_words_from (t : string) :
  (exists tr, is_pad tr /\ (str_words_from [] t = [] -> tr = "")
     /\ collapse_whitespace true t = str_join " " (str_words_from [] t) +:+ tr)
  /\ (forall cur, cur ≠ [] -> exists tr, is_pad tr
        /\ string_of_list_ascii (rev cur) +:+ collapse_whitespace false t
           = str_join " " (str_words_from cur t) +:+ tr).
Proof.
  induction t as [|c t [IH1 IH2]].
  - split.
    + exists "". split; [by left|done].
    + intros cur Hcur. exists "". split; [by left|].
      destruct cur; [done|]. cbn [str_words_from collapse_whitespace str_join].
      by rewrite !str_app_nil_r.
  - cbn [collapse_whitespace str_words_from]. destruct (is_space c) eqn:Hc.
    + split.
      * destruct IH1 as (tr & Htr & Hnil & ->). exists tr. done.
      * intros cur Hcur. destruct IH1 as (tr & Htr & Hnil & ->).
        destruct cur as [|a cur]; [done|].
        change ([string_of_list_ascii (rev (a :: cur))] ++ str_words_from [] t)
          with (string_of_list_ascii (rev (a :: cur)) :: str_words_from [] t).
        rewrite str_join_cons.
        destruct (str_words_from [] t) as [|w ws].
        -- exists " ". split; [by right|]. rewrite (Hnil eq_refl).
           by rewrite !str_app_nil_r.
        -- exists tr. split; [done|]. by rewrite !str_app_assoc.
    + split.
      * destruct (IH2 [c]) as (tr & Htr & Heq); [done|]. exists tr. split; [done|].
        split; [by intros ?%str_words_from_nonempty|].
        rewrite <- Heq. done.
      * intros cur Hcur. destruct (IH2 (c :: cur)) as (tr & Htr & Heq); [done|].
        exists tr. split; [done|]. rewrite <- Heq. cbn [rev].
        rewrite string_of_list_snoc, str_app_assoc. done.
Qed.

(** The collapsed text is the words joined by single spaces between two
    pads. *)
Lemma collapse_words (t : string) :
  exists ld tr, is_pad ld /\ is_pad tr
    /\ collapse_whitespace false t = ld +:+ str_join " " (str_words t) +:+ tr.
Proof.
  unfold str_words. destruct t as [|c t]; [by exists "", ""; repeat split; left|].
  cbn [collapse_whitespace str_words_from]. destruct (is_space c).
  - destruct (collapse_words_from t) as [(tr & Htr & _ & ->) _].
    exists " ", tr. split; [by right|]. split; [done|]. done.
  - destruct (collapse_words_from t) as [_ H]. destruct (H [c]) as (tr & Htr & Heq); [done|].
    exists "", tr. split; [by left|]. split; [done|]. rewrite <- Heq. done.
Qed.

Lemma char_lower_space c : is_space (char_lower c) = is_space c.
Proof. by_cases_on_char c. Qed.

Lemma flush_lower (l : list ascii) :
  string_of_list_ascii (rev (map char_lower l))
    = str_lower (string_of_list_ascii (rev l)).
Proof.
  rewrite <- map_rev. induction (rev l) as [|x r IHr]; [done|].
  cbn [map string_of_list_ascii]. by rewrite IHr.
Qed.

Lemma str_words_from_lower (cur : list ascii) (t : string) :
  str_words_from (map char_lower cur) (str_lower t)
    = map str_lower (str_words_from cur t).
Proof.
  revert cur. induction t as [|c t IH]; intros cur.
  - destruct cur as [|a cur]; [done|].
    change (str_words_from (map char_lower (a :: cur)) (str_lower ""))
      with [string_of_list_ascii (rev (map char_lower (a :: cur)))].
    by rewrite flush_lower.
  - change (str_lower (String c t)) with (String (char_lower c) (str_lower t)).
    cbn [str_words_from]. rewrite char_lower_space. destruct (is_space c).
    + rewrite map_app.
      change (str_words_from [] (str_lower t))
        with (str_words_from (map char_lower []) (str_lower t)).
      rewrite IH. f_equal.
      destruct cur as [|a cur]; [done|].
      change (map char_lower (a :: cur))
        with (char_lower a :: map char_lower cur) at 1.
      cbv iota. by rewrite flush_lower.
    + apply (IH (c :: cur)).
Qed.

(** The normalized text is a function of the words of the text. *)
Lemma normalize_text_words (text : string) :
  _normalize_text text =
    str_strip (str_filter (fun c => is_word c || is_space c)
                 (str_join " " (map str_lower (str_words text)))).
Proof.
  unfold _normalize_text.
  destruct (collapse_words (str_lower text)) as (ld & tr & Hld & Htr & ->).
  rewrite !str_filter_app.
  assert (Hpad : forall p, is_pad p -> str_filter (fun c => is_word c || is_space c) p = p).
  { by intros p [->| ->]. }
  rewrite (Hpad ld Hld), (Hpad tr Htr), str_strip_pad by done.
  unfold str_words. by rewrite <- (str_words_from_lower [] text).
Qed.




(** ** The URL normalizer *)

(** C5: the code at a failing input.  The path [//] is stripped to the
    empty path, which the second pass turns into [/]: normalizing twice
    differs from normalizing once. *)
Lemma normalize_twice_differs :
  forall urljoin bracketed_netloc_ok,
    normalize urljoin bracketed_netloc_ok "http://ex.com//" None = Some "http://ex.com"
    /\ normalize urljoin bracketed_netloc_ok "http://ex.com" None = Some "http://ex.com/"
    /\ (normalize urljoin bracketed_netloc_ok "http://ex.com//" None
           ≫= (fun u => normalize urljoin bracketed_netloc_ok u None))
        ≠ normalize urljoin bracketed_netloc_ok "http://ex.com//" None.
Proof. intros uj ok. vm_compute. repeat split; try reflexivity. discriminate. Qed.

(** C6: the example of the specification holds, and the code at a failing
    input: the root URL with one and with two trailing slashes, which
    differ only by a trailing slash, normalize differently. *)
Lemma normalize_equivalence_cases :
  forall urljoin bracketed_netloc_ok,
    normalize urljoin bracketed_netloc_ok "https://EX.com/a/?utm_source=x" None
      = Some "https://ex.com/a"
    /\ normalize urljoin bracketed_netloc_ok "https://ex.com/a" None
        = Some "https://ex.com/a"
    /\ normalize urljoin bracketed_netloc_ok "http://ex.com/" None
        = Some "http://ex.com/"
    /\ normalize urljoin bracketed_netloc_ok ("http://ex.com/" +:+ "/") None
        = Some "http://ex.com"
    /\ normalize urljoin bracketed_netloc_ok ("http://ex.com/" +:+ "/") None
        ≠ normalize urljoin bracketed_netloc_ok "http://ex.com/" None.
Proof. intros uj ok. vm_compute. repeat split; try reflexivity. discriminate. Qed.

(** ** The robots.txt parser *)

(** C7: the code at a failing input.  [current_agents] is never reset, so
    after a block for [*] the directives of the block for [otherbot] are
    collected as well. *)
Lemma parse_collects_other_agents_block :
  disallowed (_parse robots_two_blocks) = ["/private"; "/"]
  /\ crawl_delay (_parse robots_two_blocks) = Some "30"
  /\ forall wildcard_match,
       is_allowed wildcard_match (_parse robots_two_blocks) "/pricing" = false.
Proof. vm_compute. repeat split; reflexivity. Qed.

(** Allow rules take precedence: a path that matches an allow rule is
    allowed, whatever the disallow rules; a path that matches no rule is
    allowed; a path that matches a disallow rule and no allow rule is not. *)
Theorem allow_precedence (wildcard_match : string -> string -> bool)
    (rule : RobotsRule) (path : string) :
  (forall pattern, pattern ∈ allowed rule ->
     _matches wildcard_match pattern path = true ->
     is_allowed wildcard_match rule path = true)
  /\ ((forall pattern, pattern ∈ allowed rule ++ disallowed rule ->
         _matches wildcard_match pattern path = false) ->
      is_allowed wildcard_match rule path = true)
  /\ (forall pattern, pattern ∈ disallowed rule ->
        _matches wildcard_match pattern path = true ->
        (forall allow, allow ∈ allowed rule ->
           _matches wildcard_match allow path = false) ->
        is_allowed wildcard_match rule path = false).
Proof.
  unfold is_allowed. split; [|split].
  - intros pattern Hin Hm.
    assert (H : existsb (fun p => _matches wildcard_match p path) (allowed rule) = true).
    { apply existsb_exists. exists pattern. split; [by apply list_elem_of_In|done]. }
    by rewrite H.
  - intros Hnone.
    assert (H : forall l, (forall p, p ∈ l -> _matches wildcard_match p path = false) ->
              existsb (fun p => _matches wildcard_match p path) l = false).
    { intros l Hl. induction l as [|p l IH]; [done|]. simpl.
      rewrite (Hl p) by set_solver. apply IH. intros q Hq. apply Hl. set_solver. }
    rewrite !H; [done| |]; intros p Hp; apply Hnone; set_solver.
  - intros pattern Hin Hm Hallow.
    assert (Ha : existsb (fun p => _matches wildcard_match p path) (allowed rule) = false).
    { induction (allowed rule) as [|p l IH]; [done|]. simpl.
      rewrite (Hallow p) by set_solver. apply IH. intros q Hq. apply Hallow. set_solver. }
    assert (Hd : existsb (fun p => _matches wildcard_match p path) (disallowed rule) = true).
    { apply existsb_exists. exists pattern. split; [by apply list_elem_of_In|done]. }
    by rewrite Ha, Hd.
Qed.

(** *** Rules for other crawlers *)

Lemma str_in_app x l l' : str_in x (l ++ l') = str_in x l || str_in x l'.
Proof. unfold str_in. apply existsb_app. Qed.

Lemma agents_match_app l l' :
  agents_match (l ++ l') = false -> agents_match l = false.
Proof.
  unfold agents_match. rewrite !str_in_app.
  destruct (str_in "*" l), (str_in "googlebot" l); simpl; try done.
  by rewrite orb_true_r.
Qed.

(** One line of the file: when the agents named so far and on this line
    match neither [*] nor [googlebot], the line leaves the rules as they
    were. *)
Lemma parse_line_unmatched (st : RobotsRule * list string) (line : string) :
  agents_match (snd (_parse_line st line)) = false ->
  agents_match (snd st) = false
  /\ allowed (fst (_parse_line st line)) = allowed (fst st)
  /\ disallowed (fst (_parse_line st line)) = disallowed (fst st)
  /\ crawl_delay (fst (_parse_line st line)) = crawl_delay (fst st).
Proof.
  destruct st as [rule agents]. unfold _parse_line.
  repeat match goal with
         | |- context [if ?b then _ else _] => destruct b eqn:?
         | |- context [match ?o with Some _ => _ | None => _ end] => destruct o as [[? ?]|] eqn:?
         end; cbn [fst snd allowed disallowed crawl_delay];
    intros Hm; try (apply agents_match_app in Hm); try done;
    rewrite Hm in *; try rewrite andb_false_r in *; done.
Qed.

Lemma parse_lines_unmatched (lines : list string) (st : RobotsRule * list string) :
  agents_match (snd (fold_left _parse_line lines st)) = false ->
  allowed (fst (fold_left _parse_line lines st)) = allowed (fst st)
  /\ disallowed (fst (fold_left _parse_line lines st)) = disallowed (fst st)
  /\ crawl_delay (fst (fold_left _parse_line lines st)) = crawl_delay (fst st).
Proof.
  revert st. induction lines as [|line lines IH]; intros st; [done|].
  cbn [fold_left]. intros Hm.
  destruct (IH _ Hm) as (Ha & Hd & Hc).
  assert (Hst : agents_match (snd (_parse_line st line)) = false).
  { clear -Hm. revert Hm. generalize (_parse_line st line). clear st.
    induction lines as [|l lines IH]; intros st; [done|].
    cbn [fold_left]. intros Hm. apply IH in Hm.
    by apply parse_line_unmatched in Hm as [Hm _]. }
  apply parse_line_unmatched in Hst as (_ & Ha' & Hd' & Hc').
  rewrite Ha, Hd, Hc. done.
Qed.

(** A robots.txt file whose [User-agent] lines name neither [*] nor
    [googlebot] yields no rule at all: nothing is disallowed, there is no
    crawl delay, and every path is allowed. *)
Theorem other_crawlers_only (content : string) :
  agents_match (agents_named content) = false ->
  allowed (_parse content) = []
  /\ disallowed (_parse content) = []
  /\ crawl_delay (_parse content) = None
  /\ forall wildcard_match path, is_allowed wildcard_match (_parse content) path = true.
Proof.
  unfold agents_named, _parse. intros Hm.
  apply parse_lines_unmatched in Hm as (Ha & Hd & Hc).
  cbn in Ha, Hd, Hc. split; [done|]. split; [done|]. split; [done|].
  intros wm path. unfold is_allowed. by rewrite Ha, Hd.
Qed.

Lemma other_crawlers_only_witness :
  agents_named robots_other_only = ["otherbot"]
  /\ disallowed (_parse robots_other_only) = []
  /\ crawl_delay (_parse robots_other_only) = None
  /\ sitemaps (_parse robots_other_only) = ["https://ex.com/sitemap.xml"]
  /\ forall wildcard_match, is_allowed wildcard_match (_parse robots_other_only) "/pricing" = true.
Proof.
  destruct (other_crawlers_only robots_other_only) as (_ & Hd & Hc & Hall).
  { vm_compute. reflexivity. }
  split; [vm_compute; reflexivity|]. split; [done|]. split; [done|].
  split; [vm_compute; reflexivity|]. intros wm. apply Hall.
Defined.

(** *** Numbers in hexadecimal digits *)

Lemma hex_value_hex_char d : (d < 16)%N -> hex_value (hex_char d) = Some (N.to_nat d).
Proof.
  intros Hd. rewrite <- (N2Nat.id d) in *.
  generalize dependent (N.to_nat d). intros k Hk. rewrite Nat2N.id.
  assert (k < 16) by lia. clear Hk.
  do 16 (destruct k as [|k]; [reflexivity|]). lia.
Qed.

Lemma hex_char_plain d :
  (d < 16)%N ->
  is_int_space (hex_char d) = false
  /\ str_has (hex_char d) "+-" = false
  /\ Ascii.eqb (hex_char d) "_" = false
  /\ Ascii.eqb "x" (hex_char d) = false
  /\ Ascii.eqb "X" (hex_char d) = false
  /\ Ascii.eqb "-" (hex_char d) = false.
Proof.
  intros Hd. rewrite <- (N2Nat.id d) in *.
  generalize dependent (N.to_nat d). intros k Hk.
  assert (k < 16) by lia. clear Hk.
  do 16 (destruct k as [|k]; [repeat split; reflexivity|]). lia.
Qed.

Lemma hex_str_length s v k : hex_str s v k -> String.length s = k.
Proof. induction 1; simpl; congruence. Qed.

Lemma hex_str_bound s v k : hex_str s v k -> (v < 16 ^ N.of_nat k)%N.
Proof.
  induction 1 as [|d s v k Hd _ IH]; [simpl; lia|].
  rewrite Nat2N.inj_succ, N.pow_succ_r'. nia.
Qed.

Lemma hex_str_parse s v k :
  hex_str s v k ->
  forall after_digit acc, (0 < k \/ after_digit = true) ->
    hex_digits_from after_digit acc s = Some (acc * 16 ^ N.of_nat k + v)%N.
Proof.
  induction 1 as [|d s v k Hd _ IH]; intros b acc Hk.
  - destruct Hk as [Hk| ->]; [lia|]. simpl. f_equal. lia.
  - cbn [hex_digits_from]. rewrite hex_value_hex_char by done.
    rewrite IH by auto. f_equal.
    rewrite N2Nat.id, Nat2N.inj_succ, N.pow_succ_r'. lia.
Qed.

Lemma to_hex_loop_spec fuel : forall n acc va ka,
  hex_str acc va ka -> (n < 2 ^ N.of_nat fuel)%N ->
  exists j,
    hex_str (to_hex_loop fuel n acc) (n * 16 ^ N.of_nat ka + va) (j + ka)
    /\ (n <> 0%N -> 0 < j)
    /\ forall w, (n < 16 ^ N.of_nat w)%N -> j <= w.
Proof.
  induction fuel as [|fuel IH]; intros n acc va ka Hacc Hn.
  - simpl in Hn. assert (n = 0%N) as -> by lia.
    exists 0. simpl. split; [done|]. split; [done|]. lia.
  - cbn [to_hex_loop]. destruct (N.eqb_spec n 0) as [->|Hn0].
    + exists 0. simpl. split; [done|]. split; [done|]. lia.
    + assert (Hd : (n mod 16 < 16)%N) by (apply N.mod_lt; lia).
      assert (Hdiv : (n / 16 < 2 ^ N.of_nat fuel)%N).
      { rewrite Nat2N.inj_succ, N.pow_succ_r' in Hn.
        apply N.Div0.div_lt_upper_bound. lia. }
      destruct (IH (n / 16)%N _ _ _ (hex_str_cons _ _ _ _ Hd Hacc) Hdiv)
        as (j & Hj & _ & Hmin).
      exists (S j). split; [|split; [lia|]].
      * replace (S j + ka) with (j + S ka) by lia.
        replace (n * 16 ^ N.of_nat ka + va)%N
          with (n / 16 * 16 ^ N.of_nat (S ka) + (n mod 16 * 16 ^ N.of_nat ka + va))%N;
          [done|].
        rewrite Nat2N.inj_succ, N.pow_succ_r'.
        rewrite (N.div_mod n 16) at 3 by lia. lia.
      * intros w Hw. destruct w as [|w]; [simpl in Hw; lia|].
        assert (j <= w); [|lia]. apply Hmin.
        rewrite Nat2N.inj_succ, N.pow_succ_r' in Hw.
        apply N.Div0.div_lt_upper_bound. lia.
Qed.

Lemma to_hex_spec n :
  exists j,
    hex_str (to_hex n) n j /\ 0 < j /\ forall w, 0 < w -> (n < 16 ^ N.of_nat w)%N -> j <= w.
Proof.
  unfold to_hex. destruct (N.eqb_spec n 0) as [->|Hn].
  - exists 1. split; [|split; [lia|intros; lia]].
    exact (hex_str_cons 0 "" 0 0 eq_refl hex_str_nil).
  - destruct (to_hex_loop_spec (N.to_nat (N.size n)) n "" 0 0 hex_str_nil) as (j & Hj & Hpos & Hmin).
    { rewrite N2Nat.id. apply N.size_gt. }
    exists j. rewrite Nat.add_0_r in Hj.
    replace (n * 16 ^ N.of_nat 0 + 0)%N with n in Hj by (simpl; lia).
    split; [done|]. split; [auto|]. intros w _. apply Hmin.
Qed.

Lemma hex_str_pad s v k j : hex_str s v k -> hex_str (str_repeat "0" j +:+ s) v (j + k).
Proof.
  intros H. induction j as [|j IH]; [done|].
  simpl. rewrite str_app_cons.
  replace v with (0 * 16 ^ N.of_nat (j + k) + v)%N by lia.
  exact (hex_str_cons 0 _ _ _ eq_refl IH).
Qed.

(** [format(n, '0{width}x')] spells [n] in at least [width] digits, in
    exactly [width] digits when [n < 16 ^ width]. *)
Lemma format_hex_spec width n :
  exists k,
    hex_str (format_hex width n) n k /\ 0 < k /\ width <= k
    /\ (0 < width -> (n < 16 ^ N.of_nat width)%N -> k = width).
Proof.
  unfold format_hex. destruct (to_hex_spec n) as (j & Hj & Hpos & Hmin).
  rewrite (hex_str_length _ _ _ Hj).
  exists (width - j + j). split; [by apply hex_str_pad|].
  split; [lia|]. split; [lia|].
  intros Hw Hn. specialize (Hmin width Hw Hn). lia.
Qed.

Lemma startswith_cons a p b s :
  startswith (String a p) (String b s) = Ascii.eqb a b && startswith p s.
Proof. reflexivity. Qed.

Lemma str_rstrip_plain (f : ascii -> bool) (s : string) :
  str_forall (fun c => negb (f c)) s = true -> str_rstrip f s = s.
Proof.
  induction s as [|c s IH]; [done|]. simpl.
  intros [Hc Hs]%andb_true_iff. rewrite IH by done.
  destruct s; [|done]. by apply negb_true_iff in Hc as ->.
Qed.

Lemma hex_str_plain s v k :
  hex_str s v k ->
  str_forall (fun c => negb (is_int_space c)) s = true.
Proof.
  induction 1 as [|d s v k Hd _ IH]; [done|]. simpl.
  destruct (hex_char_plain d Hd) as (-> & _). by rewrite IH.
Qed.

(** Round trip: [int(format(n, '0{width}x'), 16) == n]. *)
Lemma int_base16_hex s v k :
  hex_str s v k -> 0 < k -> int_base16 s = Return (Z.of_N v).
Proof.
  intros Hs Hk. unfold int_base16.
  pose proof (hex_str_plain _ _ _ Hs) as Hplain.
  pose proof (hex_str_parse _ _ _ Hs false 0%N (or_introl Hk)) as Hparse.
  destruct Hs as [|d s v k Hd Hs]; [lia|].
  destruct (hex_char_plain d Hd) as (Hsp & Hsign & Hund & Hx & HX & Hminus).
  cbn [str_lstrip]. rewrite Hsp.
  rewrite str_rstrip_plain by done.
  assert (Hneg : startswith "-" (String (hex_char d) s) = false).
  { by rewrite startswith_cons, Hminus. }
  rewrite Hneg. cbn [drop_sign]. rewrite Hsign.
  assert (Hpre : startswith "0x" (String (hex_char d) s)
                 || startswith "0X" (String (hex_char d) s) = false).
  { destruct s as [|c s']; [by rewrite !startswith_cons, !andb_false_r|].
    inversion Hs as [|d' s0 v0 k0 Hd' _]; subst.
    destruct (hex_char_plain d' Hd') as (_ & _ & _ & Hx' & HX' & _).
    rewrite !startswith_cons, Hx', HX'. by rewrite !andb_false_r. }
  rewrite Hpre. rewrite Hund. rewrite Hparse. reflexivity.
Qed.

(** *** The simhash *)

Lemma fold_left_comm_perm {A B : Type} (f : A -> B -> A) (l1 l2 : list B) :
  (forall a x y, f (f a x) y = f (f a y) x) ->
  l1 ≡ₚ l2 -> forall a, fold_left f l1 a = fold_left f l2 a.
Proof.
  intros Hf. induction 1 as [|x l1 l2 _ IH|x y l|l1 l2 l3 _ IH1 _ IH2]; intros a; simpl.
  - done.
  - apply IH.
  - by rewrite Hf.
  - by rewrite IH1, IH2.
Qed.

Lemma simhash_vote_comm (v : list Z) (h1 h2 : N) :
  simhash_vote (simhash_vote v h1) h2 = simhash_vote (simhash_vote v h2) h1.
Proof.
  unfold simhash_vote. apply list_eq. intros i.
  rewrite !list_lookup_imap. destruct (v !! i) as [x|]; [|done]. simpl.
  f_equal. destruct (N.testbit h1 _), (N.testbit h2 _); lia.
Qed.

Lemma simhash_perm (md5 : string -> N) (t1 t2 : string) (bits : nat) :
  str_words t1 ≡ₚ str_words t2 -> _simhash md5 t1 bits = _simhash md5 t2 bits.
Proof.
  intros Hperm. unfold _simhash. f_equal. f_equal.
  apply fold_left_comm_perm; [|done].
  intros v x y. apply simhash_vote_comm.
Qed.

(** The simhash counts votes, so it does not depend on the order of the
    words: two texts with the same words, each as often, in any order, have
    the same simhash. *)
Theorem simhash_ignores_word_order (md5 : string -> N) (t1 t2 : string) (bits : nat) :
  str_words t1 ≡ₚ str_words t2 -> _simhash md5 t1 bits = _simhash md5 t2 bits.
Proof. apply simhash_perm. Qed.

Lemma simhash_ignores_word_order_witness :
  _simhash (fun s => N.of_nat (String.length s)) "man bites dog today" 64
  = _simhash (fun s => N.of_nat (String.length s)) "today dog  bites man" 64.
Proof.
  apply simhash_ignores_word_order.
  change (str_words "man bites dog today") with ["man"; "bites"; "dog"; "today"].
  change (str_words "today dog  bites man") with ["today"; "dog"; "bites"; "man"].
  apply (Permutation_rev ["man"; "bites"; "dog"; "today"]).
Defined.

Lemma simhash_bits_testbit (bits : nat) (v : list Z) (j : nat) :
  N.testbit (simhash_bits bits v) (N.of_nat j)
  = bool_decide (j < bits) && bool_decide (0 <= v !!! j)%Z.
Proof.
  unfold simhash_bits. induction bits as [|b IH].
  - cbn [seq fold_left]. rewrite N.bits_0.
    by rewrite (bool_decide_eq_false_2 (j < 0)) by lia.
  - rewrite seq_S, fold_left_app. cbn [fold_left]. rewrite Nat.add_0_l.
    set (fp := fold_left _ (seq 0 b) 0%N) in *.
    destruct (decide (j = b)) as [->|Hne].
    + rewrite (bool_decide_eq_true_2 (b < S b)) by lia.
      rewrite (bool_decide_eq_false_2 (b < b)) in IH by lia. cbn [andb] in *.
      destruct (bool_decide (0 <= v !!! b)%Z); [|exact IH].
      rewrite N.lor_spec, N.shiftl_1_l, N.pow2_bits_true. by rewrite orb_true_r.
    + assert (bool_decide (j < S b) = bool_decide (j < b)) as ->
        by (apply bool_decide_ext; lia).
      destruct (bool_decide (0 <= v !!! b)%Z); [|exact IH].
      rewrite N.lor_spec, N.shiftl_1_l, N.pow2_bits_false by lia.
      rewrite orb_false_r. exact IH.
Qed.

Lemma N_high_bits_bound (n : N) (bits : nat) :
  (forall j, bits <= j -> N.testbit n (N.of_nat j) = false) ->
  (n < 2 ^ N.of_nat bits)%N.
Proof.
  intros Hhigh.
  assert (Hmod : (n mod 2 ^ N.of_nat bits = n)%N).
  { apply N.bits_inj. intros m.
    destruct (N.lt_ge_cases m (N.of_nat bits)) as [Hlt|Hge].
    - by rewrite N.mod_pow2_bits_low.
    - rewrite N.mod_pow2_bits_high by done.
      rewrite <- (N2Nat.id m). symmetry. apply Hhigh. lia. }
  rewrite <- Hmod. apply N.mod_lt. apply N.pow_nonzero. lia.
Qed.

Lemma simhash_bits_bound (bits : nat) (v : list Z) :
  (simhash_bits bits v < 2 ^ N.of_nat bits)%N.
Proof.
  apply N_high_bits_bound. intros j Hj.
  rewrite simhash_bits_testbit. by rewrite bool_decide_eq_false_2 by lia.
Qed.

Lemma simhash_hex_str (md5 : string -> N) (text : string) :
  exists n, (n < 2 ^ 64)%N /\ hex_str (_simhash md5 text 64) n 16.
Proof.
  unfold _simhash.
  set (v := fold_left _ _ _).
  pose proof (simhash_bits_bound 64 v) as Hb.
  destruct (format_hex_spec (64 / 4) (simhash_bits 64 v)) as (k & Hk & Hpos & _ & Hw).
  assert (k = 16) as -> by (apply Hw; [cbn; lia|exact Hb]).
  by exists (simhash_bits 64 v).
Qed.

(** The simhash of 64 bits is always written in exactly sixteen
    hexadecimal digits, which [int(_, 16)] reads back as a number below
    [2^64]; for a text without words every counter is zero, so every bit is
    set. *)
Theorem simhash_sixteen_digits (md5 : string -> N) (text : string) :
  String.length (_simhash md5 text 64) = 16
  /\ (exists n, (n < 2 ^ 64)%N /\ int_base16 (_simhash md5 text 64) = Return (Z.of_N n))
  /\ (str_words text = [] -> _simhash md5 text 64 = "ffffffffffffffff").
Proof.
  destruct (simhash_hex_str md5 text) as (n & Hn & Hs).
  split; [by apply hex_str_length in Hs|]. split.
  - exists n. split; [done|]. apply (int_base16_hex _ _ 16); [done|lia].
  - intros Hwords. unfold _simhash. rewrite Hwords. vm_compute. reflexivity.
Qed.

(** *** Comparing fingerprints *)

Lemma popcount_pos_bound (p : BinNums.positive) : forall k : nat,
  (N.pos p < 2 ^ N.of_nat k)%N -> popcount_pos p <= k.
Proof.
  induction p as [p IH|p IH|]; intros k Hk; (destruct k as [|k]; [simpl in Hk; lia|]);
    rewrite Nat2N.inj_succ, N.pow_succ_r' in Hk; simpl.
  - assert (popcount_pos p <= k); [apply IH|]; lia.
  - assert (popcount_pos p <= k); [apply IH|]; lia.
  - lia.
Qed.

Lemma lxor_of_N (a b : N) : Z.lxor (Z.of_N a) (Z.of_N b) = Z.of_N (N.lxor a b).
Proof. destruct a, b; try reflexivity. Qed.

Lemma N_low_bits (n : N) (bits j : nat) :
  (n < 2 ^ N.of_nat bits)%N -> bits <= j -> N.testbit n (N.of_nat j) = false.
Proof.
  intros Hn Hj. rewrite <- (N.mod_small n (2 ^ N.of_nat bits)) by done.
  apply N.mod_pow2_bits_high. lia.
Qed.

Lemma popcount_lxor_bound (a b : N) (bits : nat) :
  (a < 2 ^ N.of_nat bits)%N -> (b < 2 ^ N.of_nat bits)%N ->
  popcount (Z.lxor (Z.of_N a) (Z.of_N b)) <= bits.
Proof.
  intros Ha Hb. rewrite lxor_of_N.
  assert (Hx : (N.lxor a b < 2 ^ N.of_nat bits)%N).
  { apply N_high_bits_bound. intros j Hj.
    by rewrite N.lxor_spec, (N_low_bits a bits j), (N_low_bits b bits j). }
  destruct (N.lxor a b) as [|p]; [simpl; lia|].
  simpl. by apply popcount_pos_bound.
Qed.

Lemma int_base16_raises (s : string) (e : exn) :
  int_base16 s = Raise e -> e = ValueError.
Proof.
  unfold int_base16.
  repeat match goal with
         | |- context [match ?x with _ => _ end] => destruct x
         end; congruence.
Qed.

(** [compare] does not depend on the order of its arguments, and a
    fingerprint compared with itself gives [1.0]. *)
Theorem compare_symmetric (fp1 fp2 : Fingerprints) :
  compare fp1 fp2 = compare fp2 fp1 /\ compare fp1 fp1 = Return 1%Q.
Proof.
  unfold compare. split; [|by rewrite String.eqb_refl].
  rewrite (String.eqb_sym (fp_full_hash fp2)).
  destruct (String.eqb _ _); [done|].
  destruct (int_base16 (fp_simhash fp1)) as [h1|e1] eqn:H1,
           (int_base16 (fp_simhash fp2)) as [h2|e2] eqn:H2; cbn; try done.
  - by rewrite Z.lxor_comm.
  - apply int_base16_raises in H1, H2. by subst.

Qed.

(** On fingerprints built by [generate], [compare] never raises and
    returns a similarity between 0 and 1; it is 1 when the two normalized
    texts have the same words, in whatever order. *)
Theorem compare_generated (sha256_hexdigest : string -> string) (md5 : string -> N)
    (t1 t2 : string) :
  exists similarity,
    compare (generate_all sha256_hexdigest md5 t1) (generate_all sha256_hexdigest md5 t2)
      = Return similarity
    /\ (0 <= similarity <= 1)%Q
    /\ (str_words (_normalize_text t1) ≡ₚ str_words (_normalize_text t2) ->
        (similarity == 1)%Q).
Proof.
  unfold compare, generate_all. cbn [fp_full_hash fp_simhash].
  destruct (String.eqb _ _).
  { exists 1%Q. split; [done|]. split; [split; discriminate|reflexivity]. }
  destruct (simhash_hex_str md5 (_normalize_text t1)) as (n1 & Hn1 & Hs1).
  destruct (simhash_hex_str md5 (_normalize_text t2)) as (n2 & Hn2 & Hs2).
  rewrite (int_base16_hex _ _ 16 Hs1), (int_base16_hex _ _ 16 Hs2) by lia. cbn.
  eexists. split; [reflexivity|].
  pose proof (popcount_lxor_bound n1 n2 64 Hn1 Hn2) as Hd.
  split.
  - set (d := popcount _) in *.
    assert (H0 : (0 <= inject_Z (Z.of_nat d))%Q).
    { rewrite <- (Zle_Qle 0). lia. }
    assert (H64 : (inject_Z (Z.of_nat d) <= 64)%Q).
    { change 64%Q with (inject_Z 64). rewrite <- Zle_Qle. lia. }
    split.
    + apply (Qle_minus_iff (inject_Z (Z.of_nat d) / 64) 1).
      apply Qle_shift_div_r; [reflexivity|]. by rewrite Qmult_1_l.
    + assert (0 <= inject_Z (Z.of_nat d) / 64)%Q.
      { apply Qle_shift_div_l; [reflexivity|]. by rewrite Qmult_0_l. }
      lra.
  - intros Hperm.
    assert (Hsame : n1 = n2).
    { pose proof (simhash_perm md5 _ _ 64 Hperm) as Hs. rewrite Hs in Hs1.
      pose proof (hex_str_parse _ _ _ Hs1 true 0%N (or_intror eq_refl)) as P1.
      pose proof (hex_str_parse _ _ _ Hs2 true 0%N (or_intror eq_refl)) as P2.
      rewrite P1 in P2. injection P2. lia. }
    subst n2. rewrite Z.lxor_nilpotent. reflexivity.
Qed.

(** *** Key phrases *)

Lemma occurrences_app x l l' : occurrences x (l ++ l') = occurrences x l + occurrences x l'.
Proof. induction l as [|y l IH]; simpl; [done|]. rewrite IH. lia. Qed.

Lemma counter_add_keys counts x :
  fst <$> counter_add counts x
  = if bool_decide (x ∈ fst <$> counts) then fst <$> counts else (fst <$> counts) ++ [x].
Proof.
  induction counts as [|[k c] counts IH].
  - cbn [counter_add fmap list_fmap]. case_bool_decide as H; [by apply elem_of_nil in H|done].
  - cbn [counter_add]. destruct (String.eqb_spec k x) as [->|Hne].
    + rewrite !fmap_cons. cbn [fst]. by rewrite bool_decide_eq_true_2 by set_solver.
    + rewrite !fmap_cons. cbn [fst]. rewrite IH. case_bool_decide as Hin.
      * by rewrite bool_decide_eq_true_2 by set_solver.
      * by rewrite bool_decide_eq_false_2 by set_solver.
Qed.

Lemma counter_add_elem counts x k c :
  NoDup (fst <$> counts) ->
  (k, c) ∈ counter_add counts x ->
  (k = x /\ ((exists c0, c = S c0 /\ (x, c0) ∈ counts) \/ (c = 1 /\ x ∉ fst <$> counts)))
  \/ (k <> x /\ (k, c) ∈ counts).
Proof.
  induction counts as [|[k0 c0] counts IH]; simpl; intros Hnd Hin.
  - apply list_elem_of_singleton in Hin as [= -> ->]. left. split; [done|]. right.
    split; [done|]. set_solver.
  - apply NoDup_cons in Hnd as [Hk0 Hnd].
    destruct (String.eqb_spec k0 x) as [->|Hne].
    + apply elem_of_cons in Hin as [[= -> ->]|Hin].
      * left. split; [done|]. left. exists c0. split; [done|]. set_solver.
      * right. split; [|set_solver]. intros ->. apply Hk0.
        by apply (list_elem_of_fmap_2 fst _ (x, c)).
    + apply elem_of_cons in Hin as [[= -> ->]|Hin].
      * right. split; [done|]. set_solver.
      * destruct (IH Hnd Hin) as [[-> [(c1 & -> & Hc1)|[-> Hx]]]|[Hkx Hkc]].
        -- left. split; [done|]. left. exists c1. split; [done|]. set_solver.
        -- left. split; [done|]. right. split; [done|]. set_solver.
        -- right. split; [done|]. set_solver.
Qed.

Lemma counter_add_of counts l x :
  counter_of counts l -> counter_of (counter_add counts x) (l ++ [x]).
Proof.
  intros (Hnd & Hkeys & Hcount). split; [|split].
  - rewrite counter_add_keys. case_bool_decide as Hin; [done|].
    apply NoDup_app. split; [done|]. split; [|apply NoDup_singleton].
    intros k Hk ->%list_elem_of_singleton. done.
  - intros k. rewrite counter_add_keys. case_bool_decide as Hin.
    + rewrite elem_of_app, list_elem_of_singleton, Hkeys.
      split; [auto|]. intros [Hk| ->]; [done|]. by apply Hkeys.
    + rewrite !elem_of_app, Hkeys. done.
  - intros k c Hin. rewrite occurrences_app. simpl.
    apply counter_add_elem in Hin as [[-> [(c0 & -> & Hc0)|[-> Hx]]]|[Hkx Hkc]]; [| | |done].
    + rewrite String.eqb_refl. apply Hcount in Hc0. lia.
    + rewrite String.eqb_refl.
      assert (occurrences x l = 0); [|lia].
      assert (Hxl : x ∉ l) by (by rewrite <- Hkeys).
      clear -Hxl. induction l as [|y l IH]; simpl; [done|].
      apply not_elem_of_cons in Hxl as [Hne Hxl].
      destruct (String.eqb_spec y x); [congruence|]. by rewrite IH.
    + destruct (String.eqb_spec x k); [congruence|]. apply Hcount in Hkc. lia.
Qed.

Lemma counter_fold_of l' : forall counts l,
  counter_of counts l -> counter_of (fold_left counter_add l' counts) (l ++ l').
Proof.
  induction l' as [|x l' IH]; intros counts l H; simpl.
  - by rewrite app_nil_r.
  - replace (l ++ x :: l') with ((l ++ [x]) ++ l') by (by rewrite <- app_assoc).
    apply IH. by apply counter_add_of.
Qed.

Lemma Counter_of l : counter_of (Counter l) l.
Proof.
  apply (counter_fold_of l [] []).
  split; [constructor|]. split; [set_solver|]. intros k c Hin. by apply elem_of_nil in Hin.
Qed.

Lemma insert_by_count_perm x sorted : insert_by_count x sorted ≡ₚ x :: sorted.
Proof.
  induction sorted as [|y sorted IH]; simpl; [done|].
  destruct (snd y <? snd x); [done|].
  rewrite IH. apply perm_swap.
Qed.

Lemma insert_by_count_sorted x sorted : by_count sorted -> by_count (insert_by_count x sorted).
Proof.
  unfold by_count. induction 1 as [|y sorted Hs IH Hall]; simpl.
  - repeat constructor.
  - destruct (Nat.ltb_spec (snd y) (snd x)).
    + constructor; [by constructor|]. constructor; [lia|].
      eapply Forall_impl; [exact Hall|]. simpl. intros; lia.
    + constructor; [done|]. rewrite insert_by_count_perm. by constructor.
Qed.

Lemma sort_by_count_spec counts sorted :
  by_count sorted ->
  by_count (fold_left (fun sorted x => insert_by_count x sorted) counts sorted)
  /\ fold_left (fun sorted x => insert_by_count x sorted) counts sorted ≡ₚ counts ++ sorted.
Proof.
  revert sorted. induction counts as [|x counts IH]; intros sorted Hs; simpl; [done|].
  destruct (IH _ (insert_by_count_sorted x _ Hs)) as [Hsorted Hperm].
  split; [done|]. rewrite Hperm, insert_by_count_perm. by rewrite Permutation_middle.
Qed.

(** [most_common n] gives at most [n] entries of the counter, in the order
    of decreasing counts, and leaves out no entry that counts more than one
    it gives. *)
Lemma most_common_spec n counts :
  length (most_common n counts) <= n
  /\ by_count (most_common n counts)
  /\ (forall e, e ∈ most_common n counts -> e ∈ counts)
  /\ (NoDup (fst <$> counts) -> NoDup (fst <$> most_common n counts))
  /\ (forall e e', e ∈ most_common n counts -> e' ∈ counts ->
        e' ∉ most_common n counts -> snd e' <= snd e).
Proof.
  unfold most_common.
  destruct (sort_by_count_spec counts [] (SSorted_nil _)) as [Hsorted Hperm].
  rewrite app_nil_r in Hperm.
  set (sorted := fold_left _ counts []) in *.
  split; [rewrite length_take; lia|]. split; [|split; [|split]].
  - unfold by_count in *. rewrite <- (take_drop n sorted) in Hsorted.
    clear -Hsorted. induction (take n sorted) as [|a l IH]; [constructor|].
    simpl in Hsorted. apply StronglySorted_inv in Hsorted as [Hs Hall].
    constructor; [by apply IH|]. by apply Forall_app in Hall as [Hall _].
  - intros e He. rewrite <- Hperm, <- (take_drop n sorted). apply elem_of_app. by left.
  - intros Hnd. rewrite <- Hperm in Hnd. rewrite <- (take_drop n sorted), fmap_app in Hnd.
    by apply NoDup_app in Hnd as [Hnd _].
  - intros e e' He He' Hout.
    rewrite <- Hperm, <- (take_drop n sorted) in He'.
    apply elem_of_app in He' as [He'|He']; [done|].
    unfold by_count in Hsorted. rewrite <- (take_drop n sorted) in Hsorted.
    clear -Hsorted He He'. induction (take n sorted) as [|a l IH]; [by apply elem_of_nil in He|].
    simpl in Hsorted. apply StronglySorted_inv in Hsorted as [Hs Hall].
    apply elem_of_cons in He as [->|He]; [|by apply IH].
    rewrite Forall_forall in Hall. apply Hall. set_solver.
Qed.

Lemma by_count_occurrences (grams : list string) (l : list (string * nat)) :
  by_count l ->
  Forall (fun e => snd e = occurrences (fst e) grams) l ->
  StronglySorted (fun p p' => occurrences p' grams <= occurrences p grams) (fst <$> l).
Proof.
  unfold by_count. induction 1 as [|e l Hs IH Hle]; intros Hall; [constructor|].
  apply Forall_cons in Hall as [He Hall]. rewrite fmap_cons.
  constructor; [by apply IH|].
  apply Forall_fmap, Forall_forall. intros e' He'. simpl.
  rewrite Forall_forall in Hle, Hall. rewrite <- He, <- (Hall e' He'). by apply Hle.
Qed.

(** [_extract_phrases]: a text of fewer than three words gives its words.
    Otherwise the result is at most [n] distinct groups of three
    consecutive words, the most frequent first, and no group that is left out
    occurs more often than one that is given. *)
Theorem extract_phrases_top (text : string) (n : nat) :
  (length (str_words text) < 3 -> _extract_phrases text n = str_words text)
  /\ (3 <= length (str_words text) ->
      length (_extract_phrases text n) <= n
      /\ NoDup (_extract_phrases text n)
      /\ StronglySorted
           (fun p p' => occurrences p' (ngrams3 (str_words text))
                        <= occurrences p (ngrams3 (str_words text)))
           (_extract_phrases text n)
      /\ (forall p, p ∈ _extract_phrases text n -> p ∈ ngrams3 (str_words text))
      /\ (forall p p', p ∈ _extract_phrases text n -> p' ∈ ngrams3 (str_words text) ->
            p' ∉ _extract_phrases text n ->
            occurrences p' (ngrams3 (str_words text))
            <= occurrences p (ngrams3 (str_words text)))).
Proof.
  unfold _extract_phrases. split.
  - intros Hlt. by apply Nat.ltb_lt in Hlt as ->.
  - intros Hge. apply Nat.ltb_ge in Hge as ->.
    set (grams := ngrams3 (str_words text)).
    destruct (Counter_of grams) as (Hnd & Hkeys & Hcount).
    destruct (most_common_spec n (Counter grams)) as (Hlen & Hsorted & Hsub & Hnd' & Htop).
    split; [by rewrite length_fmap|]. split; [by apply Hnd'|]. split; [|split].
    + apply by_count_occurrences; [done|].
      apply Forall_forall. intros [k c] He. simpl. by apply Hcount, Hsub.
    + intros p ([k c] & -> & He)%list_elem_of_fmap. simpl.
      apply Hkeys. by apply (list_elem_of_fmap_2 fst _ (k, c)), Hsub.
    + intros p p' ([k c] & -> & He)%list_elem_of_fmap Hp' Hout. simpl.
      apply Hkeys, list_elem_of_fmap in Hp' as ([k' c'] & -> & He'). simpl in *.
      rewrite <- (Hcount k c), <- (Hcount k' c') by auto.
      apply (Htop (k, c) (k', c')); [done|done|].
      intros Hin. apply Hout. by apply (list_elem_of_fmap_2 fst _ (k', c')).
Qed.

Lemma extract_phrases_top_witness :
  _extract_phrases "plans and pricing" 10 = ["plans and pricing"]
  /\ _extract_phrases "to be or not to be or not" 2 = ["to be or"; "be or not"]
  /\ NoDup (_extract_phrases "to be or not to be or not" 2).
Proof.
  destruct (extract_phrases_top "to be or not to be or not" 2) as [_ H].
  destruct H as (_ & Hnd & _); [vm_compute; lia|].
  split; [vm_compute; reflexivity|]. split; [vm_compute; reflexivity|done].
Defined.

(** ** URLs *)

(** *** Characters that do not occur in a text *)

Lemma str_forall_app (P : ascii -> bool) (a b : string) :
  str_forall P (a +:+ b) = str_forall P a && str_forall P b.
Proof.
  induction a as [|x a IH]; [done|].
  rewrite str_app_cons. cbn [str_forall]. by rewrite IH, andb_assoc.
Qed.

Lemma str_forall_take (P : ascii -> bool) (n : nat) (s : string) :
  str_forall P s = true -> str_forall P (str_take n s) = true.
Proof.
  revert s. induction n as [|n IH]; intros [|c s]; simpl; try done.
  intros [-> Hs]%andb_true_iff. by apply IH.
Qed.

Lemma str_forall_drop (P : ascii -> bool) (n : nat) (s : string) :
  str_forall P s = true -> str_forall P (str_drop n s) = true.
Proof.
  revert s. induction n as [|n IH]; intros [|c s]; simpl; try done.
  intros [_ Hs]%andb_true_iff. by apply IH.
Qed.

Lemma str_forall_drop_end (P : ascii -> bool) (n : nat) (s : string) :
  str_forall P s = true -> str_forall P (str_drop_end n s) = true.
Proof. apply str_forall_take. Qed.

Lemma str_forall_span (P f : ascii -> bool) (s : string) :
  str_forall P s = true ->
  str_forall P (fst (str_span f s)) = true /\ str_forall P (snd (str_span f s)) = true.
Proof.
  induction s as [|c s IH]; simpl; [done|].
  intros [Hc Hs]%andb_true_iff. destruct (f c); simpl; [|by rewrite Hc, Hs].
  destruct (IH Hs) as [H1 H2]. destruct (str_span f s). simpl in *. by rewrite Hc, H1.
Qed.

Lemma str_span_fst (f : ascii -> bool) (s : string) :
  str_forall f (fst (str_span f s)) = true.
Proof.
  induction s as [|c s IH]; simpl; [done|].
  destruct (f c) eqn:Hc; simpl; [|done].
  destruct (str_span f s). simpl in *. by rewrite Hc, IH.
Qed.

Lemma str_split1_spec (c : ascii) (s a b : string) :
  str_split1 c s = Some (a, b) -> s = a +:+ String c b /\ without c a = true.
Proof.
  revert a. induction s as [|d s IH]; intros a; simpl; [done|].
  destruct (Ascii.eqb_spec d c) as [->|Hne].
  - by intros [= <- <-].
  - destruct (str_split1 c s) as [[a' b']|]; [|done].
    intros [= <- <-]. destruct (IH a' eq_refl) as [-> Ha].
    split; [done|]. unfold without in *. simpl. rewrite Ha.
    by apply Ascii.eqb_neq in Hne as ->.
Qed.

Lemma str_split1_None (c : ascii) (s : string) :
  str_split1 c s = None -> without c s = true.
Proof.
  unfold without. induction s as [|d s IH]; simpl; [done|].
  destruct (Ascii.eqb_spec d c) as [->|Hne]; [done|].
  destruct (str_split1 c s) as [[a' b']|]; [done|]. intros _. by apply IH.
Qed.

Lemma str_forall_split1 (P : ascii -> bool) (c : ascii) (s a b : string) :
  str_split1 c s = Some (a, b) -> str_forall P s = true ->
  str_forall P a = true /\ str_forall P b = true.
Proof.
  intros [-> _]%str_split1_spec. rewrite str_forall_app. cbn [str_forall].
  intros [Ha [_ Hb]%andb_true_iff]%andb_true_iff. done.
Qed.

Lemma str_forall_join (P : ascii -> bool) (sep : string) (parts : list string) :
  str_forall P sep = true -> Forall (fun p => str_forall P p = true) parts ->
  str_forall P (str_join sep parts) = true.
Proof.
  intros Hsep. induction 1 as [|p parts Hp Hparts IH]; [done|].
  destruct parts as [|q parts]; [done|].
  cbn [str_join] in *. by rewrite !str_forall_app, Hp, Hsep, IH.
Qed.

Lemma without_has (c : ascii) (s : string) : str_has c s = negb (without c s).
Proof.
  unfold without. induction s as [|d s IH]; simpl; [done|].
  rewrite IH, (Ascii.eqb_sym c d). by destruct (Ascii.eqb d c), (str_forall _ s).
Qed.

(** *** The parts of a parsed URL *)

Lemma scheme_char_lower_plain (c : ascii) :
  scheme_chars c = true -> negb (Ascii.eqb (char_lower c) "#") = true.
Proof. by_cases_on_char c. Qed.

Lemma netloc_char_plain (c : ascii) :
  negb (str_has c "/?#") = true -> negb (Ascii.eqb c "#") = true.
Proof. by_cases_on_char c. Qed.

(** What [urlsplit] returns has no [#] in the scheme, the network
    location, the path and the query, and no [?] in the path. *)
Lemma urlsplit_parts ok url scheme netloc path query fragment :
  urlsplit ok url = Some (scheme, netloc, path, query, fragment) ->
  without "#" scheme = true /\ without "#" netloc = true
  /\ without "#" path = true /\ without "#" query = true
  /\ without "?" path = true.
Proof.
  unfold urlsplit.
  set (u1 := str_filter _ (str_lstrip _ url)).
  match goal with
  | |- context [let '(_, _) := ?m in _] => destruct m as [sch rest] eqn:Hsch
  end.
  assert (Hscheme : without "#" sch = true).
  { destruct (str_find ":" u1) as [i|]; [|by injection Hsch as <- _].
    destruct (_ && _) eqn:Hc; [|by injection Hsch as <- _].
    injection Hsch as <- _.
    apply andb_true_iff in Hc as [_ Hc].
    unfold without, str_lower.
    by apply (str_forall_map scheme_chars); [apply scheme_char_lower_plain|]. }
  match goal with
  | |- context [let '(_, _) := ?m in _] => destruct m as [nl rest2] eqn:Hnl
  end.
  assert (Hnetloc : without "#" nl = true).
  { destruct (startswith "//" rest); [|by injection Hnl as <- _].
    unfold _splitnetloc in Hnl.
    pose proof (str_span_fst (fun c => negb (str_has c "/?#")) (str_drop 2 rest)) as Hsp.
    rewrite Hnl in Hsp. simpl in Hsp.
    unfold without. by apply (str_forall_impl _ _ _ netloc_char_plain). }
  destruct (xorb _ _); [done|]. destruct (_ && _); [done|].
  destruct (str_split1 "#" rest2) as [[a frag]|] eqn:Hfrag.
  - apply str_split1_spec in Hfrag as [_ Ha].
    destruct (str_split1 "?" a) as [[p q]|] eqn:Hq.
    + intros [= <- <- <- <- <-].
      destruct (str_forall_split1 _ _ _ _ _ Hq Ha) as [Hp Hq'].
      apply str_split1_spec in Hq as [_ Hp'']. done.
    + intros [= <- <- <- <- <-]. apply str_split1_None in Hq. done.
  - apply str_split1_None in Hfrag.
    destruct (str_split1 "?" rest2) as [[p q]|] eqn:Hq.
    + intros [= <- <- <- <- <-].
      destruct (str_forall_split1 _ _ _ _ _ Hq Hfrag) as [Hp Hq'].
      apply str_split1_spec in Hq as [_ Hp'']. done.
    + intros [= <- <- <- <- <-]. apply str_split1_None in Hq. done.
Qed.

Lemma splitparams_fst (P : ascii -> bool) (url : string) :
  str_forall P url = true -> str_forall P (fst (_splitparams url)) = true.
Proof.
  intros H. unfold _splitparams.
  destruct (str_rindex "/" url) as [r|].
  - destruct (str_find ";" (str_drop r url)); simpl; [by apply str_forall_take|done].
  - destruct (str_find ";" url); simpl; [by apply str_forall_take|done].
Qed.

(** The same for [urlparse]. *)
Lemma urlparse_parts ok url parsed :
  urlparse ok url = Some parsed ->
  without "#" (pr_scheme parsed) = true /\ without "#" (pr_netloc parsed) = true
  /\ without "#" (pr_path parsed) = true /\ without "#" (pr_query parsed) = true
  /\ without "?" (pr_path parsed) = true.
Proof.
  unfold urlparse.
  destruct (urlsplit ok url) as [[[[[scheme netloc] path] query] fragment]|] eqn:Hsplit;
    [|done].
  apply urlsplit_parts in Hsplit as (Hs & Hn & Hp & Hq & Hp').
  destruct (_ && _).
  - pose proof (splitparams_fst _ _ Hp) as H1. pose proof (splitparams_fst _ _ Hp') as H2.
    destruct (_splitparams path) as [p params]. intros [= <-]. simpl in *. done.
  - intros [= <-]. done.
Qed.

(** *** The normalized URL has no fragment *)

Lemma char_lower_plain (c : ascii) :
  negb (Ascii.eqb c "#") = true -> negb (Ascii.eqb (char_lower c) "#") = true.
Proof. by_cases_on_char c. Qed.

Lemma quote_plus_char (c : ascii) : without "#" (quote_plus (String c "")) = true.
Proof. by_cases_on_char c. Qed.

Lemma quote_plus_cons (c : ascii) (s : string) :
  quote_plus (String c s) = quote_plus (String c "") +:+ quote_plus s.
Proof.
  cbn [quote_plus]. destruct (always_safe c); [done|].
  destruct (Ascii.eqb c " "); done.
Qed.

Lemma quote_plus_plain (s : string) : without "#" (quote_plus s) = true.
Proof.
  induction s as [|c s IH]; [done|].
  rewrite quote_plus_cons. pose proof (quote_plus_char c) as Hc.
  unfold without in *. by rewrite str_forall_app, IH, Hc.
Qed.

Lemma urlencode_plain (query : list (string * list string)) :
  without "#" (urlencode query) = true.
Proof.
  unfold urlencode, without. apply str_forall_join; [done|].
  apply Forall_forall. intros part Hpart.
  apply list_elem_of_In, in_flat_map in Hpart as ([k vs] & _ & Hpart).
  apply in_map_iff in Hpart as (elt & <- & _). simpl.
  rewrite !str_forall_app. cbn [str_forall].
  pose proof (quote_plus_plain k) as Hk. pose proof (quote_plus_plain elt) as He.
  unfold without in *. by rewrite Hk, He.
Qed.

Lemma normalize_plain urljoin ok url base v :
  normalize urljoin ok url base = Some v -> without "#" v = true.
Proof.
  unfold normalize.
  match goal with
  | |- context [urlparse ok ?u] => destruct (urlparse ok u) as [parsed|] eqn:Hparse
  end; [|done].
  apply urlparse_parts in Hparse as (Hs & Hn & Hp & Hq & _).
  intros [= <-].
  set (scheme := str_lower (pr_scheme parsed)).
  assert (Hscheme : without "#" scheme = true).
  { unfold without, scheme, str_lower.
    by apply (str_forall_map _ _ _ _ char_lower_plain). }
  assert (Hlower : without "#" (str_lower (pr_netloc parsed)) = true).
  { unfold without, str_lower. by apply (str_forall_map _ _ _ _ char_lower_plain). }
  match goal with
  | |- context [urlunparse scheme ?n ?p "" ?q ""] =>
      set (netloc := n); set (path := p); set (query := q)
  end.
  assert (Hnetloc : without "#" netloc = true).
  { unfold netloc, without in *. destruct (_ && _); [by apply str_forall_drop_end|].
    destruct (_ && _); [by apply str_forall_drop_end|done]. }
  assert (Hpath : without "#" path = true).
  { unfold path, without in *. destruct (String.eqb (pr_path parsed) ""); simpl.
    - done.
    - destruct (negb _ && endswith "/" _); [by apply str_forall_rstrip|done]. }
  assert (Hquery : without "#" query = true).
  { unfold query. destruct (List.filter _ _); [done|apply urlencode_plain]. }
  clearbody scheme netloc path query. clear -Hscheme Hnetloc Hpath Hquery.
  unfold urlunparse, urlunsplit, without in *. cbn [String.eqb negb].
  repeat match goal with
         | |- context [if ?b then _ else _] => destruct b
         end;
    rewrite ?str_forall_app; cbn [str_forall];
    rewrite ?str_forall_app; cbn [str_forall];
    rewrite ?Hscheme, ?Hnetloc, ?Hpath, ?Hquery; done.
Qed.

(** The fragment is always removed: a URL that [normalize] returns
    contains no [#], whatever the URL it is given. *)
Theorem normalize_drops_fragment (urljoin : string -> string -> string)
    (bracketed_netloc_ok : string -> bool) (url : string) (base_url : option string)
    (normalized : string) :
  normalize urljoin bracketed_netloc_ok url base_url = Some normalized ->
  str_has "#" normalized = false.
Proof.
  intros H%normalize_plain. by rewrite without_has, H.
Qed.

Lemma normalize_drops_fragment_witness :
  normalize (fun _ u => u) (fun _ => true) "HTTP://Ex.com:80/a/#top?x=%23" None
    = Some "http://ex.com/a"
  /\ str_has "#" "http://ex.com/a" = false.
Proof.
  split; [vm_compute; reflexivity|].
  apply (normalize_drops_fragment (fun _ u => u) (fun _ => true)
           "HTTP://Ex.com:80/a/#top?x=%23" None).
  vm_compute. reflexivity.
Defined.

(** *** Priorities from patterns *)

Lemma match_here_lits (w s : string) : match_here (lits w) s = startswith w s.
Proof.
  revert s. induction w as [|c w IH]; intros s; [by destruct s|].
  change (lits (String c w)) with (Lit c :: lits w). cbn [match_here].
  destruct s as [|d s]; [done|]. by rewrite IH.
Qed.

Lemma search_from_lits (w s : string) : search_from (lits w) s = str_contains w s.
Proof.
  induction s as [|d s IH]; cbn [search_from str_contains]; rewrite match_here_lits; [done|].
  by rewrite IH.
Qed.

Lemma re_search_anywhere (w s : string) : re_search (anywhere w) s = str_contains w s.
Proof. apply search_from_lits. Qed.

Lemma match_here_words (p : list re_item) : forall s,
  ends_text p = true -> match_here p s = true -> s ∈ words_of p.
Proof.
  induction p as [|[c|c| | |] p IH]; intros s Hp Hm; try done.
  - cbn [match_here] in Hm. destruct s as [|d s]; [done|].
    apply andb_true_iff in Hm as [->%Ascii.eqb_eq Hm].
    cbn [words_of]. apply list_elem_of_fmap_2. by apply IH.
  - cbn [match_here] in Hm. cbn [words_of]. apply elem_of_app.
    apply orb_true_iff in Hm as [Hm|Hm]; [left; by apply IH|right].
    destruct s as [|d s]; [done|].
    apply andb_true_iff in Hm as [->%Ascii.eqb_eq Hm].
    apply list_elem_of_fmap_2. by apply IH.
  - cbn [match_here] in Hm. cbn [words_of].
    apply andb_true_iff in Hm as [Hm _].
    apply orb_true_iff in Hm as [->%String.eqb_eq| ->%String.eqb_eq]; set_solver.
Qed.

Lemma search_from_first (c : ascii) (p : list re_item) (s : string) :
  search_from (Lit c :: p) s = true -> str_has c s = true.
Proof.
  induction s as [|d s IH]; cbn [search_from match_here str_has]; [done|].
  intros [Hm|Hs]%orb_true_iff.
  - apply andb_true_iff in Hm as [-> _]. done.
  - rewrite (IH Hs). by rewrite orb_true_r.
Qed.

Lemma char_lower_not_query (c : ascii) :
  negb (Ascii.eqb c "?") = true -> negb (Ascii.eqb (char_lower c) "?") = true.
Proof. by_cases_on_char c. Qed.

Lemma char_lower_not_LF (c : ascii) :
  negb (Ascii.eqb c LF) = true -> negb (Ascii.eqb (char_lower c) LF) = true.
Proof. by_cases_on_char c. Qed.

(** The pattern [\?.*page=] of the lowest tier is never found: it is
    looked for in the path, and the path of a parsed URL has no [?].  So a
    page number in the query string does not make a URL deferred. *)
Theorem query_page_never_matches (bracketed_netloc_ok : string -> bool) (url : string)
    (parsed : ParseResult) :
  urlparse bracketed_netloc_ok url = Some parsed ->
  re_search query_page_pattern (str_lower (pr_path parsed)) = false.
Proof.
  intros (_ & _ & _ & _ & Hp)%urlparse_parts.
  destruct (re_search _ _) eqn:Hm; [|done].
  apply search_from_first in Hm. rewrite without_has in Hm.
  assert (without "?" (str_lower (pr_path parsed)) = true) as Hl.
  { unfold without, str_lower in *. by apply (str_forall_map _ _ _ _ char_lower_not_query). }
  by rewrite Hl in Hm.
Qed.

Lemma query_page_never_matches_witness :
  get_priority (fun _ => true) "http://ex.com/list?page=2" None = Some MEDIUM
  /\ re_search query_page_pattern "/list?page=2" = true
  /\ re_search query_page_pattern "/list" = false.
Proof.
  split; [vm_compute; reflexivity|]. split; [vm_compute; reflexivity|].
  apply (query_page_never_matches (fun _ => true) "http://ex.com/list?page=2"
           (mkParseResult "http" "ex.com" "/list" "" "page=2" "")).
  vm_compute. reflexivity.
Defined.

Lemma str_forall_true (s : string) : str_forall (fun _ => true) s = true.
Proof. induction s; simpl; done. Qed.

(** The path that [urlsplit] returns is a piece of the URL as cleaned of
    tabs and line breaks. *)
Lemma urlsplit_path_forall (P : ascii -> bool) ok url scheme netloc path query fragment :
  urlsplit ok url = Some (scheme, netloc, path, query, fragment) ->
  str_forall P (str_filter (fun c => negb (is_unsafe_url_byte c))
                  (str_lstrip (in_range 0 32) url)) = true ->
  str_forall P path = true.
Proof.
  unfold urlsplit.
  set (u1 := str_filter _ (str_lstrip _ url)). intros H Hu1. revert H.
  match goal with
  | |- context [let '(_, _) := ?m in _] => destruct m as [sch rest] eqn:Hsch
  end.
  assert (Hrest : str_forall P rest = true).
  { destruct (str_find ":" u1) as [i|]; [|by injection Hsch as _ <-].
    destruct (_ && _); [|by injection Hsch as _ <-].
    injection Hsch as _ <-. by apply str_forall_drop. }
  match goal with
  | |- context [let '(_, _) := ?m in _] => destruct m as [nl rest2] eqn:Hnl
  end.
  assert (Hrest2 : str_forall P rest2 = true).
  { destruct (startswith "//" rest); [|by injection Hnl as _ <-].
    unfold _splitnetloc in Hnl.
    destruct (str_forall_span P (fun c => negb (str_has c "/?#")) (str_drop 2 rest))
      as [_ H2]; [by apply str_forall_drop|].
    by rewrite Hnl in H2. }
  destruct (xorb _ _); [done|]. destruct (_ && _); [done|].
  destruct (str_split1 "#" rest2) as [[a frag]|] eqn:Hfrag.
  - destruct (str_forall_split1 P _ _ _ _ Hfrag Hrest2) as [Ha _].
    destruct (str_split1 "?" a) as [[p q]|] eqn:Hq.
    + intros [= <- <- <- <- <-]. by destruct (str_forall_split1 P _ _ _ _ Hq Ha).
    + by intros [= <- <- <- <- <-].
  - destruct (str_split1 "?" rest2) as [[p q]|] eqn:Hq.
    + intros [= <- <- <- <- <-]. by destruct (str_forall_split1 P _ _ _ _ Hq Hrest2).
    + by intros [= <- <- <- <- <-].
Qed.

Lemma urlparse_path_no_LF ok url parsed :
  urlparse ok url = Some parsed -> without LF (str_lower (pr_path parsed)) = true.
Proof.
  unfold urlparse.
  destruct (urlsplit ok url) as [[[[[scheme netloc] path] query] fragment]|] eqn:Hsplit;
    [|done].
  assert (Hpath : without LF path = true).
  { unfold without. eapply urlsplit_path_forall; [exact Hsplit|].
    apply (str_forall_filter (fun _ => true)); [|apply str_forall_true].
    intros c _. by_cases_on_char c. }
  intros H.
  assert (Hp : without LF (pr_path parsed) = true).
  { destruct (_ && _).
    - pose proof (splitparams_fst _ _ Hpath) as H1.
      destruct (_splitparams path) as [p params]. by injection H as <-.
    - by injection H as <-. }
  unfold without, str_lower in *. by apply (str_forall_map _ _ _ _ char_lower_not_LF).
Qed.

Lemma critical_tier (path : string) :
  existsb (fun p => re_search p path)
    [mkPattern true (lits "/" ++ [End]);
     mkPattern true (lits "/home" ++ [Opt "/"; End]);
     mkPattern true (lits "/index.htm" ++ [Opt "l"; End])] = true ->
  path ∈ CRITICAL_PATHS ++ ((fun s => s +:+ String LF "") <$> CRITICAL_PATHS).
Proof.
  cbn [existsb re_search from_start items]. rewrite orb_false_r.
  intros [H|[H|H]%orb_true_iff]%orb_true_iff;
    apply match_here_words in H; try reflexivity;
    vm_compute in H; vm_compute;
    repeat (apply elem_of_cons in H as [->|H]; [set_solver|]);
    by apply elem_of_nil in H.
Qed.

Lemma type_priority_not_critical (t : string) : type_priority t <> CRITICAL.
Proof. unfold type_priority. repeat destruct (String.eqb t _); discriminate. Qed.

Lemma pattern_priority_critical (path : string) :
  pattern_priority path = Some CRITICAL <->
  existsb (fun p => re_search p path)
    [mkPattern true (lits "/" ++ [End]);
     mkPattern true (lits "/home" ++ [Opt "/"; End]);
     mkPattern true (lits "/index.htm" ++ [Opt "l"; End])] = true.
Proof.
  unfold pattern_priority, PRIORITY_PATTERNS. cbn [List.find snd].
  repeat match goal with
         | |- context [if existsb ?f ?l then _ else _] => destruct (existsb f l)
         end; cbn; split; congruence.
Qed.

(** Which URLs are CRITICAL: exactly those whose path, in lower case, is
    [/], [/home], [/home/], [/index.htm] or [/index.html].  In particular a
    site root written without its slash, whose path is empty, is not. *)
Theorem critical_paths (bracketed_netloc_ok : string -> bool) (url : string)
    (link_type : option string) (parsed : ParseResult) :
  urlparse bracketed_netloc_ok url = Some parsed ->
  get_priority bracketed_netloc_ok url link_type = Some CRITICAL
  <-> str_lower (pr_path parsed) ∈ CRITICAL_PATHS.
Proof.
  intros Hparse. pose proof (urlparse_path_no_LF _ _ _ Hparse) as HLF.
  unfold get_priority. rewrite Hparse. cbn [mbind option_bind].
  set (path := str_lower (pr_path parsed)) in *. split.
  - destruct (pattern_priority path) as [priority|] eqn:Hp.
    + intros [= ->]. apply pattern_priority_critical, critical_tier in Hp.
      apply elem_of_app in Hp as [Hp|Hp]; [done|].
      apply list_elem_of_fmap in Hp as (w & Hw & Hin). rewrite Hw in HLF.
      unfold CRITICAL_PATHS in Hin.
      repeat (apply elem_of_cons in Hin as [->|Hin]; [vm_compute in HLF; discriminate|]).
      by apply elem_of_nil in Hin.
    + destruct link_type as [t|]; [|discriminate].
      destruct (String.eqb t ""); [discriminate|].
      intros [= H]. by apply type_priority_not_critical in H.
  - intros Hin. unfold CRITICAL_PATHS in Hin.
    repeat (apply elem_of_cons in Hin as [->|Hin]; [vm_compute; reflexivity|]).
    by apply elem_of_nil in Hin.
Qed.

Lemma critical_paths_witness :
  get_priority (fun _ => true) "https://Ex.com/Index.HTML?x=1" (Some "auth") = Some CRITICAL
  /\ get_priority (fun _ => true) "https://ex.com" None = Some MEDIUM.
Proof.
  split.
  - apply (critical_paths (fun _ => true) "https://Ex.com/Index.HTML?x=1" (Some "auth")
             (mkParseResult "https" "Ex.com" "/Index.HTML" "" "x=1" "")).
    + vm_compute. reflexivity.
    + vm_compute. set_solver.
  - vm_compute. reflexivity.
Defined.

(** A URL whose path contains one of the words [/pricing], [/plans],
    [/features], [/shop], [/store] or [/buy] is HIGH, whatever else the path
    holds (a blog post, a tag, a page number) and whatever the link type. *)
Theorem high_value_pages (bracketed_netloc_ok : string -> bool) (url : string)
    (link_type : option string) (parsed : ParseResult) :
  urlparse bracketed_netloc_ok url = Some parsed ->
  contains_any HIGH_WORDS (str_lower (pr_path parsed)) = true ->
  get_priority bracketed_netloc_ok url link_type = Some HIGH.
Proof.
  intros Hparse Hword. unfold get_priority. rewrite Hparse. cbn [mbind option_bind].
  set (path := str_lower (pr_path parsed)) in *.
  assert (Hcrit : existsb (fun p => re_search p path)
            [mkPattern true (lits "/" ++ [End]);
             mkPattern true (lits "/home" ++ [Opt "/"; End]);
             mkPattern true (lits "/index.htm" ++ [Opt "l"; End])] = false).
  { destruct (existsb _ _) eqn:Hc; [|done]. apply critical_tier in Hc.
    clearbody path. exfalso.
    vm_compute in Hc.
    repeat (apply elem_of_cons in Hc as [->|Hc]; [vm_compute in Hword; discriminate|]).
    by apply elem_of_nil in Hc. }
  assert (Hhigh : existsb (fun p => re_search p path)
            [anywhere "/pricing"; anywhere "/plans";
             mkPattern false (lits "/product" ++ [Opt "s"; Lit "/"]);
             anywhere "/features"; anywhere "/shop"; anywhere "/store"; anywhere "/buy"]
            = true).
  { unfold contains_any, HIGH_WORDS in Hword. cbn [existsb] in Hword |- *.
    rewrite !re_search_anywhere.
    repeat (apply orb_true_iff in Hword as [Hword|Hword];
            [rewrite Hword; by rewrite ?orb_true_r|]).
    done. }
  unfold pattern_priority, PRIORITY_PATTERNS. cbn [List.find snd].
  by rewrite Hcrit, Hhigh.
Qed.

Lemma high_value_pages_witness :
  get_priority (fun _ => true) "https://ex.com/blog/tag/Pricing-tips/page/2" (Some "auth")
  = Some HIGH.
Proof.
  apply (high_value_pages (fun _ => true) "https://ex.com/blog/tag/Pricing-tips/page/2"
           (Some "auth")
           (mkParseResult "https" "ex.com" "/blog/tag/Pricing-tips/page/2" "" "" ""));
    vm_compute; reflexivity.
Defined.

(** *** Extracted links *)

Lemma link_ok_mono urljoin ok base bd sdo (anchors all : list Anchor) (l : Link) :
  (forall a, a ∈ anchors -> a ∈ all) ->
  link_ok urljoin ok base bd sdo anchors l -> link_ok urljoin ok base bd sdo all l.
Proof.
  intros Hsub ((a & Ha & H) & Hrest). split; [|done]. exists a. split; [auto|done].
Qed.

Lemma extract_links_loop_spec urljoin ok base bd sdo (all : list Anchor) :
  forall anchors seen links result,
    (forall a, a ∈ anchors -> a ∈ all) ->
    extract_links_loop urljoin ok base bd sdo anchors seen links = Some result ->
    NoDup (link_url <$> links) ->
    (forall l, l ∈ links -> link_url l ∈ seen) ->
    Forall (link_ok urljoin ok base bd sdo all) links ->
    NoDup (link_url <$> result)
    /\ Forall (link_ok urljoin ok base bd sdo all) result
    /\ length result <= length links + length anchors.
Proof.
  induction anchors as [|a anchors IH]; intros seen links result Hsub Hloop Hnd Hseen Hok.
  - injection Hloop as <-. split; [done|]. split; [done|]. simpl. lia.
  - assert (Hsub' : forall a0, a0 ∈ anchors -> a0 ∈ all) by (intros; apply Hsub; set_solver).
    assert (Hskip : forall r,
              extract_links_loop urljoin ok base bd sdo anchors seen links = Some r ->
              NoDup (link_url <$> r)
              /\ Forall (link_ok urljoin ok base bd sdo all) r
              /\ length r <= length links + length (a :: anchors)).
    { intros r Hr. destruct (IH seen links r Hsub' Hr Hnd Hseen Hok) as (H1 & H2 & H3).
      split; [done|]. split; [done|]. simpl. lia. }
    cbn [extract_links_loop] in Hloop.
    destruct (skipped_href (str_strip (href a))) eqn:Hhref; [by apply Hskip|].
    destruct (normalize urljoin ok (str_strip (href a)) (Some base)) as [normalized|]
      eqn:Hnorm; [|done].
    cbn [mbind option_bind] in Hloop.
    case_bool_decide as Hin; [by apply Hskip|].
    destruct (existsb _ SKIP_EXTENSIONS) eqn:Hext; [by apply Hskip|].
    destruct (get_domain ok normalized) as [link_domain|] eqn:Hdom; [|done].
    cbn [mbind option_bind] in Hloop.
    destruct (sdo && negb (String.eqb link_domain bd)) eqn:Hsame; [by apply Hskip|].
    destruct (get_url_depth ok normalized) as [depth|] eqn:Hdepth; [|done].
    cbn [mbind option_bind] in Hloop.
    apply IH in Hloop as (H1 & H2 & H3); [| done | | |].
    + split; [done|]. split; [done|]. rewrite length_app in H3. simpl in *. lia.
    + rewrite fmap_app. apply NoDup_app. split; [done|]. split; [|apply NoDup_singleton].
      intros u Hu ->%list_elem_of_singleton.
      apply list_elem_of_fmap in Hu as (l & Hl & Hlin). simpl in Hl.
      apply Hin. rewrite Hl. by apply Hseen.
    + intros l [Hl| ->%list_elem_of_singleton]%elem_of_app.
      * apply elem_of_union_r. by apply Hseen.
      * simpl. set_solver.
    + apply Forall_app. split; [done|]. apply Forall_singleton.
      split; [|split; [done|split; [|split; [|done]]]].
      * exists a. split; [apply Hsub; set_solver|]. done.
      * exists link_domain. done.
      * intros ->. simpl in *. by apply negb_false_iff in Hsame.
Qed.

(** When [extract_links] returns, no URL occurs twice in its list; every
    entry comes from an anchor whose [href] is not empty, a script, a mail or
    telephone link or a fragment, and carries the normalized URL of that
    [href]; no entry has a skipped file extension; an entry is internal
    exactly when its domain is the domain of the page, and with
    [same_domain_only] every entry is internal. *)
Theorem extract_links_sound (urljoin : string -> string -> string)
    (bracketed_netloc_ok : string -> bool) (anchors : list Anchor) (base_url : string)
    (same_domain_only : bool) (links : list Link) :
  extract_links urljoin bracketed_netloc_ok anchors base_url same_domain_only = Some links ->
  exists base_domain,
    get_domain bracketed_netloc_ok base_url = Some base_domain
    /\ NoDup (link_url <$> links)
    /\ length links <= length anchors
    /\ Forall (link_ok urljoin bracketed_netloc_ok base_url base_domain same_domain_only
                 anchors) links.
Proof.
  unfold extract_links.
  destruct (get_domain bracketed_netloc_ok base_url) as [base_domain|]; [|done].
  cbn [mbind option_bind]. intros Hloop. exists base_domain. split; [done|].
  apply (extract_links_loop_spec _ _ _ _ _ anchors) in Hloop as (H1 & H2 & H3);
    [done|done|constructor|set_solver|constructor].
Qed.

Lemma extract_links_sound_witness :
  exists links,
    extract_links join_on_site (fun _ => true) sample_anchors "https://ex.com/" true
      = Some links
    /\ link_url <$> links = ["https://ex.com/pricing"]
    /\ NoDup (link_url <$> links)
    /\ extract_links join_on_site (fun _ => true) sample_anchors "https://ex.com/" false
       = Some (links ++ [mkLink "https://other.org/about" "Partner" "navigation" false 1 false]).
Proof.
  destruct (extract_links join_on_site (fun _ => true) sample_anchors "https://ex.com/" true)
    as [links|] eqn:H; [|vm_compute in H; discriminate].
  exists links.
  pose proof (extract_links_sound _ _ _ _ _ _ H) as (bd & _ & Hnd & _).
  vm_compute in H. injection H as <-.
  split; [reflexivity|]. split; [reflexivity|]. split; [done|].
  vm_compute. reflexivity.
Defined.

(** *** Wildcards in robots rules *)

Lemma match_here_lits_app (w : string) (p : list re_item) (s : string) :
  match_here (lits w ++ p) s
  = startswith w s && match_here p (str_drop (String.length w) s).
Proof.
  revert s. induction w as [|c w IH]; intros s; [done|].
  change (lits (String c w) ++ p) with (Lit c :: (lits w ++ p)). cbn [match_here].
  destruct s as [|d s]; [done|].
  rewrite IH, startswith_cons. cbn [String.length str_drop]. by rewrite andb_assoc.
Qed.

Lemma wildcard_items_star (prefix : string) :
  without "*" prefix = true ->
  wildcard_items (prefix +:+ "*") = lits prefix ++ [AnyText].
Proof.
  unfold without. induction prefix as [|c prefix IH]; [done|].
  rewrite str_app_cons. cbn [str_forall wildcard_items].
  intros [Hc Hp]%andb_true_iff. apply negb_true_iff in Hc. rewrite Hc.
  rewrite IH by done.
  assert (Hrest : String.eqb (prefix +:+ "*") "" = false) by (by destruct prefix).
  rewrite Hrest, andb_false_r. done.
Qed.

(** A [*] at the end of a rule changes nothing: [Disallow: /private*]
    matches the same paths as [Disallow: /private], those that start with
    [/private]. *)
Theorem trailing_wildcard_redundant (prefix path : string) :
  without "*" prefix = true -> endswith "$" prefix = false ->
  _matches wildcard_match (prefix +:+ "*") path = startswith prefix path
  /\ _matches wildcard_match prefix path = startswith prefix path.
Proof.
  intros Hstar Hend. unfold _matches. split.
  - assert (Hhas : str_has "*" (prefix +:+ "*") = true).
    { rewrite without_has. unfold without. rewrite str_forall_app. simpl.
      by rewrite andb_false_r. }
    rewrite Hhas. unfold wildcard_match.
    rewrite wildcard_items_star, match_here_lits_app by done.
    assert (Hany : forall s, match_here [AnyText] s = true) by (by intros []).
    by rewrite Hany, andb_true_r.
  - by rewrite without_has, Hstar, Hend.
Qed.

Lemma trailing_wildcard_redundant_witness :
  _matches wildcard_match "/private*" "/private/files" = true
  /\ _matches wildcard_match "/private" "/private/files" = true
  /\ _matches wildcard_match "/private*" "/public" = false.
Proof.
  destruct (trailing_wildcard_redundant "/private" "/private/files") as [H1 H2];
    [reflexivity|reflexivity|].
  destruct (trailing_wildcard_redundant "/private" "/public") as [H3 _];
    [reflexivity|reflexivity|].
  change ("/private" +:+ "*") with "/private*" in H1, H3.
  rewrite H1, H2, H3. repeat split; reflexivity.
Defined.

(** *** Notations of an amount *)

Lemma str_has_app (c : ascii) (x y : string) :
  str_has c (x +:+ y) = str_has c x || str_has c y.
Proof.
  induction x as [|d x IH]; [done|].
  rewrite str_app_cons. cbn [str_has]. by rewrite IH, orb_assoc.
Qed.

Lemma str_map_app (g : ascii -> ascii) (x y : string) :
  str_map g (x +:+ y) = str_map g x +:+ str_map g y.
Proof.
  induction x as [|d x IH]; [done|].
  rewrite str_app_cons. cbn [str_map]. by rewrite IH.
Qed.

Lemma digits_no (c : ascii) (x : string) :
  is_digit c = false -> str_forall is_digit x = true -> str_has c x = false.
Proof.
  intros Hc. induction x as [|d x IH]; [done|]. cbn [str_forall str_has].
  intros [Hd Hx]%andb_true_iff. rewrite IH by done.
  destruct (Ascii.eqb_spec c d) as [->|]; [congruence|done].
Qed.

Lemma digits_filter (g : ascii -> bool) (x : string) :
  (forall d, is_digit d = true -> g d = true) ->
  str_forall is_digit x = true -> str_filter g x = x.
Proof.
  intros Hg. induction x as [|d x IH]; [done|]. cbn [str_forall str_filter].
  intros [Hd Hx]%andb_true_iff. by rewrite (Hg d Hd), IH.
Qed.

Lemma digits_map (g : ascii -> ascii) (x : string) :
  (forall d, is_digit d = true -> g d = d) ->
  str_forall is_digit x = true -> str_map g x = x.
Proof.
  intros Hg. induction x as [|d x IH]; [done|]. cbn [str_forall str_map].
  intros [Hd Hx]%andb_true_iff. by rewrite (Hg d Hd), IH.
Qed.

Lemma digit_not_comma d : is_digit d = true -> negb (Ascii.eqb d ",") = true.
Proof. by_cases_on_char d. Qed.

Lemma digit_not_dot d : is_digit d = true -> negb (Ascii.eqb d ".") = true.
Proof. by_cases_on_char d. Qed.

Lemma digit_comma_to_dot d :
  is_digit d = true -> (if Ascii.eqb d "," then "."%char else d) = d.
Proof. by_cases_on_char d. Qed.

Lemma digit_price_char d : is_digit d = true -> price_char d = true.
Proof. by_cases_on_char d. Qed.

Lemma digit_no_space d : is_digit d = true -> negb (is_space d) = true.
Proof. by_cases_on_char d. Qed.

Lemma str_length_app (x y : string) :
  String.length (x +:+ y) = String.length x + String.length y.
Proof.
  induction x as [|d x IH]; [done|].
  rewrite str_app_cons. cbn [String.length]. by rewrite IH.
Qed.

Lemma str_rindex_last (c : ascii) (x y : string) :
  str_has c y = false -> str_rindex c (x +:+ String c y) = Some (String.length x).
Proof.
  intros Hy.
  assert (Hnone : str_rindex c y = None).
  { clear x. induction y as [|d y IH]; [done|]. cbn [str_has str_rindex] in *.
    apply orb_false_iff in Hy as [Hd Hy]. by rewrite IH, Hd. }
  induction x as [|d x IH].
  - rewrite str_app_nil_l. cbn [str_rindex String.length].
    by rewrite Hnone, Ascii.eqb_refl.
  - rewrite str_app_cons. cbn [str_rindex String.length]. by rewrite IH.
Qed.

Lemma str_split_last (c : ascii) (x y : string) :
  str_has c y = false ->
  List.last (str_split c (x +:+ String c y)) EmptyString = y.
Proof.
  intros Hy.
  assert (Hsingle : str_split c y = [y]).
  { clear x. induction y as [|d y IH]; [done|]. cbn [str_has str_split] in *.
    apply orb_false_iff in Hy as [Hd Hy]. rewrite Ascii.eqb_sym in Hd.
    by rewrite Hd, IH. }
  cut (exists h t, str_split c (x +:+ String c y) = h :: t ++ [y]).
  { intros (h & t & ->). by rewrite app_comm_cons, last_last. }
  induction x as [|d x (h & t & IH)].
  - rewrite str_app_nil_l. cbn [str_split]. rewrite Ascii.eqb_refl, Hsingle.
    by exists EmptyString, [].
  - rewrite str_app_cons. cbn [str_split]. rewrite IH.
    destruct (Ascii.eqb d c).
    + by exists EmptyString, (h :: t).
    + by exists (String d h), t.
Qed.

Section notations.
Variables a b f : string.
Hypothesis Ha : str_forall is_digit a = true.
Hypothesis Hb : str_forall is_digit b = true.
Hypothesis Hf : str_forall is_digit f = true.

Lemma strip_currency_amount (s : string) :
  str_forall (fun c => is_digit c || Ascii.eqb c "," || Ascii.eqb c ".") s = true ->
  strip_currency s = s.
Proof.
  intros Hs. rewrite strip_currency_price_text.
  - clear -Hs. induction s as [|c s IH]; [done|]. cbn [str_forall str_filter] in *.
    apply andb_true_iff in Hs as [Hc Hs]. rewrite IH by done.
    revert Hc. by_cases_on_char c.
  - unfold price_text. eapply str_forall_impl; [|exact Hs].
    intros c. by_cases_on_char c.
Qed.

Lemma amount_chars (x : string) :
  str_forall is_digit x = true ->
  str_forall (fun c => is_digit c || Ascii.eqb c "," || Ascii.eqb c ".") x = true.
Proof. apply str_forall_impl. by intros c ->. Qed.

Lemma cleaned_price_us :
  cleaned_price (a +:+ String "," (b +:+ String "." f)) = Return (a +:+ b +:+ String "." f).
Proof.
  unfold cleaned_price. rewrite strip_currency_amount.
  2:{ rewrite str_forall_app. cbn [str_forall]. rewrite str_forall_app. cbn [str_forall].
      by rewrite !amount_chars. }
  rewrite !str_has_app. cbn [str_has]. rewrite !str_has_app. cbn [str_has].
  rewrite Ascii.eqb_refl, !orb_true_r. cbn [andb].
  rewrite (str_rindex_last "," a).
  2:{ rewrite str_has_app. cbn. by rewrite !(digits_no ","). }
  replace (a +:+ String "," (b +:+ String "." f))
    with ((a +:+ String "," b) +:+ String "." f)
    by (by rewrite str_app_assoc, str_app_cons).
  rewrite (str_rindex_last "." _ f) by (by apply digits_no).
  cbn [of_option mbind result_bind bind].
  replace (String.length (a +:+ String "," b) <? String.length a) with false.
  2:{ symmetry. apply Nat.ltb_ge. rewrite str_length_app. lia. }
  f_equal. unfold str_remove.
  rewrite !str_filter_app. cbn [str_filter negb Ascii.eqb Bool.eqb andb].
  rewrite !(digits_filter _ _ digit_not_comma) by done.
  by rewrite str_app_assoc.
Qed.

Lemma cleaned_price_european :
  cleaned_price (a +:+ String "." (b +:+ String "," f)) = Return (a +:+ b +:+ String "." f).
Proof.
  unfold cleaned_price. rewrite strip_currency_amount.
  2:{ rewrite str_forall_app. cbn [str_forall]. rewrite str_forall_app. cbn [str_forall].
      by rewrite !amount_chars. }
  rewrite !str_has_app. cbn [str_has]. rewrite !str_has_app. cbn [str_has].
  rewrite Ascii.eqb_refl, !orb_true_r. cbn [andb].
  rewrite (str_rindex_last "." a).
  2:{ rewrite str_has_app. cbn. by rewrite !(digits_no "."). }
  replace (a +:+ String "." (b +:+ String "," f))
    with ((a +:+ String "." b) +:+ String "," f)
    by (by rewrite str_app_assoc, str_app_cons).
  rewrite (str_rindex_last "," _ f) by (by apply digits_no).
  cbn [of_option mbind result_bind bind].
  replace (String.length a <? String.length (a +:+ String "." b)) with true.
  2:{ symmetry. apply Nat.ltb_lt. rewrite str_length_app. cbn [String.length]. lia. }
  f_equal. unfold str_remove, str_replace.
  rewrite !str_filter_app. cbn [str_filter negb Ascii.eqb Bool.eqb andb].
  rewrite !(digits_filter _ _ digit_not_dot) by done.
  rewrite !str_map_app. cbn [str_map]. rewrite !(digits_map _ _ digit_comma_to_dot) by done.
  by rewrite str_app_assoc.
Qed.

Lemma cleaned_price_comma :
  cleaned_price (a +:+ String "," f)
  = Return (if String.length f =? 2 then a +:+ String "." f else a +:+ f).
Proof.
  unfold cleaned_price. rewrite strip_currency_amount.
  2:{ rewrite str_forall_app. cbn [str_forall]. by rewrite !amount_chars. }
  rewrite !str_has_app. cbn [str_has]. rewrite Ascii.eqb_refl, orb_true_r.
  rewrite !(digits_no ".") by done. cbn [orb andb].
  rewrite str_split_last by (by apply digits_no).
  destruct (String.length f =? 2); f_equal.
  - unfold str_replace. rewrite str_map_app. cbn [str_map].
    by rewrite !(digits_map _ _ digit_comma_to_dot).
  - unfold str_remove. rewrite str_filter_app. cbn [str_filter].
    by rewrite !(digits_filter _ _ digit_not_comma).
Qed.

Lemma cleaned_price_plain :
  cleaned_price (a +:+ String "." f) = Return (a +:+ String "." f)
  /\ cleaned_price (a +:+ f) = Return (a +:+ f).
Proof.
  unfold cleaned_price. rewrite !strip_currency_amount.
  2:{ rewrite str_forall_app. by rewrite !amount_chars. }
  2:{ rewrite str_forall_app. cbn [str_forall]. by rewrite !amount_chars. }
  rewrite !str_has_app. cbn [str_has]. rewrite !(digits_no ",") by done. done.
Qed.
End notations.

(** The notations of an amount that [normalize_price] tells apart: with
    both separators the last one is the decimal mark, so the US and the
    European notation give the same price; a comma alone is the decimal mark
    when exactly two digits follow it and a thousands separator
    otherwise. *)
Theorem price_notations_agree (a b f : string) :
  str_forall is_digit a = true -> str_forall is_digit b = true ->
  str_forall is_digit f = true ->
  normalize_price (a +:+ String "," (b +:+ String "." f))
    = normalize_price (a +:+ b +:+ String "." f)
  /\ normalize_price (a +:+ String "." (b +:+ String "," f))
     = normalize_price (a +:+ b +:+ String "." f)
  /\ (String.length f = 2 ->
      normalize_price (a +:+ String "," f) = normalize_price (a +:+ String "." f))
  /\ (String.length b <> 2 ->
      normalize_price (a +:+ String "," b) = normalize_price (a +:+ b)).
Proof.
  intros Ha Hb Hf. unfold normalize_price.
  assert (Hab : str_forall is_digit (a +:+ b) = true) by (by rewrite str_forall_app, Ha, Hb).
  rewrite (cleaned_price_us a b f), (cleaned_price_european a b f) by done.
  rewrite <- str_app_assoc.
  destruct (cleaned_price_plain (a +:+ b) f Hab Hf) as [-> _].
  split; [done|]. split; [done|]. split.
  - intros Hlen. rewrite (cleaned_price_comma a f) by done.
    destruct (cleaned_price_plain a f Ha Hf) as [-> _]. by rewrite Hlen.
  - intros Hlen. rewrite (cleaned_price_comma a b) by done.
    destruct (cleaned_price_plain a b Ha Hb) as [_ ->].
    by apply Nat.eqb_neq in Hlen as ->.
Qed.

Lemma price_notations_agree_witness :
  normalize_price "1,234.56" = Return (DFinite false 123456 (-2))
  /\ normalize_price "1.234,56" = normalize_price "1234.56"
  /\ normalize_price "12,50" = normalize_price "12.50"
  /\ normalize_price "1,234" = normalize_price "1234".
Proof.
  destruct (price_notations_agree "1" "234" "56") as (_ & H1 & _); try reflexivity.
  destruct (price_notations_agree "12" "234" "50") as (_ & _ & H2 & _); try reflexivity.
  destruct (price_notations_agree "1" "234" "") as (_ & _ & _ & H3); try reflexivity.
  split; [reflexivity|]. split; [exact H1|]. split; [by apply H2|].
  apply H3. discriminate.
Defined.
